(** * Velora validator: task ledger and validation round

    A shallow embedding of [db/db_manager.py] (the task ledger kept by
    [DBManager]) and of [src/subnet/validator/validator.py] (the consensus,
    verification, scoring and weight submission of one validation round),
    with the properties of the design document proved or refuted on it. *)

From Stdlib Require Import Strings.String Strings.Ascii.
From Stdlib Require Import Reals Lra.
From Stdlib Require Import ZArith List Bool Lia Sorting.Sorted Sorting.Permutation.
From Stdlib Require Import Floats.
Import ListNotations.

Local Open Scope Z_scope.

(** ** Python exceptions and the round monad *)

(** The exceptions the modelled code can raise. *)
Inductive exn : Type :=
| RuntimeError | TypeError | KeyError | ValueError | AttributeError
| IndexError | ZeroDivisionError | OverflowError | AssertionError
| IntegrityError | NameError.

(** The outcome of a Python expression: a value or a raised exception. *)
Inductive result (A : Type) : Type :=
| Ok (a : A)
| Raise (e : exn).
Arguments Ok {A} a.
Arguments Raise {A} e.

Definition rbind {A B} (r : result A) (k : A -> result B) : result B :=
  match r with
  | Ok a => k a
  | Raise e => Raise e
  end.

Fixpoint rmapM {A B} (f : A -> result B) (l : list A) : result (list B) :=
  match l with
  | [] => Ok []
  | x :: l' =>
      rbind (f x) (fun y => rbind (rmapM f l') (fun ys => Ok (y :: ys)))
  end.

(** ** Python floats

    A Python [float] is an IEEE 754 binary64 number: the kernel's primitive
    floats, whose operations are specified by [FloatAxioms] over
    [spec_float]. *)

Module PyFloat.

(** The score constant [0.9] and the factor [1000] as binary64 literals. *)
Definition f0_9 : float := 0x1.ccccccccccccdp-1%float.
Definition f1000 : float := 0x1.f4p+9%float.

(** [int(x)]: truncation toward zero; [OverflowError] on an infinity and
    [ValueError] on a NaN. *)
Definition int_of_float (x : float) : result Z :=
  match Prim2SF x with
  | S754_zero _ => Ok 0
  | S754_finite s m e => Ok (cond_Zopp s (Z.shiftl (Zpos m) e))
  | S754_infinity _ => Raise OverflowError
  | S754_nan => Raise ValueError
  end.

(** [x / y] on floats: [ZeroDivisionError] when the divisor is a zero. *)
Definition truediv (x y : float) : result float :=
  if PrimFloat.is_zero y then Raise ZeroDivisionError else Ok (x / y)%float.

(** [sum(xs)]: the integer start value [0] and left-to-right float
    addition, which is how the built-in [sum] adds floats up to Python
    3.11.  From Python 3.12 on it also carries a compensation for the
    rounding errors of the additions; that variant is not modelled. *)
Definition sum (xs : list float) : float :=
  fold_left PrimFloat.add xs 0%float.

(** [0 < x]: the positive floats, finite or infinite. *)
Definition positive_float (x : float) : Prop := (0 <? x)%float = true.

(** A score in the documented range: [0 < x <= 1]. *)
Definition unit_score (x : float) : Prop :=
  positive_float x /\ (x <=? 1)%float = true.

(** Magnitude bounds on [spec_float]s, used to show that the normalised
    weights are finite: [sf_mag_le x k] says that [x] is finite with
    [|x| < 2^k]; [sf_pos_ge x k] that [x] is positive with [2^(k-1) <= x];
    [sf_pos x] that [x] is positive. *)
Definition sf_mag_le (x : spec_float) (k : Z) : Prop :=
  match x with
  | S754_zero _ => True
  | S754_finite _ m e => Zdigits2 (Zpos m) + e <= k
  | _ => False
  end.

Definition sf_pos_ge (x : spec_float) (k : Z) : Prop :=
  match x with
  | S754_finite false m e => k <= Zdigits2 (Zpos m) + e
  | S754_infinity false => True
  | _ => False
  end.

Definition sf_pos (x : spec_float) : Prop :=
  match x with
  | S754_finite false _ _ | S754_infinity false => True
  | _ => False
  end.



End PyFloat.

(** ** Python dictionaries keyed by integers

    A [dict] keeps its keys in insertion order; assigning to a key that is
    present replaces the value in place. *)

Definition dict (V : Type) : Type := list (Z * V).

Fixpoint dict_set {V} (k : Z) (v : V) (d : dict V) : dict V :=
  match d with
  | [] => [(k, v)]
  | (k', v') :: d' =>
      if k =? k' then (k, v) :: d' else (k', v') :: dict_set k v d'
  end.

Fixpoint dict_get {V} (k : Z) (d : dict V) : option V :=
  match d with
  | [] => None
  | (k', v') :: d' => if k =? k' then Some v' else dict_get k d'
  end.

(** [dict(items)]. *)
Definition dict_of_items {V} (items : list (Z * V)) : dict V :=
  fold_left (fun d kv => dict_set (fst kv) (snd kv) d) items [].

Definition dict_keys {V} (d : dict V) : list Z := map fst d.
Definition dict_values {V} (d : dict V) : list V := map snd d.

(** [l[:n]]: a negative [n] drops the last [-n] elements. *)
Definition py_slice_to {A} (l : list A) (n : Z) : list A :=
  if 0 <=? n then firstn (Z.to_nat n) l
  else firstn (length l - Z.to_nat (- n)) l.

(** ** The task ledger: [db/db_manager.py] *)

Module DBManager.

(** A [Date] is represented by its proleptic Gregorian ordinal
    ([date.toordinal()]), so that [timedelta(days=1)] adds [1]; [date.min]
    is day [1] and [date.max], the 31st of December 9999, is day
    [date_max]. *)
Definition date_max : Z := 3652059.

(** A row of [timetable]. *)
Record Timetable : Type := mkTimetable {
  start : Z;
  end_ : Z;
  completed : bool
}.

(** A row of a [token_pairs_{start}_{end}] table. *)
Record TokenPair : Type := mkTokenPair {
  token_a : string;
  token_b : string;
  fee : Z;
  pair_completed : bool
}.

(** A row of a [pool_data_{token_a}_{token_b}_{fee}] table. *)
Record PoolData : Type := mkPoolData {
  block_number : string;
  event_type : string;
  transaction_hash : string
}.

(** The database: every table is the list of its rows in storage order,
    the order in which a query without [ORDER BY] returns them.  The
    token-pair tables are keyed by their window, the pool tables by
    their name. *)
Record t : Type := mkDB {
  timetable : list Timetable;
  token_pairs : list ((Z * Z) * list TokenPair);
  pool_data : list (string * list PoolData)
}.

Definition with_timetable (d : t) (rows : list Timetable) : t :=
  mkDB rows (token_pairs d) (pool_data d).

Definition with_token_pairs (d : t) (tables : list ((Z * Z) * list TokenPair)) : t :=
  mkDB (timetable d) tables (pool_data d).

(** [add_timetable_entry]: [start] is the primary key, so inserting a
    second row with the same [start] fails at [session.commit()]. *)
Definition add_timetable_entry (new_start new_end : Z) (d : t) : result t :=
  if existsb (fun r => start r =? new_start) (timetable d)
  then Raise IntegrityError
  else Ok (with_timetable d (timetable d ++ [mkTimetable new_start new_end false])).

(** [fetch_incompleted_time_range]: [filter_by(completed=False).all()]. *)
Definition fetch_incompleted_time_range (d : t) : list Timetable :=
  filter (fun r => negb (completed r)) (timetable d).

(** [fetch_last_time_range]: [order_by(Timetable.start.desc()).first()]. *)
Definition fetch_last_time_range (d : t) : option Timetable :=
  fold_left
    (fun best r =>
       match best with
       | None => Some r
       | Some b => if start b <? start r then Some r else Some b
       end)
    (timetable d) None.

Definition matches_time_range (s e : Z) (r : Timetable) : bool :=
  (start r =? s) && (end_ r =? e).

(** Where the engine stores the new version of an updated row:
    [insert_at n x l] puts [x] before the element of index [n] of [l], and
    at the end when [l] is shorter. *)
Fixpoint insert_at {A} (n : nat) (x : A) (l : list A) : list A :=
  match n, l with
  | S n', y :: l' => y :: insert_at n' x l'
  | _, _ => x :: l
  end.

(** The table without the first row that satisfies [f]. *)
Fixpoint remove_first {A} (f : A -> bool) (l : list A) : list A :=
  match l with
  | [] => []
  | y :: l' => if f y then l' else y :: remove_first f l'
  end.

(** [mark_time_range_as_complete].  When the flag of the record returned
    by [.first()] is set already, [record.completed = True] is no net
    change and [session.commit()] emits no [UPDATE].  Otherwise the
    [UPDATE] writes a new version of the row: where a [SELECT] without
    [ORDER BY] returns it from then on is the engine's choice, given by
    [slot] (PostgreSQL returns it after the rows that were not updated, as
    long as no freed space is reused). *)
Definition mark_time_range_as_complete (slot : nat) (s e : Z) (d : t) : bool * t :=
  match find (matches_time_range s e) (timetable d) with
  | Some record =>
      if completed record then (true, d)
      else
        (true,
         with_timetable d
           (insert_at slot (mkTimetable (start record) (end_ record) true)
              (remove_first (matches_time_range s e) (timetable d))))
  | None => (false, d)
  end.

Definition window_eqb (k k' : Z * Z) : bool :=
  (fst k =? fst k') && (snd k =? snd k').

Fixpoint table_rows (k : Z * Z) (tables : list ((Z * Z) * list TokenPair))
  : option (list TokenPair) :=
  match tables with
  | [] => None
  | (k', rows) :: tables' =>
      if window_eqb k k' then Some rows else table_rows k tables'
  end.

Fixpoint set_table_rows (k : Z * Z) (rows : list TokenPair)
  (tables : list ((Z * Z) * list TokenPair)) : list ((Z * Z) * list TokenPair) :=
  match tables with
  | [] => [(k, rows)]
  | (k', rows') :: tables' =>
      if window_eqb k k' then (k, rows) :: tables'
      else (k', rows') :: set_table_rows k rows tables'
  end.

(** [ensure_table_exists(table_name, self.create_token_pairs_table, ...)]:
    the table of the window is created, empty, when it is missing. *)
Definition ensure_token_pairs_table (s e : Z) (d : t) : t :=
  match table_rows (s, e) (token_pairs d) with
  | Some _ => d
  | None => with_token_pairs d (token_pairs d ++ [((s, e), [])])
  end.

Definition matches_token_pair (a b : string) (f : Z) (r : TokenPair) : bool :=
  String.eqb (token_a r) a && String.eqb (token_b r) b && (fee r =? f).

(** The new versions of the rows an [UPDATE] rewrites are stored one after
    the other, the [k]-th at the position [slots k] of the table built so
    far. *)
Fixpoint store_versions {A} (slots : nat -> nat) (k : nat) (versions table : list A)
  : list A :=
  match versions with
  | [] => table
  | v :: versions' => store_versions slots (S k) versions' (insert_at (slots k) v table)
  end.

(** [mark_token_pair_as_complete].  The [UPDATE] rewrites every row of the
    pair, whatever its flag.  It runs on a connection taken from
    [engine.connect()] and is never committed by the method: [autocommit]
    tells whether the engine commits such a statement by itself (the
    execution mode of SQLAlchemy 1.x) or rolls it back when the connection
    is closed (SQLAlchemy 2.0). *)
Definition mark_token_pair_as_complete (autocommit : bool) (slots : nat -> nat)
  (s e : Z) (a b : string) (f : Z) (d : t) : bool * t :=
  let d1 := ensure_token_pairs_table s e d in
  let rows := match table_rows (s, e) (token_pairs d1) with
              | Some rows => rows
              | None => []
              end in
  match find (matches_token_pair a b f) rows with
  | Some _ =>
      let kept := filter (fun r => negb (matches_token_pair a b f r)) rows in
      let versions :=
        map (fun r => mkTokenPair (token_a r) (token_b r) (fee r) true)
          (filter (matches_token_pair a b f) rows) in
      let rows' := store_versions slots 0 versions kept in
      (true, if autocommit
             then with_token_pairs d1 (set_table_rows (s, e) rows' (token_pairs d1))
             else d1)
  | None => (false, d1)
  end.

End DBManager.

(** ** The validator: [src/subnet/validator/validator.py] *)

Module Validator.

(** *** Weight submission *)

(** [sorted(score_dict.items(), key=lambda x: x[1], reverse=True)]: a
    stable sort by decreasing score, items with equal scores keeping their
    dictionary order. *)
Fixpoint insert_desc (x : Z * float) (l : list (Z * float)) : list (Z * float) :=
  match l with
  | [] => [x]
  | y :: l' =>
      if (snd y <? snd x)%float then x :: y :: l' else y :: insert_desc x l'
  end.

Definition sorted_desc (items : list (Z * float)) : list (Z * float) :=
  fold_left (fun acc x => insert_desc x acc) items [].

(** [cut_to_max_allowed_weights]. *)
Definition cut_to_max_allowed_weights (score_dict : dict float)
  (max_allowed_weights : Z) : dict float :=
  let sorted_scores := sorted_desc score_dict in
  let cut_scores := py_slice_to sorted_scores max_allowed_weights in
  dict_of_items cut_scores.

(** [int(score * 1000 / scores)]. *)
Definition weight (score scores : float) : result Z :=
  rbind (PyFloat.truediv (score * PyFloat.f1000)%float scores) PyFloat.int_of_float.

(** The loop of [set_weights] that fills [weighted_scores]. *)
Fixpoint weighted_scores_loop (items : list (Z * float)) (scores : float)
  (weighted_scores : dict Z) : result (dict Z) :=
  match items with
  | [] => Ok weighted_scores
  | (uid, score) :: items' =>
      rbind (weight score scores)
        (fun w => weighted_scores_loop items' scores (dict_set uid w weighted_scores))
  end.

(** [set_weights], up to the arguments [uids] and [weights] of
    [client.vote]. *)
Definition set_weights (max_allowed_weights : Z) (score_dict : dict float)
  : result (list Z * list Z) :=
  let score_dict := cut_to_max_allowed_weights score_dict max_allowed_weights in
  let scores := PyFloat.sum (dict_values score_dict) in
  rbind (weighted_scores_loop score_dict scores [])
    (fun weighted_scores =>
       let weighted_scores := filter (fun kv => negb (snd kv =? 0)) weighted_scores in
       Ok (dict_keys weighted_scores, dict_values weighted_scores)).

(** *** Jobs and answers *)

(** The job description, a dictionary with four optional entries. *)
Record miner_prompt : Type := mkPrompt {
  token_a : option string;
  token_b : option string;
  start_datetime : option string;
  end_datetime : option string
}.

(** One record of an answer's [data] list. *)
Record block_data : Type := mkBlock {
  block_number : option Z;
  hash : option string
}.

(** A worker's decoded answer, a dictionary: its entry [overall_hash], its
    entry [data], and whether it has entries under other keys.  The
    fingerprint is modelled as a string; the other values that a decoded
    answer could carry there (numbers, among them the [NaN] that is not
    equal to itself, lists, [null]) are not modelled. *)
Record miner_answer : Type := mkAnswer {
  overall_hash : option string;
  data : option (list block_data);
  other_entries : bool
}.

(** Truth value of an answer: [None] and the empty dictionary are falsy. *)
Definition truthy (a : option miner_answer) : bool :=
  match a with
  | None => false
  | Some d =>
      match overall_hash d, data d with
      | None, None => other_entries d
      | _, _ => true
      end
  end.

(** *** The world of a round *)

(** What a round reads from outside the two source files: the ledger
    client, the workers, the interpreter's set iteration order, the random
    source and the ground-truth oracle.  [check_miner_answer] reaches the
    oracle under the global name [rust_backend], which the file binds
    nowhere (it imports [pool_data_fetcher]): [rust_backend_bound] tells
    whether the name has been bound from outside to the oracle below. *)
Record env : Type := mkEnv {
  (** [client.query_map_address(netuid)] *)
  query_map_address : dict string;
  (** [client.query_map_key(netuid)] *)
  query_map_key : dict string;
  (** [self.key.ss58_address] *)
  val_ss58 : string;
  (** [re.search(IP_REGEX, addr)], then [.group(0).split(":")] *)
  ip_port_of : string -> option (list string);
  (** the call to a worker and [json.loads], [None] on any exception *)
  miner_call : option miner_prompt -> list string * string -> option miner_answer;
  (** the order in which [set(xs)] is iterated *)
  set_iter : list string -> list string;
  (** the index picked by the [k]-th call of [random.choice] *)
  randbelow : nat -> nat -> nat;
  (** whether the global name [rust_backend] is bound *)
  rust_backend_bound : bool;
  (** [rust_backend.fetch_block_range] *)
  fetch_block_range :
    option string -> option string -> option string -> option string -> Z * Z;
  (** [rust_backend.fetch_block_data_by_block_number(n)['hash']] *)
  fetch_block_hash : Z -> string;
  (** [settings.max_allowed_weights] *)
  max_allowed_weights : Z
}.

(** A set iteration order is admissible when it lists every element of
    the collection exactly once. *)
Definition set_order (iter : list string -> list string) : Prop :=
  forall xs, NoDup (iter xs) /\ (forall x, In x (iter xs) <-> In x xs).

(** The mutable state: the database, the votes sent with [client.vote]
    (latest first) and the number of random draws made so far. *)
Record world : Type := mkWorld {
  db : DBManager.t;
  votes : list (list Z * list Z);
  draws : nat
}.

(** Computations that read and write the world and may raise. *)
Definition M (A : Type) : Type := world -> result A * world.

Definition ret {A} (a : A) : M A := fun w => (Ok a, w).

Definition bind {A B} (m : M A) (k : A -> M B) : M B :=
  fun w =>
    match m w with
    | (Ok a, w') => k a w'
    | (Raise e, w') => (Raise e, w')
    end.

Definition lift {A} (r : result A) : M A := fun w => (r, w).

Notation "x <- m ;; k" := (bind m (fun x => k))
  (at level 61, m at next level, right associativity).

(** *** The task of a round *)

(** [get_time_range], on the database it reads and writes.  Reading
    [last_time_range["end"]] raises [TypeError] when there is no last
    window, and [+ timedelta(days=1)] raises [OverflowError] past
    [date.max]. *)
Definition get_time_range (d : DBManager.t) : result (Z * Z) * DBManager.t :=
  match DBManager.fetch_incompleted_time_range d with
  | [] =>
      match DBManager.fetch_last_time_range d with
      | None => (Raise TypeError, d)
      | Some last_time_range =>
          let new_time_start := DBManager.end_ last_time_range in
          if DBManager.date_max <? DBManager.end_ last_time_range + 1
          then (Raise OverflowError, d)
          else
            let new_time_end := DBManager.end_ last_time_range + 1 in
            match DBManager.add_timetable_entry new_time_start new_time_end d with
            | Ok d' => (Ok (new_time_start, new_time_end), d')
            | Raise e => (Raise e, d)
            end
      end
  | r :: _ => (Ok (DBManager.start r, DBManager.end_ r), d)
  end.

(** [get_miner_prompt]: the time range is fetched and the function ends
    without a [return], so its value is [None]. *)
Definition get_miner_prompt : M (option miner_prompt) :=
  fun w =>
    match get_time_range (db w) with
    | (Ok _, d) => (Ok None, mkWorld d (votes w) (draws w))
    | (Raise e, d) => (Raise e, mkWorld d (votes w) (draws w))
    end.

(** *** Verification of the accepted answer *)

(** [random.choice(seq)]: [TypeError] when [seq] is [None], [IndexError]
    when it is empty; otherwise one more draw is made and the element at
    the drawn index is returned. *)
Definition random_choice (e : env) (seq : option (list block_data)) : M block_data :=
  fun w =>
    match seq with
    | None => (Raise TypeError, w)
    | Some [] => (Raise IndexError, w)
    | Some (x :: l) =>
        let n := length (x :: l) in
        (Ok (nth (randbelow e (draws w) n mod n) (x :: l) x),
         mkWorld (db w) (votes w) (S (draws w)))
    end.

(** The loop of [check_miner_answer], with [n] iterations left. *)
Fixpoint check_samples (e : env) (n : nat) (block_number_start block_number_end : Z)
  (miner_data : option (list block_data)) : M bool :=
  match n with
  | O => ret true
  | S n' =>
      block <- random_choice e miner_data ;;
      match block_number block with
      | None => ret false
      | Some bn =>
          if (bn <? block_number_start) || (bn >? block_number_end)
          then ret false
          else
            match hash block with
            | None => lift (Raise KeyError)
            | Some h =>
                if negb (String.eqb (fetch_block_hash e bn) h)
                then ret false
                else check_samples e n' block_number_start block_number_end miner_data
            end
      end
  end.

Definition ANSWER_CHECK_COUNT : nat := 10.

(** [check_miner_answer]: [.get] on a prompt or an answer that is [None]
    raises [AttributeError], and the first use of [rust_backend] raises
    [NameError] when the name is not bound. *)
Definition check_miner_answer (e : env) (prompt : option miner_prompt)
  (answer : option miner_answer) : M bool :=
  match prompt with
  | None => lift (Raise AttributeError)
  | Some p =>
      if negb (rust_backend_bound e) then lift (Raise NameError)
      else
        let '(block_number_start, block_number_end) :=
          fetch_block_range e (token_a p) (token_b p) (start_datetime p) (end_datetime p) in
        match answer with
        | None => lift (Raise AttributeError)
        | Some a =>
            check_samples e ANSWER_CHECK_COUNT block_number_start block_number_end (data a)
        end
  end.

(** *** Consensus *)

(** [miner_answer['overall_hash']]: [TypeError] on [None], [KeyError] when
    the entry is missing. *)
Definition subscript_overall_hash (a : option miner_answer) : result string :=
  match a with
  | None => Raise TypeError
  | Some d =>
      match overall_hash d with
      | None => Raise KeyError
      | Some h => Ok h
      end
  end.

(** [xs.count(h)]. *)
Definition count (xs : list string) (h : string) : nat :=
  count_occ string_dec xs h.

(** [max(iterable, key=key)]: the first element, in iteration order, whose
    key is maximal; [ValueError] on an empty iterable. *)
Fixpoint max_from (key : string -> nat) (best : string) (rest : list string) : string :=
  match rest with
  | [] => best
  | x :: rest' =>
      if (key best <? key x)%nat then max_from key x rest' else max_from key best rest'
  end.

Definition py_max (key : string -> nat) (iterable : list string) : result string :=
  match iterable with
  | [] => Raise ValueError
  | x :: rest => Ok (max_from key x rest)
  end.

(** [max(set(overall_hashes), key=overall_hashes.count)]. *)
Definition most_common_hash (iter : list string -> list string)
  (overall_hashes : list string) : result string :=
  py_max (count overall_hashes) (iter overall_hashes).

(** The consensus step on the collected answers: the fingerprints, then
    the accepted one. *)
Definition consensus (iter : list string -> list string)
  (miner_answers : list (option miner_answer)) : result string :=
  rbind (rmapM subscript_overall_hash miner_answers) (most_common_hash iter).

(** The results whose fingerprint is the accepted one. *)
Fixpoint agreeing (most_common : string) (miner_results : list (Z * option miner_answer))
  : result (list (Z * option miner_answer)) :=
  match miner_results with
  | [] => Ok []
  | (key, a) :: rest =>
      rbind (subscript_overall_hash a)
        (fun h =>
           rbind (agreeing most_common rest)
             (fun l => Ok (if String.eqb h most_common then (key, a) :: l else l)))
  end.

(** *** Scoring *)

(** [_score_miner]: [0] for a falsy answer, [0.9] otherwise. *)
Definition _score_miner (prompt : option miner_prompt) (a : option miner_answer) : float :=
  if negb (truthy a) then 0%float else PyFloat.f0_9.

(** The scoring loop of [validate_step]. *)
Fixpoint score_loop (prompt : option miner_prompt)
  (miner_results : list (Z * option miner_answer)) (score_dict : dict float)
  : result (dict float) :=
  match miner_results with
  | [] => Ok score_dict
  | (uid, miner_response) :: rest =>
      if negb (truthy miner_response) then score_loop prompt rest score_dict
      else
        let score := _score_miner prompt miner_response in
        if (score <=? 1)%float
        then score_loop prompt rest (dict_set uid score score_dict)
        else Raise AssertionError
  end.

(** *** A round *)

(** [get_ip_port]. *)
Definition get_ip_port (e : env) (modules_adresses : dict string) : dict (list string) :=
  flat_map
    (fun kv => match ip_port_of e (snd kv) with
               | Some x => [(fst kv, x)]
               | None => []
               end)
    modules_adresses.

(** The loop of [validate_step] that builds [modules_info]. *)
Definition modules_info_of (e : env) : dict (list string * string) :=
  let modules_filtered_address := get_ip_port e (query_map_address e) in
  fold_left
    (fun info kv =>
       match dict_get (fst kv) modules_filtered_address with
       | Some (x :: l) => dict_set (fst kv) (x :: l, snd kv) info
       | _ => info
       end)
    (query_map_key e) [].

(** [client.vote(key=key, uids=uids, weights=weights, netuid=netuid)]. *)
Definition client_vote (v : list Z * list Z) : M unit :=
  fun w => (Ok tt, mkWorld (db w) (v :: votes w) (draws w)).

(** [validate_step] from the polling of the workers to its end, with the
    prompt that was bound just before as an argument. *)
Definition validate_step_with_prompt (e : env)
  (modules_info : dict (list string * string)) (miner_prompt : option miner_prompt)
  : M unit :=
  let miner_answers := map (miner_call e miner_prompt) (dict_values modules_info) in
  let miner_results := combine (dict_keys modules_info) miner_answers in
  most_common <- lift (consensus (set_iter e) miner_answers) ;;
  miner_results <- lift (agreeing most_common miner_results) ;;
  first <- lift (match miner_results with
                 | [] => Raise IndexError
                 | r :: _ => Ok r
                 end) ;;
  valid <- check_miner_answer e miner_prompt (snd first) ;;
  if negb valid then ret tt
  else
    score_dict <- lift (score_loop miner_prompt miner_results []) ;;
    match score_dict with
    | [] => ret tt
    | _ :: _ =>
        v <- lift (set_weights (max_allowed_weights e) score_dict) ;;
        client_vote v
    end.

(** [validate_step]. *)
Definition validate_step (e : env) : M unit :=
  if negb (existsb (String.eqb (val_ss58 e)) (dict_values (query_map_key e)))
  then lift (Raise RuntimeError)
  else
    let modules_info := modules_info_of e in
    miner_prompt <- get_miner_prompt ;;
    validate_step_with_prompt e modules_info miner_prompt.

(** [validation_loop], cut after [rounds] iterations of its [while True]:
    there is no handler around [validate_step]. *)
Fixpoint validation_loop (rounds : nat) (e : env) : M unit :=
  match rounds with
  | O => ret tt
  | S rounds' => _ <- validate_step e ;; validation_loop rounds' e
  end.

End Validator.

(** * The vocabulary of the properties *)

(** ** Weights *)

Module WeightSpec.

Import PyFloat Validator.


(** The number of items kept by the slice [sorted_scores[:N]]. *)
Definition cut_length (N : Z) (len : nat) : nat :=
  if 0 <=? N then Z.to_nat N else (len - Z.to_nat (- N))%nat.





End WeightSpec.

(** ** The ledger *)

Module LedgerSpec.

Import DBManager.

(** Rows that continue a window ending at [e]: each row starts where the
    previous one ends, and ends later than it starts. *)
Fixpoint chained_from (e : Z) (rows : list Timetable) : Prop :=
  match rows with
  | [] => True
  | r :: rows' => start r = e /\ start r < end_ r /\ chained_from (end_ r) rows'
  end.

(** A chain of windows: at least one window, in chronological order,
    every window starting at the end of the one before. *)
Definition chained (rows : list Timetable) : Prop :=
  match rows with
  | [] => False
  | r :: rows' => start r < end_ r /\ chained_from (end_ r) rows'
  end.

(** In a chain a window listed before another ends no later than the
    other starts. *)
Definition no_overlap (rows : list Timetable) : Prop :=
  ForallOrdPairs (fun a b => end_ a <= start b) rows.

(** The windows that are not completed, in storage order. *)
Definition open_windows (rows : list Timetable) : list Timetable :=
  filter (fun r => negb (completed r)) rows.

(** A timetable in continuity: taken in chronological order, whatever the
    order in which they are stored, its windows are a chain; and the open
    windows are stored in chronological order. *)
Definition in_continuity (rows : list Timetable) : Prop :=
  (exists chain, Permutation chain rows /\ chained chain) /\
  StronglySorted (fun a b => start a < start b) (open_windows rows).

(** No two windows of the timetable overlap. *)
Definition disjoint_windows (rows : list Timetable) : Prop :=
  forall a b, In a rows -> In b rows -> a <> b ->
              end_ a <= start b \/ end_ b <= start a.

(** A chain with the window [(s, e)] completed. *)
Definition completed_in (s e : Z) (rows : list Timetable) : list Timetable :=
  map (fun r => if matches_time_range s e r
                then mkTimetable (start r) (end_ r) true
                else r) rows.

(** The calls of the window interface; a completion comes with the place
    the engine gives to the updated row. *)
Inductive ledger_call : Type :=
| NextTimeWindow
| MarkWindowComplete (slot : nat) (s e : Z).

(** The database after one call; a call that raises has changed
    nothing. *)
Definition run_call (c : ledger_call) (d : t) : t :=
  match c with
  | NextTimeWindow => snd (Validator.get_time_range d)
  | MarkWindowComplete slot s e => snd (mark_time_range_as_complete slot s e d)
  end.

Definition run_calls (cs : list ledger_call) (d : t) : t :=
  fold_left (fun d c => run_call c d) cs d.

(** The rows of the token-pair table of a window, none when the table
    does not exist. *)
Definition window_rows (s e : Z) (d : t) : list TokenPair :=
  match table_rows (s, e) (token_pairs d) with
  | Some rows => rows
  | None => []
  end.

Definition complete_pair (a b : string) (f : Z) (r : TokenPair) : TokenPair :=
  if matches_token_pair a b f r
  then mkTokenPair (token_a r) (token_b r) (fee r) true
  else r.

(** The rows of a token-pair table after the [UPDATE] of a pair: the rows
    of other pairs in their order, and the new versions of the rows of the
    pair where the engine stored them. *)
Definition rewritten (slots : nat -> nat) (a b : string) (f : Z) (rows : list TokenPair)
  : list TokenPair :=
  store_versions slots 0
    (map (fun r => mkTokenPair (token_a r) (token_b r) (fee r) true)
       (filter (matches_token_pair a b f) rows))
    (filter (fun r => negb (matches_token_pair a b f r)) rows).

End LedgerSpec.

(** ** A round *)

Module RoundSpec.

Import Validator.

(** An admissible iteration order in which the fingerprint seen last comes
    first. *)
Definition set_iter_reversed (xs : list string) : list string :=
  rev (nodup string_dec xs).

(** The answer of a worker carries the fingerprint [h]. *)
Definition has_fingerprint (a : option miner_answer) (h : string) : Prop :=
  exists d, a = Some d /\ overall_hash d = Some h.

(** The record picked by the draw number [k] from a non-empty data list
    [x :: l]. *)
Definition sample (e : env) (x : block_data) (l : list block_data) (k : nat) : block_data :=
  nth (randbelow e k (length (x :: l)) mod length (x :: l)) (x :: l) x.

(** A sampled record passes: its block number is present and inside the
    oracle's range, and its hash is the oracle's hash for that block. *)
Definition record_passes (e : env) (lo hi : Z) (r : block_data) : Prop :=
  exists bn h,
    block_number r = Some bn /\ lo <= bn <= hi /\
    hash r = Some h /\ fetch_block_hash e bn = h.

(** A sampled record fails: no block number, a block number outside the
    range, or a hash that differs from the oracle's. *)
Definition record_fails (e : env) (lo hi : Z) (r : block_data) : Prop :=
  block_number r = None \/
  (exists bn, block_number r = Some bn /\ (bn < lo \/ hi < bn)) \/
  (exists bn h,
      block_number r = Some bn /\ lo <= bn <= hi /\
      hash r = Some h /\ fetch_block_hash e bn <> h).

(** The world after [n] more draws. *)
Definition after_draws (w : world) (n : nat) : world :=
  mkWorld (db w) (votes w) (draws w + n).

(** Two workers at resolvable addresses and a validator without one; both
    workers return the same answer, whose single record the oracle
    confirms.  In [env0] the name [rust_backend] has been bound to the
    oracle; [env_as_written] is the same environment with the name left
    unbound, as the file leaves it. *)
Definition answer0 : miner_answer :=
  mkAnswer (Some "A"%string) (Some [mkBlock (Some 5) (Some "h"%string)]) false.

Definition prompt0 : miner_prompt :=
  mkPrompt (Some "T0"%string) (Some "T1"%string)
    (Some "2024-01-01"%string) (Some "2024-01-02"%string).

Definition env0 : env :=
  mkEnv
    [(1, "10.0.0.1:8000"%string); (2, "10.0.0.2:8000"%string)]
    [(0, "validator"%string); (1, "miner1"%string); (2, "miner2"%string)]
    "validator"%string
    (fun addr =>
       if String.eqb addr "10.0.0.1:8000" then Some ["10.0.0.1"%string; "8000"%string]
       else if String.eqb addr "10.0.0.2:8000" then Some ["10.0.0.2"%string; "8000"%string]
       else None)
    (fun _ _ => Some answer0)
    (nodup string_dec)
    (fun _ _ => 0%nat)
    true
    (fun _ _ _ _ => (0, 10))
    (fun _ => "h"%string)
    420.

(** The same round run by a validator whose key is not registered. *)
Definition env_unregistered : env :=
  mkEnv (query_map_address env0) (query_map_key env0) "stranger"%string
    (ip_port_of env0) (miner_call env0) (set_iter env0) (randbelow env0)
    (rust_backend_bound env0)
    (fetch_block_range env0) (fetch_block_hash env0) (max_allowed_weights env0).

Definition env_as_written : env :=
  mkEnv (query_map_address env0) (query_map_key env0) (val_ss58 env0)
    (ip_port_of env0) (miner_call env0) (set_iter env0) (randbelow env0)
    false
    (fetch_block_range env0) (fetch_block_hash env0) (max_allowed_weights env0).

(** A ledger with one open window, the first of January 2024, and one
    open token pair, an empty archive, no vote sent. *)
Definition world0 : world :=
  mkWorld
    (DBManager.mkDB
       [DBManager.mkTimetable 738886 738887 false]
       [((738886, 738887), [DBManager.mkTokenPair "T0" "T1" 3000 false])]
       [])
    [] 0.

End RoundSpec.

(** * Further code of the two files *)

(** ** The other queries of [DBManager] *)

Module DBManagerQueries.

Import DBManager.

(** [fetch_timetable_data]: [session.query(Timetable).all()]. *)
Definition fetch_timetable_data (d : t) : list Timetable := timetable d.

(** [fetch_token_pairs]: the table of the window is created when it is
    missing, then every row is returned. *)
Definition fetch_token_pairs (s e : Z) (d : t) : list TokenPair * t :=
  let d1 := ensure_token_pairs_table s e d in
  (match table_rows (s, e) (token_pairs d1) with
   | Some rows => rows
   | None => []
   end, d1).

(** [fetch_incompleted_token_pairs]: the same with
    [where(table.c.completed == False)]. *)
Definition fetch_incompleted_token_pairs (s e : Z) (d : t) : list TokenPair * t :=
  let d1 := ensure_token_pairs_table s e d in
  (filter (fun r => negb (pair_completed r))
     (match table_rows (s, e) (token_pairs d1) with
      | Some rows => rows
      | None => []
      end), d1).

End DBManagerQueries.

(** ** The vocabulary of the further properties *)

Module LedgerFacts.

Import DBManager.

(** [start] is the primary key of [timetable]: no two rows share it. *)
Definition pk_unique (d : t) : Prop := NoDup (map start (timetable d)).

(** The start and end of every window, in storage order. *)
Definition windows (d : t) : list (Z * Z) :=
  map (fun r => (start r, end_ r)) (timetable d).

End LedgerFacts.

(** ** The vocabulary of the further properties of a round *)

Module RoundFacts.

Import Validator.

(** The test of the comprehension that keeps the results whose
    fingerprint is [h]. *)
Definition fingerprint_is (h : string) (kv : Z * option miner_answer) : bool :=
  match subscript_overall_hash (snd kv) with
  | Ok h' => String.eqb h' h
  | Raise _ => false
  end.

End RoundFacts.

(** ** The module-level functions of the validator

    [IP_REGEX], [extract_address], [get_ip_port] and [get_subnet_netuid] of
    [src/subnet/validator/validator.py].  Strings are sequences of
    characters below 256, on which [\d] is [[0-9]]. *)

Module ValidatorFunctions.

(** The pieces of which [IP_REGEX] is made: [\d{lo,hi}], without upper
    bound when [hi] is [None], and a literal character. *)
Inductive piece : Type :=
| Digits (lo : nat) (hi : option nat)
| Lit (c : ascii).

Definition is_digit (c : ascii) : bool :=
  (48 <=? nat_of_ascii c)%nat && (nat_of_ascii c <=? 57)%nat.

(** The number of digits at the start of a string. *)
Fixpoint digit_run (s : string) : nat :=
  match s with
  | String c s' => if is_digit c then S (digit_run s') else 0%nat
  | EmptyString => 0%nat
  end.

(** [s[:n]] and [s[n:]]. *)
Fixpoint take (n : nat) (s : string) : string :=
  match n, s with
  | S n', String c s' => String c (take n' s')
  | _, _ => EmptyString
  end.

Fixpoint drop (n : nat) (s : string) : string :=
  match n, s with
  | S n', String _ s' => drop n' s'
  | _, _ => s
  end.

(** A greedy repetition: the longest count [k] is tried first, then the
    shorter ones down to [lo], until the rest of the pattern matches. *)
Fixpoint backtrack (rest : string -> option nat) (s : string) (lo k : nat) : option nat :=
  if (k <? lo)%nat then None
  else
    match rest (drop k s) with
    | Some n => Some (k + n)%nat
    | None =>
        match k with
        | O => None
        | S k' => backtrack rest s lo k'
        end
    end.

(** The match of a pattern at the start of a string: the length of the
    matched text. *)
Fixpoint match_here (pieces : list piece) (s : string) : option nat :=
  match pieces with
  | [] => Some 0%nat
  | Lit c :: pieces' =>
      match s with
      | String c' s' =>
          if Ascii.eqb c' c then option_map S (match_here pieces' s') else None
      | EmptyString => None
      end
  | Digits lo hi :: pieces' =>
      let most := match hi with
                  | Some h => Nat.min h (digit_run s)
                  | None => digit_run s
                  end in
      backtrack (match_here pieces') s lo most
  end.

(** [re.search(pattern, s)]: the match at the leftmost position that has
    one, as its [group(0)]. *)
Fixpoint search (pieces : list piece) (s : string) : option string :=
  match match_here pieces s with
  | Some n => Some (take n s)
  | None =>
      match s with
      | String _ s' => search pieces s'
      | EmptyString => None
      end
  end.

(** [IP_REGEX = r"\d{1,3}\.\d{1,3}\.\d{1,3}\.\d{1,3}:\d+"]. *)
Definition IP_REGEX : list piece :=
  [Digits 1 (Some 3%nat); Lit "."; Digits 1 (Some 3%nat); Lit ".";
   Digits 1 (Some 3%nat); Lit "."; Digits 1 (Some 3%nat); Lit ":"; Digits 1 None].

(** [extract_address]. *)
Definition extract_address (s : string) : option string := search IP_REGEX s.

(** [s.split(sep)] with a separator of one character. *)
Fixpoint str_split (sep : ascii) (s : string) : list string :=
  match s with
  | EmptyString => [EmptyString]
  | String c s' =>
      if Ascii.eqb c sep then EmptyString :: str_split sep s'
      else
        match str_split sep s' with
        | x :: l => String c x :: l
        | [] => [String c EmptyString]
        end
  end.

(** [get_ip_port]. *)
Definition get_ip_port (modules_adresses : dict string) : dict (list string) :=
  let filtered_addr :=
    map (fun kv => (fst kv, extract_address (snd kv))) modules_adresses in
  flat_map
    (fun kv => match snd kv with
               | Some x => [(fst kv, str_split ":" x)]
               | None => []
               end)
    filtered_addr.

(** [get_subnet_netuid], on the dictionary returned by
    [clinet.query_map_subnet_names()]. *)
Fixpoint get_subnet_netuid (subnets : dict string) (subnet_name : string) : result Z :=
  match subnets with
  | [] => Raise ValueError
  | (netuid, name) :: subnets' =>
      if String.eqb name subnet_name then Ok netuid
      else get_subnet_netuid subnets' subnet_name
  end.

End ValidatorFunctions.

(** ** The vocabulary of the properties of addresses *)

Module AddressFacts.

Import ValidatorFunctions.

Fixpoint all_digits (s : string) : bool :=
  match s with
  | EmptyString => true
  | String c s' => is_digit c && all_digits s'
  end.

Fixpoint no_digit (s : string) : bool :=
  match s with
  | EmptyString => true
  | String c s' => negb (is_digit c) && no_digit s'
  end.

Fixpoint has_char (x : ascii) (s : string) : bool :=
  match s with
  | EmptyString => false
  | String c s' => Ascii.eqb c x || has_char x s'
  end.

(** A string of at least [lo] and, when [hi] is given, at most [hi]
    digits. *)
Definition digit_field (lo : nat) (hi : option nat) (s : string) : Prop :=
  all_digits s = true /\ (lo <= String.length s)%nat /\
  match hi with
  | Some h => (String.length s <= h)%nat
  | None => True
  end.

(** The texts a pattern describes. *)
Fixpoint matches (pieces : list piece) (m : string) : Prop :=
  match pieces with
  | [] => m = EmptyString
  | Lit c :: pieces' => exists m', m = String c m' /\ matches pieces' m'
  | Digits lo hi :: pieces' =>
      exists run m',
        m = (run ++ m')%string /\ digit_field lo hi run /\ matches pieces' m'
  end.

(** The text [a.b.c.d:p]. *)
Definition dotted (a b c d : string) : string :=
  (a ++ "." ++ b ++ "." ++ c ++ "." ++ d)%string.

Definition ip_port (a b c d p : string) : string :=
  (dotted a b c d ++ ":" ++ p)%string.

(** The resolver of the round's environment that [get_ip_port] defines. *)
Definition ip_port_of_address (addr : string) : option (list string) :=
  option_map (str_split ":") (extract_address addr).

End AddressFacts.

(** * Properties *)

(** ** Binary64 arithmetic

    Sums of positive floats are positive, and the quotient of [x * 1000] by
    a sum that contains [x] is finite: the facts behind the absence of
    [ZeroDivisionError], [OverflowError] and [ValueError] in [set_weights].
    Rounding a mantissa moves it by less than one unit of the result. *)

Section Binary64.

Import PyFloat.

Lemma digits2_pos_bounds (m : positive) :
  2 ^ (Zpos (digits2_pos m) - 1) <= Zpos m < 2 ^ Zpos (digits2_pos m).
Proof.
  induction m as [m IH | m IH |]; cbn [digits2_pos].
  - rewrite Pos2Z.inj_succ.
    replace (Z.succ (Zpos (digits2_pos m)) - 1) with (Z.succ (Zpos (digits2_pos m) - 1)) by lia.
    rewrite !Z.pow_succ_r by lia. lia.
  - rewrite Pos2Z.inj_succ.
    replace (Z.succ (Zpos (digits2_pos m)) - 1) with (Z.succ (Zpos (digits2_pos m) - 1)) by lia.
    rewrite !Z.pow_succ_r by lia. lia.
  - cbn. lia.
Qed.

Lemma shr_1_m (mrs : shr_record) :
  0 <= shr_m mrs -> shr_m (shr_1 mrs) = shr_m mrs / 2.
Proof.
  destruct mrs as [m r s]; cbn [shr_m]; intros Hm.
  destruct m as [| p | p]; [reflexivity | | lia].
  destruct p as [p | p |]; cbn [shr_1 shr_m].
  - rewrite Pos2Z.inj_xI. apply Z.div_unique with (r := 1); lia.
  - rewrite Pos2Z.inj_xO. apply Z.div_unique with (r := 0); lia.
  - reflexivity.
Qed.

Lemma iter_pos_shr_1_m (p : positive) : forall mrs,
  0 <= shr_m mrs -> shr_m (iter_pos shr_1 p mrs) = shr_m mrs / 2 ^ Zpos p.
Proof.
  induction p as [p IH | p IH |]; intros mrs Hm; cbn [iter_pos].
  - assert (H1 : 0 <= shr_m (shr_1 mrs)) by (rewrite shr_1_m by assumption; apply Z.div_pos; lia).
    assert (H2 : 0 <= shr_m (iter_pos shr_1 p (shr_1 mrs))) by (rewrite IH by assumption; apply Z.div_pos; lia).
    rewrite IH by assumption. rewrite IH by assumption. rewrite shr_1_m by assumption.
    rewrite !Z.div_div by lia.
    f_equal.
    assert (E : Zpos p~1 = 1 + Zpos p + Zpos p) by lia.
    rewrite E, !Z.pow_add_r by lia. lia.
  - assert (H2 : 0 <= shr_m (iter_pos shr_1 p mrs)) by (rewrite IH by assumption; apply Z.div_pos; lia).
    rewrite IH by assumption. rewrite IH by assumption.
    rewrite !Z.div_div by lia.
    f_equal.
    assert (E : Zpos p~0 = Zpos p + Zpos p) by lia.
    rewrite E, !Z.pow_add_r by lia. lia.
  - rewrite shr_1_m by assumption. reflexivity.
Qed.

Lemma Zdigits2_log2 (m : Z) : 0 < m -> Zdigits2 m = Z.log2 m + 1.
Proof.
  destruct m as [| p | p]; try lia. intros _. cbn [Zdigits2].
  pose proof (digits2_pos_bounds p) as [Hl Hu].
  symmetry. apply Z.add_move_r. apply Z.log2_unique; [lia |].
  replace (Z.succ (Zpos (digits2_pos p) - 1)) with (Zpos (digits2_pos p)) by lia.
  split; assumption.
Qed.

Lemma Zdigits2_nonneg (m : Z) : 0 <= Zdigits2 m.
Proof. destruct m; cbn; lia. Qed.

Lemma Zdigits2_pos (m : Z) : 0 < m -> 0 < Zdigits2 m.
Proof. destruct m; cbn; lia. Qed.

Lemma Zdigits2_le (m m' : Z) : 0 <= m <= m' -> Zdigits2 m <= Zdigits2 m'.
Proof.
  intros [H0 H1]. destruct (Z.eq_dec m 0) as [-> | Hm].
  - apply Zdigits2_nonneg.
  - rewrite !Zdigits2_log2 by lia. pose proof (Z.log2_le_mono m m' H1). lia.
Qed.

Lemma Zdigits2_succ (m : Z) : 0 <= m -> Zdigits2 (m + 1) <= Zdigits2 m + 1.
Proof.
  intros H0. destruct (Z.eq_dec m 0) as [-> | Hm]; [cbn; lia |].
  rewrite !Zdigits2_log2 by lia.
  pose proof (Z.log2_succ_le m). unfold Z.succ in *. lia.
Qed.

Lemma Zdigits2_mul (a b : Z) : 0 < a -> 0 < b -> Zdigits2 (a * b) <= Zdigits2 a + Zdigits2 b.
Proof.
  intros Ha Hb. rewrite !Zdigits2_log2 by lia.
  pose proof (Z.log2_mul_above a b). lia.
Qed.

Lemma Zdigits2_mul_pow2 (a k : Z) : 0 < a -> 0 <= k -> Zdigits2 (a * 2 ^ k) = Zdigits2 a + k.
Proof.
  intros Ha Hk. assert (0 < 2 ^ k) by (apply Z.pow_pos_nonneg; lia).
  rewrite !Zdigits2_log2 by lia. rewrite Z.log2_mul_pow2 by lia. lia.
Qed.

Lemma Zdigits2_lt_pow2 (m k : Z) : 0 <= m -> 0 <= k -> m < 2 ^ k -> Zdigits2 m <= k.
Proof.
  intros H0 Hk Hlt. destruct (Z.eq_dec m 0) as [-> | Hm]; [cbn; lia |].
  rewrite Zdigits2_log2 by lia. apply Z.log2_lt_pow2 in Hlt; lia.
Qed.

Lemma Zdigits2_div_pow2 (m n : Z) :
  0 <= m -> 0 <= n -> 0 < m / 2 ^ n -> Zdigits2 (m / 2 ^ n) = Zdigits2 m - n.
Proof.
  intros H0 Hn Hq.
  assert (Hm : 0 < m).
  { destruct (Z.eq_dec m 0) as [-> | ]; [rewrite Z.div_0_l in Hq; [lia | ] | lia].
    apply Z.pow_nonzero; lia. }
  rewrite !Zdigits2_log2 by lia.
  rewrite <- Z.shiftr_div_pow2 in * by lia.
  rewrite Z.log2_shiftr by lia.
  assert (Z.log2 (Z.shiftr m n) = Z.max 0 (Z.log2 m - n)) by (apply Z.log2_shiftr; lia).
  destruct (Z_le_gt_dec n (Z.log2 m)); [lia |].
  exfalso. assert (Z.shiftr m n = 0); [| lia].
  apply Z.shiftr_eq_0; lia.
Qed.

Lemma Zdigits2_div_zero (m n : Z) :
  0 <= m -> 0 <= n -> m / 2 ^ n = 0 -> Zdigits2 m <= n.
Proof.
  intros H0 Hn Hq. apply Zdigits2_lt_pow2; try assumption.
  assert (0 < 2 ^ n) by (apply Z.pow_pos_nonneg; lia).
  apply Z.div_small_iff in Hq; lia.
Qed.

Lemma fexp_eq (x : Z) : fexp prec emax x = Z.max (x - 53) (-1074).
Proof. reflexivity. Qed.

Lemma shr_record_of_loc_m (m : Z) (l : location) : shr_m (shr_record_of_loc m l) = m.
Proof. destruct l as [| []]; reflexivity. Qed.

Lemma shr_fexp_spec (m e : Z) (l : location) :
  0 <= m ->
  exists mrs,
    shr_fexp prec emax m e l = (mrs, Z.max e (fexp prec emax (Zdigits2 m + e))) /\
    shr_m mrs = m / 2 ^ (Z.max e (fexp prec emax (Zdigits2 m + e)) - e).
Proof.
  intros Hm. unfold shr_fexp, shr.
  set (f := fexp prec emax (Zdigits2 m + e)).
  destruct (f - e) as [| p | p] eqn:En.
  - exists (shr_record_of_loc m l). replace (Z.max e f) with e by lia.
    rewrite shr_record_of_loc_m, Z.sub_diag, Z.pow_0_r, Z.div_1_r. auto.
  - exists (iter_pos shr_1 p (shr_record_of_loc m l)).
    replace (Z.max e f) with (e + Zpos p) by lia.
    rewrite iter_pos_shr_1_m by (rewrite shr_record_of_loc_m; assumption).
    rewrite shr_record_of_loc_m. replace (e + Zpos p - e) with (Zpos p) by lia. auto.
  - exists (shr_record_of_loc m l). replace (Z.max e f) with e by lia.
    rewrite shr_record_of_loc_m, Z.sub_diag, Z.pow_0_r, Z.div_1_r. auto.
Qed.

Lemma round_nearest_even_bounds (m : Z) (l : location) :
  m <= round_nearest_even m l <= m + 1.
Proof.
  destruct l as [| []]; cbn [round_nearest_even]; try lia.
  destruct (Z.even m); lia.
Qed.

(** The result of rounding a non-negative mantissa [m] at exponent [e]. *)
Lemma binary_round_aux_spec (s : bool) (m e : Z) (l : location) :
  0 <= m ->
  exists m3 e3,
    binary_round_aux prec emax s m e l =
      match m3 with
      | Z0 => S754_zero s
      | Zpos p => if e3 <=? emax - prec then S754_finite s p e3 else S754_infinity s
      | Zneg _ => S754_nan
      end /\
    0 <= m3 /\
    e3 <= Z.max e (Z.max (Zdigits2 m + e - 52) (-1074)) /\
    (0 < m3 -> Zdigits2 m3 + e3 <= Z.max (Zdigits2 m + e + 1) (-1073)) /\
    (-1074 <= e -> 0 < m -> 0 < m3 /\ Zdigits2 m + e <= Zdigits2 m3 + e3).
Proof.
  intros Hm. unfold binary_round_aux.
  destruct (shr_fexp_spec m e l Hm) as (mrs1 & E1 & M1). rewrite E1.
  set (e1 := Z.max e (fexp prec emax (Zdigits2 m + e))) in *.
  set (m2 := round_nearest_even (shr_m mrs1) (loc_of_shr_record mrs1)).
  assert (P2 : 0 < 2 ^ (e1 - e)) by (apply Z.pow_pos_nonneg; unfold e1; lia).
  assert (Hm1 : 0 <= shr_m mrs1) by (rewrite M1; apply Z.div_pos; lia).
  pose proof (round_nearest_even_bounds (shr_m mrs1) (loc_of_shr_record mrs1)) as B2.
  fold m2 in B2.
  assert (Hm2 : 0 <= m2) by lia.
  destruct (shr_fexp_spec m2 e1 loc_Exact Hm2) as (mrs3 & E3 & M3). rewrite E3.
  set (e3 := Z.max e1 (fexp prec emax (Zdigits2 m2 + e1))) in *.
  assert (P3 : 0 < 2 ^ (e3 - e1)) by (apply Z.pow_pos_nonneg; unfold e3; lia).
  assert (Hm3 : 0 <= shr_m mrs3) by (rewrite M3; apply Z.div_pos; lia).
  exists (shr_m mrs3), e3. split; [reflexivity |]. split; [assumption |].
  (* digits of the intermediate mantissas *)
  assert (D1 : 0 < shr_m mrs1 -> Zdigits2 (shr_m mrs1) + e1 = Zdigits2 m + e).
  { intros Hp. rewrite M1 in Hp |- *. rewrite Zdigits2_div_pow2; unfold e1 in *; lia. }
  assert (D1z : shr_m mrs1 = 0 -> Zdigits2 m + e <= e1).
  { intros Hz. rewrite M1 in Hz. apply Zdigits2_div_zero in Hz; unfold e1 in *; lia. }
  assert (D2 : Zdigits2 m2 <= Zdigits2 (shr_m mrs1) + 1).
  { etransitivity; [apply Zdigits2_le with (m' := shr_m mrs1 + 1); lia |].
    apply Zdigits2_succ; assumption. }
  assert (D3 : 0 < shr_m mrs3 -> Zdigits2 (shr_m mrs3) + e3 = Zdigits2 m2 + e1).
  { intros Hp. rewrite M3 in Hp |- *. rewrite Zdigits2_div_pow2; unfold e3 in *; lia. }
  pose proof (Zdigits2_nonneg m) as N0.
  pose proof (Zdigits2_nonneg m2) as N2.
  unfold e3, e1 in *. rewrite !fexp_eq in *.
  destruct (Z.eq_dec (shr_m mrs1) 0) as [Z1 | NZ1].
  - (* the first shift flushed the mantissa to zero *)
    specialize (D1z Z1). rewrite Z1 in D2. cbn [Zdigits2] in D2.
    split; [lia |]. split; [intros Hp; specialize (D3 Hp); lia |].
    intros He Hpos. exfalso.
    pose proof (Zdigits2_pos m Hpos). lia.
  - assert (Hp1 : 0 < shr_m mrs1) by lia. specialize (D1 Hp1).
    split; [lia |]. split; [intros Hp; specialize (D3 Hp); lia |].
    intros He Hpos.
    assert (D2' : Zdigits2 (shr_m mrs1) <= Zdigits2 m2) by (apply Zdigits2_le; lia).
    assert (Hp3 : 0 < shr_m mrs3).
    { rewrite M3. apply Z.div_str_pos. split; [assumption |].
      destruct (Z_le_gt_dec (Zdigits2 m2 + e1 - 53) e1) as [Hle | Hgt]; unfold e1 in *; rewrite ?fexp_eq in *.
      - replace (Z.max (Z.max e (Z.max (Zdigits2 m + e - 53) (-1074)))
                  (Z.max (Zdigits2 m2 + Z.max e (Z.max (Zdigits2 m + e - 53) (-1074)) - 53) (-1074)) -
                 Z.max e (Z.max (Zdigits2 m + e - 53) (-1074))) with 0 by lia.
        cbn. lia.
      - replace (Z.max (Z.max e (Z.max (Zdigits2 m + e - 53) (-1074)))
                  (Z.max (Zdigits2 m2 + Z.max e (Z.max (Zdigits2 m + e - 53) (-1074)) - 53) (-1074)) -
                 Z.max e (Z.max (Zdigits2 m + e - 53) (-1074))) with (Zdigits2 m2 - 53) by lia.
        assert (0 < m2) by lia.
        pose proof (Zdigits2_log2 m2 H) as L.
        pose proof (Z.log2_spec m2 H) as [Lb _].
        eapply Z.le_trans; [| exact Lb].
        apply Z.pow_le_mono_r; lia. }
    split; [assumption |]. specialize (D3 Hp3). lia.
Qed.

Lemma sf_pos_ge_pos x k : sf_pos_ge x k -> sf_pos x.
Proof. destruct x as [| [] | | [] ? ?]; cbn; auto. Qed.

Lemma sf_pos_ge_weaken x k k' : k' <= k -> sf_pos_ge x k -> sf_pos_ge x k'.
Proof. destruct x as [| [] | | [] ? ?]; cbn; auto; lia. Qed.

Lemma valid_finite_bounds s m e :
  valid_binary (S754_finite s m e) = true ->
  -1074 <= e <= 971 /\ Zdigits2 (Zpos m) <= 53.
Proof.
  cbn [SpecFloat.valid_binary]. unfold bounded, canonical_mantissa.
  rewrite andb_true_iff, Z.eqb_eq, Z.leb_le, fexp_eq. cbn [Zdigits2].
  change (emax - prec) with 971. lia.
Qed.

Lemma pos_iter_xO (m d : positive) : Zpos (Pos.iter xO m d) = Zpos m * 2 ^ Zpos d.
Proof.
  induction d as [| d IH] using Pos.peano_ind.
  - cbn [Pos.iter]. lia.
  - rewrite Pos.iter_succ, Pos2Z.inj_xO, IH, Pos2Z.inj_succ, Z.pow_succ_r by lia. lia.
Qed.

Lemma shl_align_spec (m : positive) (e e' : Z) :
  let r := shl_align m e e' in
  snd r = Z.min e e' /\ Zpos (fst r) = Zpos m * 2 ^ (e - snd r).
Proof.
  unfold shl_align. destruct (e' - e) as [| p | p] eqn:En; cbn [fst snd].
  - split; [lia |]. rewrite Z.sub_diag. cbn. lia.
  - split; [lia |]. rewrite Z.sub_diag. cbn. lia.
  - split; [lia |]. rewrite pos_iter_xO. f_equal. f_equal. lia.
Qed.

Lemma binary_round_pos (m : positive) (e : Z) :
  -1074 <= e ->
  sf_pos_ge (binary_round prec emax false m e) (Zdigits2 (Zpos m) + e).
Proof.
  intros He. unfold binary_round.
  pose proof (shl_align_spec m e (fexp prec emax (Zpos (digits2_pos m) + e))) as [Hs Hf].
  destruct (shl_align m e (fexp prec emax (Zpos (digits2_pos m) + e))) as [mz ez].
  cbn [fst snd] in Hs, Hf.
  destruct (binary_round_aux_spec false (Zpos mz) ez loc_Exact) as (m3 & e3 & E & H0 & _ & _ & Hpos);
    [lia |].
  rewrite E. rewrite fexp_eq in Hs.
  assert (Hd : Zdigits2 (Zpos mz) + ez = Zdigits2 (Zpos m) + e).
  { rewrite Hf, Zdigits2_mul_pow2 by lia. lia. }
  destruct Hpos as [Hp3 Hge]; [lia | lia |].
  destruct m3 as [| p | p]; try lia.
  destruct (e3 <=? emax - prec); cbn [sf_pos_ge]; [lia | exact I].
Qed.

Lemma SFadd_pos (a b : spec_float) :
  valid_binary a = true -> valid_binary b = true -> sf_pos a -> sf_pos b ->
  sf_pos (SF64add a b) /\
  (forall k, sf_pos_ge a k -> sf_pos_ge (SF64add a b) k) /\
  (forall k, sf_pos_ge b k -> sf_pos_ge (SF64add a b) k).
Proof.
  intros Va Vb Pa Pb.
  destruct a as [| [] | | [] ma ea]; try contradiction;
    destruct b as [| [] | | [] mb eb]; try contradiction;
    cbn [SF64add SFadd]; try (cbn; tauto).
  apply valid_finite_bounds in Va, Vb.
  pose proof (shl_align_spec ma ea (Z.min ea eb)) as [Hsa Hfa].
  pose proof (shl_align_spec mb eb (Z.min ea eb)) as [Hsb Hfb].
  unfold SF64add, SFadd. cbn [cond_Zopp].
  set (ma' := fst (shl_align ma ea (Z.min ea eb))) in *.
  set (mb' := fst (shl_align mb eb (Z.min ea eb))) in *.
  change (Zpos ma' + Zpos mb') with (Zpos (ma' + mb')). cbn [binary_normalize].
  pose proof (binary_round_pos (ma' + mb') (Z.min ea eb)) as Hr.
  specialize (Hr ltac:(lia)).
  assert (Da : Zdigits2 (Zpos ma) + ea <= Zdigits2 (Zpos (ma' + mb')) + Z.min ea eb).
  { rewrite Hsa in Hfa. replace (Z.min ea (Z.min ea eb)) with (Z.min ea eb) in Hfa by lia.
    assert (Zdigits2 (Zpos ma') = Zdigits2 (Zpos ma) + (ea - Z.min ea eb))
      by (rewrite Hfa, Zdigits2_mul_pow2; lia).
    assert (Zdigits2 (Zpos ma') <= Zdigits2 (Zpos (ma' + mb'))) by (apply Zdigits2_le; lia).
    lia. }
  assert (Db : Zdigits2 (Zpos mb) + eb <= Zdigits2 (Zpos (ma' + mb')) + Z.min ea eb).
  { rewrite Hsb in Hfb. replace (Z.min eb (Z.min ea eb)) with (Z.min ea eb) in Hfb by lia.
    assert (Zdigits2 (Zpos mb') = Zdigits2 (Zpos mb) + (eb - Z.min ea eb))
      by (rewrite Hfb, Zdigits2_mul_pow2; lia).
    assert (Zdigits2 (Zpos mb') <= Zdigits2 (Zpos (ma' + mb'))) by (apply Zdigits2_le; lia).
    lia. }
  split; [eapply sf_pos_ge_pos; exact Hr |].
  split; intros k Hk; cbn [sf_pos_ge] in Hk; (eapply sf_pos_ge_weaken; [| exact Hr]); lia.
Qed.

Lemma binary_round_aux_finite (s : bool) (m e : Z) (l : location) (k : Z) :
  0 <= m -> e <= 971 -> Zdigits2 m + e <= k -> k <= 1022 ->
  sf_mag_le (binary_round_aux prec emax s m e l) (Z.max (k + 1) (-1073)).
Proof.
  intros Hm He Hk Hk'.
  destruct (binary_round_aux_spec s m e l Hm) as (m3 & e3 & E & H0 & He3 & Hmag & _).
  rewrite E. destruct m3 as [| p | p]; try lia; [exact I |].
  specialize (Hmag ltac:(lia)).
  replace (e3 <=? emax - prec) with true
    by (symmetry; apply Z.leb_le; change (emax - prec) with 971; lia).
  cbn [sf_mag_le]. lia.
Qed.

Lemma Prim2SF_zero : Prim2SF 0%float = S754_zero false.
Proof. vm_compute. reflexivity. Qed.

Lemma Prim2SF_one : Prim2SF 1%float = S754_finite false 4503599627370496 (-52).
Proof. vm_compute. reflexivity. Qed.

Lemma Prim2SF_1000 : Prim2SF 0x1.f4p+9%float = S754_finite false 8796093022208000 (-43).
Proof. vm_compute. reflexivity. Qed.

(** [x * 1000] stays finite when [x] is below [2^k] for a moderate [k]. *)
Lemma SFmul_1000_finite (x : spec_float) (k : Z) :
  valid_binary x = true -> sf_mag_le x k -> k <= 1000 ->
  sf_mag_le (SF64mul x (Prim2SF 0x1.f4p+9%float)) (Z.max (k + 11) (-1073)).
Proof.
  intros Vx Hx Hk.
  rewrite Prim2SF_1000.
  destruct x as [sx | sx | | sx mx ex]; try contradiction; [exact I |].
  cbn [sf_mag_le] in Hx. apply valid_finite_bounds in Vx.
  unfold SF64mul, SFmul.
  pose proof (Zdigits2_mul (Zpos mx) 8796093022208000 ltac:(lia) ltac:(lia)) as Hd.
  change (Zdigits2 8796093022208000) with 53 in Hd.
  change (Zpos mx * 8796093022208000) with (Zpos (mx * 8796093022208000)) in Hd.
  pose proof (binary_round_aux_finite (xorb sx false) (Zpos (mx * 8796093022208000))
                (ex + -43) loc_Exact (k + 10)) as Hr.
  replace (k + 10 + 1) with (k + 11) in Hr by lia.
  apply Hr; lia.
Qed.

(** Dividing a quantity below [2^k1] by a positive one of at least
    [2^(k2-1)] stays finite when [k1 - k2] is moderate. *)
Lemma SFdiv_finite (x y : spec_float) (k1 k2 : Z) :
  sf_mag_le x k1 -> sf_pos_ge y k2 -> k1 - k2 <= 1000 ->
  exists k, sf_mag_le (SF64div x y) k.
Proof.
  intros Hx Hy Hk.
  destruct x as [sx | sx | | sx mx ex]; try contradiction;
    destruct y as [sy | [] | | [] my ey]; try contradiction;
    unfold SF64div, SFdiv; try (exists 0; exact I).
  cbn [sf_mag_le] in Hx. cbn [sf_pos_ge] in Hy.
  unfold SFdiv_core_binary.
  set (d1 := Zdigits2 (Zpos mx)) in *. set (d2 := Zdigits2 (Zpos my)) in *.
  set (e' := Z.min (fexp prec emax (d1 + ex - (d2 + ey))) (ex - ey)).
  set (m' := match ex - ey - e' with
             | Zpos _ => Z.shiftl (Zpos mx) (ex - ey - e')
             | Z0 => Zpos mx
             | Zneg _ => 0
             end).
  assert (Hs : 0 <= ex - ey - e') by (unfold e'; lia).
  assert (Hm' : m' = Zpos mx * 2 ^ (ex - ey - e')).
  { unfold m'. destruct (ex - ey - e') as [| p | p] eqn:Es; try lia.
    rewrite Z.shiftl_mul_pow2 by lia. reflexivity. }
  pose proof (Z_div_mod m' (Zpos my) ltac:(lia)) as Hdiv.
  destruct (Z.div_eucl m' (Zpos my)) as [q r]. destruct Hdiv as [Hq Hr].
  assert (P2 : 0 < 2 ^ (ex - ey - e')) by (apply Z.pow_pos_nonneg; lia).
  assert (Hq0 : 0 <= q) by nia.
  pose proof (Zdigits2_pos (Zpos mx) ltac:(lia)) as Hd1.
  pose proof (Zdigits2_pos (Zpos my) ltac:(lia)) as Hd2.
  fold d1 in Hd1. fold d2 in Hd2.
  assert (Hdq : Zdigits2 q <= Z.max 0 (d1 + (ex - ey - e') - d2 + 1)).
  { apply Zdigits2_lt_pow2; [assumption | lia |].
    assert (Hmx : Zpos mx < 2 ^ d1).
    { unfold d1. rewrite Zdigits2_log2 by lia.
      pose proof (Z.log2_spec (Zpos mx) ltac:(lia)). unfold Z.succ in *. lia. }
    assert (Hmy : 2 ^ (d2 - 1) <= Zpos my).
    { unfold d2. rewrite Zdigits2_log2 by lia.
      pose proof (Z.log2_spec (Zpos my) ltac:(lia)).
      replace (Z.log2 (Zpos my) + 1 - 1) with (Z.log2 (Zpos my)) by lia. lia. }
    set (kk := Z.max 0 (d1 + (ex - ey - e') - d2 + 1)).
    assert (Hpow : 2 ^ d1 * 2 ^ (ex - ey - e') <= 2 ^ (d2 - 1) * 2 ^ kk).
    { rewrite <- !Z.pow_add_r by (unfold kk; lia).
      apply Z.pow_le_mono_r; unfold kk; lia. }
    assert (P3 : 0 < 2 ^ kk) by (apply Z.pow_pos_nonneg; unfold kk; lia).
    assert (m' < Zpos my * 2 ^ kk) by nia.
    nia. }
  pose proof (binary_round_aux_finite (xorb sx false) q e' (new_location (Zpos my) r)
                (Z.max e' (k1 - k2 + 1))) as Hfin.
  eexists. apply Hfin; try assumption.
  - unfold e'. rewrite fexp_eq. lia.
  - unfold e' in *. rewrite fexp_eq in *. lia.
  - unfold e'. rewrite fexp_eq. lia.
Qed.

(** *** Primitive floats *)

Lemma positive_float_spec (x : float) : positive_float x <-> sf_pos (Prim2SF x).
Proof.
  unfold positive_float. rewrite ltb_spec.
  rewrite Prim2SF_zero.
  unfold SFltb. destruct (Prim2SF x) as [| [] | | [] ? ?]; cbn; intuition congruence.
Qed.

Lemma positive_float_not_zero (x : float) : positive_float x -> is_zero x = false.
Proof.
  intros H. apply positive_float_spec in H. unfold is_zero, zero. rewrite eqb_spec.
  rewrite Prim2SF_zero.
  unfold SFeqb. destruct (Prim2SF x) as [| [] | | [] ? ?]; cbn in *; tauto.
Qed.

Lemma compare_cont_Eq_le (m c : positive) :
  match Pos.compare_cont Eq m c with Gt => false | _ => true end = true ->
  Zpos m <= Zpos c.
Proof.
  intros H. change (Pos.compare_cont Eq m c) with (Pos.compare m c) in H.
  destruct (Pos.compare_spec m c) as [E | L | G]; [subst; lia | lia | discriminate H].
Qed.

Lemma SFleb_one_mag (x : spec_float) :
  valid_binary x = true -> sf_pos x ->
  SFleb x (S754_finite false 4503599627370496 (-52)) = true -> sf_mag_le x 1.
Proof.
  intros V Hp Hl.
  destruct x as [| [] | | [] m e]; try contradiction; try discriminate.
  apply valid_finite_bounds in V. cbn [sf_mag_le].
  unfold SFleb, SFcompare in Hl.
  destruct (Z.compare_spec e (-52)) as [He | Hlt | Hgt]; [| lia | discriminate Hl].
  apply compare_cont_Eq_le in Hl. lia.
Qed.

Lemma fle_one_mag (x : float) :
  positive_float x -> (x <=? 1)%float = true -> sf_mag_le (Prim2SF x) 1.
Proof.
  intros Hp Hl. apply positive_float_spec in Hp. rewrite leb_spec in Hl.
  rewrite Prim2SF_one in Hl.
  apply SFleb_one_mag; auto using Prim2SF_valid.
Qed.

Lemma fadd_pos (a x : float) :
  (Prim2SF a = S754_zero false \/ positive_float a) -> positive_float x ->
  positive_float (a + x) /\
  (forall k, sf_pos_ge (Prim2SF a) k -> sf_pos_ge (Prim2SF (a + x)) k) /\
  (forall k, sf_pos_ge (Prim2SF x) k -> sf_pos_ge (Prim2SF (a + x)) k).
Proof.
  intros Ha Hx. apply positive_float_spec in Hx. rewrite positive_float_spec, add_spec.
  destruct Ha as [Ez | Ha].
  - rewrite Ez.
    destruct (Prim2SF x) as [| [] | | [] m e]; try contradiction; cbn; tauto.
  - apply positive_float_spec in Ha.
    apply SFadd_pos; auto using Prim2SF_valid.
Qed.

Lemma fsum_pos (xs : list float) : forall acc,
  (Prim2SF acc = S754_zero false \/ positive_float acc) ->
  Forall positive_float xs ->
  (xs <> nil \/ positive_float acc -> positive_float (fold_left PrimFloat.add xs acc)) /\
  (forall k, sf_pos_ge (Prim2SF acc) k -> sf_pos_ge (Prim2SF (fold_left PrimFloat.add xs acc)) k) /\
  (forall x k, In x xs -> sf_pos_ge (Prim2SF x) k ->
               sf_pos_ge (Prim2SF (fold_left PrimFloat.add xs acc)) k).
Proof.
  induction xs as [| x xs IH]; intros acc Hacc Hxs; cbn [fold_left].
  - split; [intros [H | H]; [congruence | exact H] |].
    split; [auto | intros x k []].
  - inversion Hxs as [| ? ? Hx Hxs']; subst.
    destruct (fadd_pos acc x Hacc Hx) as (P & Ga & Gx).
    destruct (IH (acc + x)%float (or_intror P) Hxs') as (IP & IGa & IGx).
    split; [intros _; apply IP; right; exact P |].
    split; [intros k Hk; apply IGa, Ga, Hk |].
    intros y k [-> | Hy] Hk; [apply IGa, Gx, Hk | eapply IGx; eauto].
Qed.

(** *** The order on positive floats *)







(** *** The value of a rounded number *)





End Binary64.

(** ** The rounding error of a weight

    What the binary64 product, quotient and sum of [set_weights] lose
    against the exact values: the weight of a worker is within one of the
    exact [floor(score * 1000 / sum)]. *)

Section RoundingError.

Import PyFloat Validator WeightSpec.

(** *** Real values *)


































End RoundingError.

(** ** Weight submission: [set_weights] *)

Section SetWeights.

Import PyFloat Validator WeightSpec.

Lemma weight_defined (xs : list float) (s : float) :
  Forall unit_score xs -> In s xs -> exists w, weight s (PyFloat.sum xs) = Ok w.
Proof.
  intros Hxs Hin.
  assert (Hpos : Forall positive_float xs).
  { eapply Forall_impl; [| exact Hxs]. intros x [Hx _]. exact Hx. }
  destruct (fsum_pos xs 0%float (or_introl Prim2SF_zero) Hpos) as (Psum & _ & Gsum).
  assert (Hne : xs <> []) by (intros ->; contradiction).
  specialize (Psum (or_introl Hne)).
  rewrite Forall_forall in Hxs. destruct (Hxs s Hin) as [Hs Hle].
  pose proof (fle_one_mag s Hs Hle) as Hmag.
  pose proof (Prim2SF_valid s) as Vs.
  unfold weight, truediv, PyFloat.sum.
  rewrite (positive_float_not_zero _ Psum). cbn [rbind].
  unfold int_of_float. rewrite div_spec, mul_spec. unfold f1000.
  specialize (Gsum s).
  apply positive_float_spec in Hs.
  destruct (Prim2SF s) as [| [] | | [] m e] eqn:Es; try contradiction.
  cbn [sf_mag_le] in Hmag.
  pose proof (valid_finite_bounds _ _ _ Vs) as [He Hd].
  pose proof (Zdigits2_pos (Zpos m) ltac:(lia)) as Hd0.
  set (K := Zdigits2 (Zpos m) + e) in *.
  assert (Hmul : sf_mag_le (SF64mul (S754_finite false m e) (Prim2SF 0x1.f4p+9%float))
                   (Z.max (K + 11) (-1073))).
  { apply SFmul_1000_finite; [exact Vs | cbn [sf_mag_le]; fold K; lia | lia]. }
  assert (Hsum : sf_pos_ge (Prim2SF (fold_left PrimFloat.add xs 0%float)) K).
  { apply Gsum; [exact Hin |]. cbn [sf_pos_ge]. fold K. lia. }
  destruct (SFdiv_finite _ _ _ _ Hmul Hsum ltac:(lia)) as [k Hk].
  destruct (SF64div _ _) as [| | |]; cbn [sf_mag_le] in Hk; try contradiction; eauto.
Qed.


Lemma insert_desc_perm (x : Z * float) (l : list (Z * float)) :
  Permutation (insert_desc x l) (x :: l).
Proof.
  induction l as [| y l IH]; cbn [insert_desc]; [reflexivity |].
  destruct (snd y <? snd x)%float; [reflexivity |].
  rewrite IH. apply perm_swap.
Qed.

Lemma sorted_desc_acc_perm (items acc : list (Z * float)) :
  Permutation (fold_left (fun acc x => insert_desc x acc) items acc) (acc ++ items).
Proof.
  revert acc. induction items as [| x items IH]; intros acc; cbn [fold_left].
  - rewrite app_nil_r. reflexivity.
  - rewrite IH, insert_desc_perm. apply Permutation_middle.
Qed.

Lemma sorted_desc_perm (items : list (Z * float)) :
  Permutation (sorted_desc items) items.
Proof. apply (sorted_desc_acc_perm items []). Qed.



Lemma dict_set_fresh {V} (k : Z) (v : V) (d : dict V) :
  ~ In k (dict_keys d) -> dict_set k v d = d ++ [(k, v)].
Proof.
  induction d as [| [k' v'] d IH]; cbn [dict_set dict_keys map fst app In]; intros Hk;
    [reflexivity |].
  destruct (Z.eqb_spec k k') as [-> | Hne]; [tauto |].
  rewrite IH; [reflexivity | unfold dict_keys; tauto].
Qed.

Lemma dict_of_items_acc {V} (items : list (Z * V)) : forall acc : dict V,
  NoDup (dict_keys (acc ++ items)) ->
  fold_left (fun d kv => dict_set (fst kv) (snd kv) d) items acc = acc ++ items.
Proof.
  induction items as [| [k v] items IH]; intros acc Hnd; cbn [fold_left fst snd].
  - rewrite app_nil_r. reflexivity.
  - unfold dict_keys in Hnd. rewrite map_app in Hnd. cbn [map fst] in Hnd.
    pose proof (NoDup_remove_2 _ _ _ Hnd) as Hfresh.
    rewrite dict_set_fresh by (unfold dict_keys; rewrite in_app_iff in Hfresh; tauto).
    rewrite IH.
    + rewrite <- app_assoc. reflexivity.
    + unfold dict_keys. rewrite <- app_assoc, map_app. cbn [app map fst]. exact Hnd.
Qed.

Lemma dict_of_items_nodup {V} (items : list (Z * V)) :
  NoDup (dict_keys items) -> dict_of_items items = items.
Proof. intros H. apply (dict_of_items_acc items []). exact H. Qed.

Lemma NoDup_firstn {A} (n : nat) (l : list A) : NoDup l -> NoDup (firstn n l).
Proof.
  intros H. rewrite <- (firstn_skipn n l) in H. apply NoDup_app_remove_r in H. exact H.
Qed.

Lemma In_firstn {A} (n : nat) (l : list A) (x : A) : In x (firstn n l) -> In x l.
Proof.
  intros H. rewrite <- (firstn_skipn n l). apply in_or_app. left. exact H.
Qed.


Lemma weighted_scores_loop_ok (scores : float) (items : list (Z * float)) :
  forall acc : dict Z,
  NoDup (dict_keys acc ++ dict_keys items) ->
  (forall kv, In kv items -> exists w, weight (snd kv) scores = Ok w) ->
  exists weights,
    Forall2 (fun kv w => weight (snd kv) scores = Ok w) items weights /\
    weighted_scores_loop items scores acc = Ok (acc ++ combine (dict_keys items) weights).
Proof.
  induction items as [| [uid score] items IH]; intros acc Hnd Hw; cbn [weighted_scores_loop].
  - exists []. split; [constructor |]. cbn. rewrite app_nil_r. reflexivity.
  - destruct (Hw (uid, score) (or_introl eq_refl)) as [w Ew]. cbn [snd] in Ew.
    rewrite Ew. cbn [rbind].
    cbn [dict_keys map fst] in Hnd.
    pose proof (NoDup_remove_2 _ _ _ Hnd) as Hfresh.
    rewrite dict_set_fresh by (rewrite in_app_iff in Hfresh; tauto).
    destruct (IH (acc ++ [(uid, w)])) as (ws & Hws & Eloop).
    + unfold dict_keys in *. rewrite map_app, <- app_assoc. cbn [map fst app]. exact Hnd.
    + intros kv Hkv. apply Hw. right. exact Hkv.
    + exists (w :: ws). split; [constructor; assumption |].
      rewrite Eloop, <- app_assoc. reflexivity.
Qed.

Lemma sorted_desc_length (items : list (Z * float)) :
  length (sorted_desc items) = length items.
Proof. apply Permutation_length, sorted_desc_perm. Qed.

Lemma cut_is_prefix (score_dict : dict float) (N : Z) :
  NoDup (dict_keys score_dict) ->
  cut_to_max_allowed_weights score_dict N =
    firstn (cut_length N (length score_dict)) (sorted_desc score_dict).
Proof.
  intros Hnd.
  assert (Hnd_sorted : NoDup (dict_keys (sorted_desc score_dict))).
  { unfold dict_keys. eapply Permutation_NoDup; [| exact Hnd].
    apply Permutation_map, Permutation_sym, sorted_desc_perm. }
  unfold cut_to_max_allowed_weights, py_slice_to, cut_length.
  rewrite sorted_desc_length.
  destruct (0 <=? N); apply dict_of_items_nodup; unfold dict_keys;
    rewrite <- firstn_map; apply NoDup_firstn; exact Hnd_sorted.
Qed.

Lemma cut_subset (score_dict : dict float) (N : Z) (kv : Z * float) :
  NoDup (dict_keys score_dict) ->
  In kv (cut_to_max_allowed_weights score_dict N) -> In kv score_dict.
Proof.
  intros Hnd Hkv. rewrite cut_is_prefix in Hkv by exact Hnd.
  apply In_firstn in Hkv.
  eapply Permutation_in; [apply sorted_desc_perm | exact Hkv].
Qed.

(** [set_weights] returns: no division by zero, no conversion error. *)
Lemma set_weights_returns (score_dict : dict float) (N : Z) :
  NoDup (dict_keys score_dict) ->
  Forall (fun kv => unit_score (snd kv)) score_dict ->
  let retained := cut_to_max_allowed_weights score_dict N in
  let scores := PyFloat.sum (dict_values retained) in
  exists weights,
    Forall2 (fun kv w => weight (snd kv) scores = Ok w) retained weights /\
    let vote := filter (fun kv => negb (snd kv =? 0))
                  (combine (dict_keys retained) weights) in
    set_weights N score_dict = Ok (dict_keys vote, dict_values vote).
Proof.
  intros Hnd Hunit retained scores.
  destruct (weighted_scores_loop_ok scores retained []) as (weights & Hw & Eloop).
  - cbn [dict_keys map app]. unfold retained. rewrite cut_is_prefix by exact Hnd.
    unfold dict_keys. rewrite <- firstn_map. apply NoDup_firstn.
    eapply Permutation_NoDup; [| exact Hnd].
    apply Permutation_map, Permutation_sym, sorted_desc_perm.
  - intros kv Hkv. apply weight_defined.
    + unfold dict_values. rewrite Forall_map, Forall_forall. intros kv' Hkv'.
      rewrite Forall_forall in Hunit. apply Hunit. eapply cut_subset; eauto.
    + unfold dict_values. apply in_map. exact Hkv.
  - exists weights. split; [exact Hw |].
    unfold set_weights. fold retained. fold scores. rewrite Eloop. reflexivity.
Qed.

(** The divisor of the normalisation is positive as soon as a worker is
    retained. *)
Lemma retained_sum_positive (score_dict : dict float) (N : Z) :
  NoDup (dict_keys score_dict) ->
  Forall (fun kv => positive_float (snd kv)) score_dict ->
  cut_to_max_allowed_weights score_dict N <> [] ->
  positive_float (PyFloat.sum (dict_values (cut_to_max_allowed_weights score_dict N))).
Proof.
  intros Hnd Hpos Hne.
  set (retained := cut_to_max_allowed_weights score_dict N) in *.
  assert (Hp : Forall positive_float (dict_values retained)).
  { unfold dict_values. rewrite Forall_map, Forall_forall. intros kv Hkv.
    rewrite Forall_forall in Hpos. apply Hpos. eapply cut_subset; eauto. }
  destruct (fsum_pos (dict_values retained) 0%float (or_introl Prim2SF_zero) Hp) as (P & _).
  apply P. left. unfold dict_values. destruct retained; [contradiction | discriminate].
Qed.

Lemma unit_score_f0_9 : unit_score f0_9.
Proof. split; vm_compute; reflexivity. Qed.




End SetWeights.

(** ** Scoring: [_score_miner] and the scoring loop *)

Section Scoring.

Import PyFloat Validator WeightSpec.

Lemma dict_set_keys {V} (k k' : Z) (v : V) (d : dict V) :
  In k' (dict_keys (dict_set k v d)) <-> k' = k \/ In k' (dict_keys d).
Proof.
  induction d as [| [k0 v0] d IH]; cbn [dict_set dict_keys map fst In].
  - intuition.
  - destruct (Z.eqb_spec k k0) as [-> | Hne]; cbn [map fst In].
    + intuition.
    + unfold dict_keys in IH. rewrite IH. intuition.
Qed.

Lemma dict_set_nodup {V} (k : Z) (v : V) (d : dict V) :
  NoDup (dict_keys d) -> NoDup (dict_keys (dict_set k v d)).
Proof.
  induction d as [| [k0 v0] d IH]; cbn [dict_set dict_keys map fst]; intros Hnd.
  - constructor; [intros [] | constructor].
  - inversion Hnd as [| ? ? Hfresh Hnd']; subst.
    destruct (Z.eqb_spec k k0) as [-> | Hne]; cbn [map fst].
    + constructor; assumption.
    + constructor; [| apply IH; exact Hnd'].
      intros Hin. apply (dict_set_keys k k0 v d) in Hin. destruct Hin as [E | Hin];
        [congruence | exact (Hfresh Hin)].
Qed.

Lemma dict_set_Forall {V} (P : Z * V -> Prop) (k : Z) (v : V) (d : dict V) :
  P (k, v) -> Forall P d -> Forall P (dict_set k v d).
Proof.
  intros Hkv. induction d as [| [k0 v0] d IH]; cbn [dict_set]; intros Hd.
  - constructor; [exact Hkv | constructor].
  - inversion Hd; subst. destruct (k =? k0); constructor; auto.
Qed.

Lemma f0_9_le_1 : (f0_9 <=? 1)%float = true.
Proof. vm_compute. reflexivity. Qed.

Lemma score_loop_spec (prompt : option miner_prompt)
  (miner_results : list (Z * option miner_answer)) :
  forall acc : dict float,
  NoDup (dict_keys acc) -> Forall (fun kv => snd kv = f0_9) acc ->
  exists score_dict,
    score_loop prompt miner_results acc = Ok score_dict /\
    NoDup (dict_keys score_dict) /\
    Forall (fun kv => snd kv = f0_9) score_dict /\
    (forall uid, In uid (dict_keys score_dict) <->
       In uid (dict_keys acc) \/
       exists a, In (uid, a) miner_results /\ truthy a = true).
Proof.
  induction miner_results as [| [uid a] rest IH]; intros acc Hnd Hall; cbn [score_loop].
  - exists acc. split; [reflexivity |]. split; [exact Hnd |]. split; [exact Hall |].
    intros u. split; [auto | intros [H | (b & [] & _)]; exact H].
  - destruct (truthy a) eqn:Ta; cbn [negb].
    + unfold _score_miner. rewrite Ta. cbn [negb]. rewrite f0_9_le_1.
      destruct (IH (dict_set uid f0_9 acc)) as (sd & E & N & F & K).
      * apply dict_set_nodup. exact Hnd.
      * apply dict_set_Forall; [reflexivity | exact Hall].
      * exists sd. split; [exact E |]. split; [exact N |]. split; [exact F |].
        intros u. split.
        -- intros Hin. apply K in Hin. destruct Hin as [Hin | (b & Hb & Tb)].
           ++ apply dict_set_keys in Hin. destruct Hin as [-> | Hin]; [| auto].
              right. exists a. split; [left; reflexivity | exact Ta].
           ++ right. exists b. split; [right; exact Hb | exact Tb].
        -- intros [Hin | (b & [Hb | Hb] & Tb)]; apply K.
           ++ left. apply dict_set_keys. right. exact Hin.
           ++ left. apply dict_set_keys. left. congruence.
           ++ right. exists b. split; assumption.
    + destruct (IH acc Hnd Hall) as (sd & E & N & F & K).
      exists sd. split; [exact E |]. split; [exact N |]. split; [exact F |].
      intros u. split.
      * intros Hin. apply K in Hin. destruct Hin as [Hin | (b & Hb & Tb)]; [auto |].
        right. exists b. split; [right; exact Hb | exact Tb].
      * intros [Hin | (b & [Hb | Hb] & Tb)]; apply K; [auto | | eauto].
        congruence.
Qed.

(** C10.  The scoring loop of [validate_step] never fails its assertion;
    the workers it scores are those with a truthy answer, and every score
    it stores is [0.9] ([_score_miner] returns [0] or [0.9] only).  With
    such a dictionary [set_weights] returns for every
    [max_allowed_weights]: the sum it divides by is positive as soon as a
    worker is retained, which is the case for a non-empty dictionary and a
    positive [max_allowed_weights], and no division is made otherwise. *)
Theorem score_dict_all_0_9 (prompt : option miner_prompt)
  (miner_results : list (Z * option miner_answer)) :
  (forall a, _score_miner prompt a = 0%float \/ _score_miner prompt a = f0_9) /\
  exists score_dict,
    score_loop prompt miner_results [] = Ok score_dict /\
    Forall (fun kv => snd kv = f0_9 /\ (snd kv <=? 1)%float = true) score_dict /\
    (forall uid, In uid (dict_keys score_dict) <->
       exists a, In (uid, a) miner_results /\ truthy a = true) /\
    forall N,
      let retained := cut_to_max_allowed_weights score_dict N in
      (exists vote, set_weights N score_dict = Ok vote) /\
      (retained <> [] -> positive_float (PyFloat.sum (dict_values retained))) /\
      (score_dict <> [] -> 1 <= N -> retained <> []).
Proof.
  split.
  { intros a. unfold _score_miner. destruct (truthy a); cbn [negb]; auto. }
  destruct (score_loop_spec prompt miner_results [])
    as (score_dict & E & Hnd & Hall & Hkeys); [constructor | constructor |].
  exists score_dict. split; [exact E |].
  assert (Hunit : Forall (fun kv => unit_score (snd kv)) score_dict).
  { eapply Forall_impl; [| exact Hall]. intros kv ->. apply unit_score_f0_9. }
  split.
  { eapply Forall_impl; [| exact Hall]. intros kv Hkv. split; [exact Hkv |].
    rewrite Hkv. apply f0_9_le_1. }
  split.
  { intros uid. rewrite Hkeys. cbn [dict_keys map In]. tauto. }
  intros N retained. split; [| split].
  - destruct (set_weights_returns score_dict N Hnd Hunit) as (weights & _ & Ev).
    eexists. exact Ev.
  - intros Hne. apply retained_sum_positive; [exact Hnd | | exact Hne].
    eapply Forall_impl; [| exact Hunit]. intros kv [H _]. exact H.
  - intros Hne HN. unfold retained. rewrite cut_is_prefix by exact Hnd.
    unfold cut_length. replace (0 <=? N) with true by (symmetry; apply Z.leb_le; lia).
    pose proof (sorted_desc_length score_dict) as Hlen.
    destruct (sorted_desc score_dict) as [| x l];
      [destruct score_dict; [congruence | discriminate Hlen] |].
    destruct (Z.to_nat N) eqn:EN; [lia |]. discriminate.
Qed.

Lemma score_dict_all_0_9_witness :
  exists score_dict,
    score_loop None [(7, Some (mkAnswer (Some "h"%string) None false)); (8, None)] [] = Ok score_dict /\
    exists vote, set_weights 420 score_dict = Ok vote.
Proof.
  destruct (score_dict_all_0_9 None
              [(7, Some (mkAnswer (Some "h"%string) None false)); (8, None)])
    as (_ & score_dict & E & _ & _ & HN).
  exists score_dict. split; [exact E |]. exact (proj1 (HN 420)).
Defined.

End Scoring.

(** ** The time windows of the ledger *)

Section Windows.

Import DBManager LedgerSpec.

Lemma last_cons {A} (rows : list A) : forall r b : A, last (r :: rows) b = last rows r.
Proof.
  induction rows as [| r1 rows IH]; intros r b; [reflexivity |].
  change (last (r :: r1 :: rows) b) with (last (r1 :: rows) b).
  rewrite !IH. reflexivity.
Qed.

Lemma chained_from_bounds (rows : list Timetable) : forall e,
  chained_from e rows ->
  Forall (fun r => e <= start r /\ start r < end_ r) rows /\ no_overlap rows.
Proof.
  induction rows as [| r rows IH]; intros e H; cbn [chained_from] in H.
  - split; constructor.
  - destruct H as (Hs & Hlt & Hrest). destruct (IH _ Hrest) as [Hall Hno].
    split.
    + constructor; [lia |]. eapply Forall_impl; [| exact Hall].
      cbn beta. intros r' [H1 H2]. lia.
    + constructor; [| exact Hno]. eapply Forall_impl; [| exact Hall].
      cbn beta. intros r' [H1 H2]. lia.
Qed.

Lemma chained_no_overlap (rows : list Timetable) : chained rows -> no_overlap rows.
Proof.
  destruct rows as [| r rows]; cbn [chained]; [contradiction |]. intros [Hlt H].
  destruct (chained_from_bounds _ _ H) as [Hall Hno].
  constructor; [| exact Hno]. eapply Forall_impl; [| exact Hall].
  cbn beta. intros r' [H1 H2]. lia.
Qed.

Lemma chained_positive (rows : list Timetable) :
  chained rows -> forall r, In r rows -> start r < end_ r.
Proof.
  destruct rows as [| r0 rows]; cbn [chained]; [contradiction |]. intros [Hlt H].
  destruct (chained_from_bounds _ _ H) as [Hall _]. rewrite Forall_forall in Hall.
  intros r [<- | Hr]; [exact Hlt | apply Hall; exact Hr].
Qed.

Lemma chained_from_app (rows : list Timetable) : forall e r0 x,
  start r0 < end_ r0 -> end_ r0 = e ->
  chained_from e rows -> end_ (last rows r0) < x ->
  chained_from e (rows ++ [mkTimetable (end_ (last rows r0)) x false]).
Proof.
  induction rows as [| r rows IH]; intros e r0 x Hr0 He H Hx; cbn [app chained_from].
  - cbn in *. lia.
  - cbn [chained_from] in H. destruct H as (Hs & Hlt & Hrest).
    rewrite last_cons in *.
    split; [exact Hs |]. split; [exact Hlt |]. apply IH; auto.
Qed.

Lemma chained_latest (r : Timetable) (rows : list Timetable) :
  chained (r :: rows) ->
  In (last rows r) (r :: rows) /\
  forall r', In r' (r :: rows) ->
    start r' <= start (last rows r) /\ end_ r' <= end_ (last rows r).
Proof.
  revert r. induction rows as [| r1 rows IH]; intros r [Hlt H].
  - cbn. split; [auto |]. intros r' [<- | []]. lia.
  - cbn [chained_from] in H. destruct H as (Hs & Hlt1 & Hrest).
    destruct (IH r1 (conj Hlt1 Hrest)) as [Hin Hmax].
    rewrite last_cons.
    split; [right; exact Hin |].
    intros r' [<- | Hr']; [| apply Hmax; exact Hr'].
    specialize (Hmax r1 (or_introl eq_refl)). lia.
Qed.

Lemma chained_starts (rows : list Timetable) : chained rows -> NoDup (map start rows).
Proof.
  intros Hch. pose proof (chained_no_overlap _ Hch) as Hno.
  pose proof (chained_positive _ Hch) as Hpos. clear Hch.
  unfold no_overlap in Hno. induction Hno as [| r rows Hr _ IH]; cbn [map]; [constructor |].
  constructor.
  - intros Hin. apply in_map_iff in Hin as (x & Ex & Hx).
    rewrite Forall_forall in Hr. specialize (Hr x Hx).
    specialize (Hpos r (or_introl eq_refl)). lia.
  - apply IH. intros x Hx. apply Hpos. right. exact Hx.
Qed.

Lemma chained_ordered (rows : list Timetable) (a b : Timetable) :
  chained rows -> In a rows -> In b rows -> start a < start b -> end_ a <= start b.
Proof.
  intros Hch Ha Hb Hlt.
  pose proof (chained_no_overlap _ Hch) as Hno.
  pose proof (chained_positive _ Hch b Hb) as Hpos.
  destruct (ForallOrdPairs_In Hno a b Ha Hb) as [E | [H | H]].
  - subst. lia.
  - exact H.
  - lia.
Qed.

Lemma same_start_same_row (rows : list Timetable) (a b : Timetable) :
  NoDup (map start rows) -> In a rows -> In b rows -> start a = start b -> a = b.
Proof.
  induction rows as [| r rows IH]; intros Hnd Ha Hb E; [destruct Ha |].
  cbn [map] in Hnd. inversion Hnd as [| ? ? Hfresh Hnd']; subst.
  destruct Ha as [<- | Ha], Hb as [<- | Hb].
  - reflexivity.
  - exfalso. apply Hfresh. rewrite E. apply in_map. exact Hb.
  - exfalso. apply Hfresh. rewrite <- E. apply in_map. exact Ha.
  - apply IH; assumption.
Qed.

(** What continuity gives, whatever the storage order. *)
Lemma continuity_facts (rows : list Timetable) :
  in_continuity rows ->
  NoDup (map start rows) /\
  (forall r, In r rows -> start r < end_ r) /\
  (forall a b, In a rows -> In b rows -> start a < start b -> end_ a <= start b) /\
  exists latest,
    In latest rows /\
    forall r, In r rows -> start r <= start latest /\ end_ r <= end_ latest.
Proof.
  intros [(chain & Hperm & Hch) _].
  assert (Hin : forall r, In r rows <-> In r chain).
  { intros r. split; intros H.
    - apply (Permutation_in _ (Permutation_sym Hperm)). exact H.
    - apply (Permutation_in _ Hperm). exact H. }
  split; [| split; [| split]].
  - apply (Permutation_NoDup (Permutation_map start Hperm)). apply chained_starts. exact Hch.
  - intros r Hr. apply (chained_positive _ Hch). apply Hin. exact Hr.
  - intros a b Ha Hb. apply (chained_ordered chain); [exact Hch | |]; apply Hin; assumption.
  - destruct chain as [| r0 chain']; [destruct Hch |].
    destruct (chained_latest r0 chain' Hch) as [Hl Hmax].
    exists (last chain' r0). split; [apply Hin; exact Hl |].
    intros r Hr. apply Hmax. apply Hin. exact Hr.
Qed.

Lemma continuity_disjoint (rows : list Timetable) :
  in_continuity rows -> disjoint_windows rows.
Proof.
  intros Hc a b Ha Hb Hne.
  destruct (continuity_facts rows Hc) as (Hnd & _ & Hord & _).
  destruct (Z.lt_total (start a) (start b)) as [H | [H | H]].
  - left. apply Hord; assumption.
  - exfalso. apply Hne. apply (same_start_same_row rows); assumption.
  - right. apply Hord; assumption.
Qed.

Lemma fold_last_spec (rows : list Timetable) : forall b,
  exists r,
    fold_left
      (fun best r =>
         match best with
         | None => Some r
         | Some b => if start b <? start r then Some r else Some b
         end) rows (Some b) = Some r /\
    In r (b :: rows) /\
    forall r', In r' (b :: rows) -> start r' <= start r.
Proof.
  induction rows as [| x rows IH]; intros b; cbn [fold_left].
  - exists b. split; [reflexivity |]. split; [left; reflexivity |].
    intros r' [<- | []]. lia.
  - destruct (Z.ltb_spec (start b) (start x)) as [Hlt | Hge].
    + destruct (IH x) as (r & E & Hin & Hmax). exists r. split; [exact E |].
      split; [right; exact Hin |].
      intros r' [<- | Hr']; [| apply Hmax; exact Hr'].
      specialize (Hmax x (or_introl eq_refl)). lia.
    + destruct (IH b) as (r & E & Hin & Hmax). exists r. split; [exact E |].
      split; [destruct Hin as [<- | Hin]; [left; reflexivity | right; right; exact Hin] |].
      intros r' [<- | [<- | Hr']].
      * apply Hmax. left. reflexivity.
      * specialize (Hmax b (or_introl eq_refl)). lia.
      * apply Hmax. right. exact Hr'.
Qed.

Lemma fetch_last_spec (d : t) :
  timetable d <> [] ->
  exists r,
    fetch_last_time_range d = Some r /\ In r (timetable d) /\
    forall r', In r' (timetable d) -> start r' <= start r.
Proof.
  unfold fetch_last_time_range. destruct (timetable d) as [| b rows]; [congruence |].
  intros _. cbn [fold_left]. apply fold_last_spec.
Qed.

Lemma existsb_start (s : Z) (rows : list Timetable) :
  existsb (fun r => start r =? s) rows = true <-> In s (map start rows).
Proof.
  rewrite existsb_exists, in_map_iff. split.
  - intros (r & Hin & E). apply Z.eqb_eq in E. eauto.
  - intros (r & E & Hin). exists r. split; [exact Hin | apply Z.eqb_eq; exact E].
Qed.

(** On a timetable in continuity, [fetch_last_time_range] returns the
    window that ends last. *)
Lemma fetch_last_continuity (d : t) :
  in_continuity (timetable d) ->
  exists latest,
    fetch_last_time_range d = Some latest /\ In latest (timetable d) /\
    start latest < end_ latest /\
    forall r, In r (timetable d) -> start r <= start latest /\ end_ r <= end_ latest.
Proof.
  intros Hc. destruct (continuity_facts _ Hc) as (Hnd & Hpos & _ & latest & Hl & Hmax).
  destruct (fetch_last_spec d) as (r & E & Hr & Hr_max).
  { intros Hnil. rewrite Hnil in Hl. destruct Hl. }
  assert (r = latest).
  { apply (same_start_same_row (timetable d)); try assumption.
    specialize (Hr_max latest Hl). destruct (Hmax r Hr). lia. }
  subst r. exists latest. repeat split; try assumption; try (apply Hmax; assumption).
  apply Hpos. exact Hl.
Qed.

Lemma filter_head {A} (f : A -> bool) (l : list A) (x : A) (rest : list A) :
  filter f l = x :: rest ->
  exists pre post, l = pre ++ x :: post /\ Forall (fun y => f y = false) pre /\ f x = true.
Proof.
  induction l as [| y l IH]; cbn [filter]; [discriminate |].
  destruct (f y) eqn:Fy; intros H.
  - injection H as -> _. exists [], l. repeat split; auto.
  - destruct (IH H) as (pre & post & -> & Hpre & Hx).
    exists (y :: pre), post. repeat split; auto.
Qed.

Lemma filter_none {A} (f : A -> bool) (l : list A) :
  (forall x, In x l -> f x = false) -> filter f l = [].
Proof.
  induction l as [| y l IH]; intros H; cbn [filter]; [reflexivity |].
  rewrite (H y (or_introl eq_refl)). apply IH. intros x Hx. apply H. right. exact Hx.
Qed.

(** The window [get_time_range] returns when one is open: the oldest. *)
Lemma get_time_range_oldest (d : t) :
  in_continuity (timetable d) ->
  (exists r0, In r0 (timetable d) /\ completed r0 = false) ->
  exists r,
    In r (timetable d) /\ completed r = false /\
    (forall r', In r' (timetable d) -> completed r' = false -> start r <= start r') /\
    Validator.get_time_range d = (Ok (start r, end_ r), d).
Proof.
  intros [_ Hsorted] (r0 & Hr0 & Hc0).
  assert (Hopen : forall x, In x (open_windows (timetable d)) <->
                            In x (timetable d) /\ completed x = false).
  { intros x. unfold open_windows. rewrite filter_In, negb_true_iff. reflexivity. }
  destruct (open_windows (timetable d)) as [| r rest] eqn:E.
  { exfalso. apply (proj2 (Hopen r0)). split; assumption. }
  exists r. destruct (proj1 (Hopen r) (or_introl eq_refl)) as [Hr Hc].
  split; [exact Hr |]. split; [exact Hc |]. split.
  - intros r' Hr' Hc'. destruct (proj2 (Hopen r') (conj Hr' Hc')) as [<- | Hin]; [lia |].
    apply StronglySorted_inv in Hsorted as [_ Hall]. rewrite Forall_forall in Hall.
    specialize (Hall r' Hin). lia.
  - unfold Validator.get_time_range, fetch_incompleted_time_range.
    unfold open_windows in E. rewrite E. reflexivity.
Qed.

Lemma permutation_snoc {A} (l l' : list A) (x : A) :
  Permutation l l' -> Permutation (l ++ [x]) (l' ++ [x]).
Proof.
  intros H. apply Permutation_app_tail. exact H.
Qed.

(** What [get_time_range] does when no window is open. *)
Lemma get_time_range_creates (d : t) :
  in_continuity (timetable d) ->
  (forall r, In r (timetable d) -> completed r = true) ->
  exists latest,
    In latest (timetable d) /\
    (forall r, In r (timetable d) -> start r <= start latest /\ end_ r <= end_ latest) /\
    (end_ latest < date_max ->
     Validator.get_time_range d =
       (Ok (end_ latest, end_ latest + 1),
        with_timetable d
          (timetable d ++ [mkTimetable (end_ latest) (end_ latest + 1) false])) /\
     in_continuity (timetable d ++ [mkTimetable (end_ latest) (end_ latest + 1) false])) /\
    (date_max <= end_ latest ->
     Validator.get_time_range d = (Raise OverflowError, d)).
Proof.
  intros Hc Hall.
  destruct (fetch_last_continuity d Hc) as (latest & El & Hl & Hpos & Hmax).
  assert (Einc : fetch_incompleted_time_range d = []).
  { unfold fetch_incompleted_time_range. apply filter_none.
    intros x Hx. rewrite (Hall x Hx). reflexivity. }
  exists latest. split; [exact Hl |]. split; [exact Hmax |]. split.
  - intros Hlt. split.
    + unfold Validator.get_time_range. rewrite Einc, El.
      replace (date_max <? end_ latest + 1) with false
        by (symmetry; apply Z.ltb_ge; lia).
      unfold add_timetable_entry.
      replace (existsb (fun r0 => start r0 =? end_ latest) (timetable d)) with false;
        [reflexivity |].
      symmetry. apply not_true_iff_false. intros Hex. apply existsb_start in Hex.
      apply in_map_iff in Hex as (r' & Er & Hr'). specialize (Hmax r' Hr'). lia.
    + destruct Hc as [(chain & Hperm & Hch) _]. split.
      * exists (chain ++ [mkTimetable (end_ latest) (end_ latest + 1) false]).
        split; [apply permutation_snoc; exact Hperm |].
        destruct chain as [| r0 chain']; [destruct Hch |].
        destruct (chained_latest r0 chain' Hch) as [Hin0 Hmax0].
        assert (Elast : last chain' r0 = latest).
        { apply (same_start_same_row (r0 :: chain')).
          - apply chained_starts. exact Hch.
          - exact Hin0.
          - apply (Permutation_in _ (Permutation_sym Hperm)). exact Hl.
          - destruct (Hmax0 latest) as [H1 _];
              [apply (Permutation_in _ (Permutation_sym Hperm)); exact Hl |].
            destruct (Hmax (last chain' r0)) as [H2 _];
              [apply (Permutation_in _ Hperm); exact Hin0 |].
            lia. }
        destruct Hch as [Hlt0 Hfrom]. cbn [app chained]. split; [exact Hlt0 |].
        rewrite <- Elast. apply chained_from_app; auto. lia.
      * unfold open_windows. rewrite filter_app. cbn [filter completed negb].
        unfold fetch_incompleted_time_range in Einc. rewrite Einc. cbn [app].
        repeat constructor.
  - intros Hge. unfold Validator.get_time_range. rewrite Einc, El.
    replace (date_max <? end_ latest + 1) with true by (symmetry; apply Z.ltb_lt; lia).
    reflexivity.
Qed.

Lemma get_time_range_keeps_continuity (d : t) :
  in_continuity (timetable d) ->
  in_continuity (timetable (snd (Validator.get_time_range d))).
Proof.
  intros Hc.
  destruct (fetch_incompleted_time_range d) as [| r rest] eqn:Einc.
  - assert (Hall : forall r, In r (timetable d) -> completed r = true).
    { intros r Hr. destruct (completed r) eqn:Cr; [reflexivity |]. exfalso.
      assert (Hin : In r (fetch_incompleted_time_range d)).
      { unfold fetch_incompleted_time_range. apply filter_In. rewrite Cr. auto. }
      rewrite Einc in Hin. destruct Hin. }
    destruct (get_time_range_creates d Hc Hall) as (latest & _ & _ & Hnew & Hover).
    destruct (Z.lt_ge_cases (end_ latest) date_max) as [Hlt | Hge].
    + destruct (Hnew Hlt) as [E Hc']. rewrite E. exact Hc'.
    + rewrite (Hover Hge). exact Hc.
  - unfold Validator.get_time_range. rewrite Einc. exact Hc.
Qed.

Lemma permutation_insert_at {A} (n : nat) (x : A) (l : list A) :
  Permutation (insert_at n x l) (x :: l).
Proof.
  revert n. induction l as [| y l IH]; intros [| n]; cbn [insert_at]; try reflexivity.
  rewrite (IH n). apply perm_swap.
Qed.

Lemma in_insert_at {A} (n : nat) (x y : A) (l : list A) :
  In y (insert_at n x l) <-> y = x \/ In y l.
Proof.
  split; intros H.
  - apply (Permutation_in _ (permutation_insert_at n x l)) in H.
    destruct H as [<- | H]; auto.
  - apply (Permutation_in _ (Permutation_sym (permutation_insert_at n x l))).
    destruct H as [-> | H]; [left; reflexivity | right; exact H].
Qed.

Lemma filter_insert_at_out {A} (f : A -> bool) (n : nat) (x : A) (l : list A) :
  f x = false -> filter f (insert_at n x l) = filter f l.
Proof.
  intros Hx. revert n. induction l as [| y l IH]; intros [| n]; cbn [insert_at filter];
    rewrite ?Hx; try reflexivity.
  rewrite IH. reflexivity.
Qed.

Lemma in_remove_first {A} (f : A -> bool) (l : list A) (x : A) :
  In x (remove_first f l) -> In x l.
Proof.
  induction l as [| y l IH]; cbn [remove_first]; [auto |].
  destruct (f y); [intros H; right; exact H |].
  intros [<- | H]; [left; reflexivity | right; apply IH; exact H].
Qed.

Lemma remove_first_keeps {A} (f : A -> bool) (l : list A) (x : A) :
  In x l -> f x = false -> In x (remove_first f l).
Proof.
  induction l as [| y l IH]; cbn [remove_first]; [auto |].
  intros [<- | H] Hx.
  - rewrite Hx. left. reflexivity.
  - destruct (f y); [exact H | right; apply IH; assumption].
Qed.

Lemma sorted_filter_remove_first {A} (R : A -> A -> Prop) (f g : A -> bool) (l : list A) :
  StronglySorted R (filter f l) -> StronglySorted R (filter f (remove_first g l)).
Proof.
  induction l as [| y l IH]; cbn [remove_first filter]; [auto |].
  destruct (g y).
  - destruct (f y); [| auto]. intros H. apply StronglySorted_inv in H as [H _]. exact H.
  - cbn [filter]. destruct (f y); [| exact IH].
    intros H. apply StronglySorted_inv in H as [Hs Hall]. constructor; [apply IH; exact Hs |].
    rewrite Forall_forall in *. intros x Hx. apply Hall.
    apply filter_In in Hx as [Hx Fx]. apply filter_In. split; [| exact Fx].
    apply (in_remove_first g). exact Hx.
Qed.

Lemma chained_from_completed_in (s e0 : Z) (rows : list Timetable) : forall e,
  chained_from e rows -> chained_from e (completed_in s e0 rows).
Proof.
  unfold completed_in. induction rows as [| r rows IH]; intros e H; [exact H |].
  cbn [chained_from] in H. destruct H as (Hs & Hlt & Hrest). cbn [map chained_from].
  destruct (matches_time_range s e0 r); cbn [start end_]; auto.
Qed.

Lemma chained_completed_in (s e : Z) (rows : list Timetable) :
  chained rows -> chained (completed_in s e rows).
Proof.
  destruct rows as [| r rows]; [auto |]. intros [Hlt H].
  pose proof (chained_from_completed_in s e rows _ H) as H'.
  unfold completed_in in *. cbn [map chained].
  destruct (matches_time_range s e r); cbn [start end_]; auto.
Qed.

(** With distinct starts, the update of the first match is the update of
    the only match. *)
Lemma completed_in_perm (s e : Z) (rows : list Timetable) (r : Timetable) :
  NoDup (map start rows) ->
  find (matches_time_range s e) rows = Some r ->
  Permutation (completed_in s e rows)
    (mkTimetable (start r) (end_ r) true :: remove_first (matches_time_range s e) rows).
Proof.
  unfold completed_in. induction rows as [| y rows IH]; intros Hnd Hf; [discriminate |].
  cbn [map] in Hnd. inversion Hnd as [| ? ? Hfresh Hnd']; subst.
  cbn [find remove_first map] in *.
  destruct (matches_time_range s e y) eqn:Ey.
  - injection Hf as <-. apply perm_skip.
    replace (map _ rows) with rows; [reflexivity |].
    rewrite <- (map_id rows) at 1. apply map_ext_in. intros x Hx.
    destruct (matches_time_range s e x) eqn:Ex; [| reflexivity].
    exfalso. apply Hfresh. unfold matches_time_range in *.
    apply andb_true_iff in Ey as [Ey _]. apply andb_true_iff in Ex as [Ex _].
    apply Z.eqb_eq in Ey, Ex. rewrite Ey, <- Ex. apply in_map. exact Hx.
  - rewrite (IH Hnd' Hf). apply perm_swap.
Qed.

Lemma mark_keeps_continuity (slot : nat) (s e : Z) (d : t) :
  in_continuity (timetable d) ->
  in_continuity (timetable (snd (mark_time_range_as_complete slot s e d))).
Proof.
  intros Hc. unfold mark_time_range_as_complete.
  destruct (find (matches_time_range s e) (timetable d)) as [r |] eqn:Ef; [| exact Hc].
  destruct (completed r); [exact Hc |]. cbn [snd with_timetable timetable].
  destruct (continuity_facts _ Hc) as (Hnd & _).
  destruct Hc as [(chain & Hperm & Hch) Hsorted]. split.
  - exists (completed_in s e chain). split; [| apply chained_completed_in; exact Hch].
    rewrite permutation_insert_at, <- (completed_in_perm s e _ r Hnd Ef).
    unfold completed_in. apply Permutation_map. exact Hperm.
  - unfold open_windows in *. rewrite filter_insert_at_out by reflexivity.
    apply sorted_filter_remove_first. exact Hsorted.
Qed.

Lemma run_calls_continuity (calls : list ledger_call) : forall d,
  in_continuity (timetable d) -> in_continuity (timetable (run_calls calls d)).
Proof.
  unfold run_calls. induction calls as [| c calls IH]; intros d Hc; [exact Hc |].
  cbn [fold_left]. apply IH. destruct c as [| slot s e]; cbn [run_call].
  - apply get_time_range_keeps_continuity. exact Hc.
  - apply mark_keeps_continuity. exact Hc.
Qed.

(** C3, as amended.  On a ledger in continuity, after any sequence of
    [get_time_range] and [mark_time_range_as_complete] calls, wherever the
    engine stores the rows it updates: the ledger is still in continuity
    and no two windows overlap; when a window is open, [get_time_range]
    returns the single oldest open window and changes nothing; when none
    is open and the latest window ends before [date.max], it appends
    exactly one window, open, which starts at the end of the latest window
    and lasts one day, and returns it; when the latest window ends at
    [date.max], the addition of one day raises [OverflowError] and nothing
    is stored. *)
Theorem get_time_range_window_continuity (d : t) (calls : list ledger_call) :
  in_continuity (timetable d) ->
  let d' := run_calls calls d in
  in_continuity (timetable d') /\
  disjoint_windows (timetable d') /\
  ((exists r0, In r0 (timetable d') /\ completed r0 = false) ->
   exists r,
     In r (timetable d') /\ completed r = false /\
     (forall r', In r' (timetable d') -> completed r' = false -> start r <= start r') /\
     Validator.get_time_range d' = (Ok (start r, end_ r), d')) /\
  ((forall r, In r (timetable d') -> completed r = true) ->
   exists latest,
     In latest (timetable d') /\
     (forall r, In r (timetable d') -> start r <= start latest /\ end_ r <= end_ latest) /\
     (end_ latest < date_max ->
      Validator.get_time_range d' =
        (Ok (end_ latest, end_ latest + 1),
         with_timetable d'
           (timetable d' ++ [mkTimetable (end_ latest) (end_ latest + 1) false]))) /\
     (date_max <= end_ latest ->
      Validator.get_time_range d' = (Raise OverflowError, d'))).
Proof.
  intros Hc d'. pose proof (run_calls_continuity calls d Hc) as Hc'. fold d' in Hc'.
  split; [exact Hc' |]. split; [apply continuity_disjoint; exact Hc' |].
  split; [apply get_time_range_oldest; exact Hc' |].
  intros Hall. destruct (get_time_range_creates d' Hc' Hall) as (latest & Hl & Hmax & Hnew & Hover).
  exists latest. split; [exact Hl |]. split; [exact Hmax |].
  split; [intros Hlt; apply (Hnew Hlt) | exact Hover].
Qed.

Lemma get_time_range_window_continuity_witness :
  exists r,
    In r [mkTimetable 738887 738888 false; mkTimetable 738888 738889 false;
          mkTimetable 738886 738887 true] /\
    completed r = false /\
    Validator.get_time_range
      (run_calls [MarkWindowComplete 2 738886 738887]
         (mkDB [mkTimetable 738886 738887 false; mkTimetable 738887 738888 false;
                mkTimetable 738888 738889 false] [] [])) =
      (Ok (start r, end_ r),
       mkDB [mkTimetable 738887 738888 false; mkTimetable 738888 738889 false;
             mkTimetable 738886 738887 true] [] []).
Proof.
  destruct (get_time_range_window_continuity
              (mkDB [mkTimetable 738886 738887 false; mkTimetable 738887 738888 false;
                     mkTimetable 738888 738889 false] [] [])
              [MarkWindowComplete 2 738886 738887])
    as (_ & _ & Hopen & _).
  - split.
    + eexists. split; [apply Permutation_refl |]. cbn. repeat split; lia.
    + cbn. repeat constructor; cbn; lia.
  - destruct Hopen as (r & Hr & Hc & _ & E).
    + exists (mkTimetable 738887 738888 false). split; [left; reflexivity | reflexivity].
    + exists r. split; [exact Hr |]. split; [exact Hc | exact E].
Defined.

(** C3, as stated, fails: on a ledger whose only window is completed and
    ends at [date.max], no window is open, yet [get_time_range] creates
    none: adding one day to the end of the latest window raises
    [OverflowError], and the timetable is left as it was. *)
Lemma get_time_range_overflows_at_date_max :
  in_continuity [mkTimetable (date_max - 1) date_max true] /\
  fetch_incompleted_time_range (mkDB [mkTimetable (date_max - 1) date_max true] [] []) = [] /\
  Validator.get_time_range (mkDB [mkTimetable (date_max - 1) date_max true] [] []) =
    (Raise OverflowError, mkDB [mkTimetable (date_max - 1) date_max true] [] []).
Proof.
  split; [| split; reflexivity]. split.
  - eexists. split; [apply Permutation_refl |]. cbn. split; [reflexivity | exact I].
  - cbn. constructor.
Qed.

(** C9.  On an empty timetable there is no incomplete window and no last
    window: [get_time_range] raises [TypeError] when it reads the end of
    the missing previous window, and adds no window; a round started on
    such a ledger ends with that exception.  So [get_time_range] returns
    only when the timetable already holds a window. *)
Theorem get_time_range_needs_a_window :
  (forall d,
      timetable d = [] ->
      fetch_incompleted_time_range d = [] /\
      fetch_last_time_range d = None /\
      Validator.get_time_range d = (Raise TypeError, d)) /\
  (forall d res d', Validator.get_time_range d = (Ok res, d') -> timetable d <> []) /\
  (forall e w,
      existsb (String.eqb (Validator.val_ss58 e))
        (dict_values (Validator.query_map_key e)) = true ->
      timetable (Validator.db w) = [] ->
      Validator.validate_step e w = (Raise TypeError, w)).
Proof.
  assert (Hempty : forall d, timetable d = [] ->
            fetch_incompleted_time_range d = [] /\
            fetch_last_time_range d = None /\
            Validator.get_time_range d = (Raise TypeError, d)).
  { intros d E.
    assert (E1 : fetch_incompleted_time_range d = [])
      by (unfold fetch_incompleted_time_range; rewrite E; reflexivity).
    assert (E2 : fetch_last_time_range d = None)
      by (unfold fetch_last_time_range; rewrite E; reflexivity).
    split; [exact E1 |]. split; [exact E2 |].
    unfold Validator.get_time_range. rewrite E1, E2. reflexivity. }
  split; [exact Hempty |]. split.
  - intros d res d' Hok Hnil. destruct (Hempty d Hnil) as (_ & _ & Hraise).
    rewrite Hraise in Hok. discriminate Hok.
  - intros e w Hreg Hnil. unfold Validator.validate_step. rewrite Hreg. cbn [negb].
    unfold Validator.bind, Validator.get_miner_prompt.
    destruct (Hempty _ Hnil) as (_ & _ & Hraise). rewrite Hraise.
    destruct w; reflexivity.
Qed.

Lemma get_time_range_needs_a_window_witness :
  Validator.get_time_range (mkDB [] [] []) = (Raise TypeError, mkDB [] [] []).
Proof.
  apply (proj1 get_time_range_needs_a_window (mkDB [] [] [])). reflexivity.
Defined.

End Windows.

(** ** Completion of windows and token pairs *)

Section Completion.

Import DBManager DBManagerQueries LedgerSpec LedgerFacts.

Lemma window_eqb_eq (k k' : Z * Z) : window_eqb k k' = true <-> k = k'.
Proof.
  destruct k as [s e], k' as [s' e']. unfold window_eqb. cbn [fst snd].
  rewrite andb_true_iff, !Z.eqb_eq. split; [intros [-> ->]; reflexivity |].
  intros H. injection H. auto.
Qed.

Lemma table_rows_set (k : Z * Z) (rows : list TokenPair) tables :
  table_rows k (set_table_rows k rows tables) = Some rows.
Proof.
  induction tables as [| [k' rows'] tables IH]; cbn [set_table_rows table_rows].
  - replace (window_eqb k k) with true by (symmetry; apply window_eqb_eq; reflexivity).
    reflexivity.
  - destruct (window_eqb k k') eqn:E; cbn [table_rows].
    + replace (window_eqb k k) with true by (symmetry; apply window_eqb_eq; reflexivity).
      reflexivity.
    + rewrite E. exact IH.
Qed.

Lemma set_table_rows_same (k : Z * Z) (rows : list TokenPair) tables :
  table_rows k tables = Some rows -> set_table_rows k rows tables = tables.
Proof.
  induction tables as [| [k' rows'] tables IH]; cbn [set_table_rows table_rows];
    [discriminate |].
  destruct (window_eqb k k') eqn:E.
  - apply window_eqb_eq in E. subst k'. intros H. injection H as ->. reflexivity.
  - intros H. rewrite IH by exact H. reflexivity.
Qed.

Lemma table_rows_app_fresh (k : Z * Z) tables :
  table_rows k tables = None -> table_rows k (tables ++ [(k, [])]) = Some [].
Proof.
  induction tables as [| [k' rows'] tables IH]; cbn [app table_rows].
  - replace (window_eqb k k) with true by (symmetry; apply window_eqb_eq; reflexivity).
    reflexivity.
  - destruct (window_eqb k k'); [discriminate | exact IH].
Qed.

Lemma with_token_pairs_same (d : t) : with_token_pairs d (token_pairs d) = d.
Proof. destruct d; reflexivity. Qed.

Lemma ensure_spec (s e : Z) (d : t) :
  table_rows (s, e) (token_pairs (ensure_token_pairs_table s e d)) = Some (window_rows s e d) /\
  timetable (ensure_token_pairs_table s e d) = timetable d /\
  pool_data (ensure_token_pairs_table s e d) = pool_data d.
Proof.
  unfold ensure_token_pairs_table, window_rows.
  destruct (table_rows (s, e) (token_pairs d)) as [rows |] eqn:E.
  - rewrite E. auto.
  - cbn [with_token_pairs token_pairs timetable pool_data].
    rewrite table_rows_app_fresh by exact E. auto.
Qed.

Lemma ensure_idem (s e : Z) (d : t) :
  table_rows (s, e) (token_pairs d) <> None -> ensure_token_pairs_table s e d = d.
Proof.
  unfold ensure_token_pairs_table. destruct (table_rows (s, e) (token_pairs d)); congruence.
Qed.

Lemma complete_pair_idem (a b : string) (f : Z) (r : TokenPair) :
  complete_pair a b f (complete_pair a b f r) = complete_pair a b f r.
Proof.
  unfold complete_pair. destruct (matches_token_pair a b f r) eqn:E.
  - unfold matches_token_pair in *. cbn [token_a token_b fee]. rewrite E. reflexivity.
  - rewrite E. reflexivity.
Qed.

Lemma complete_pair_matches (a b : string) (f : Z) (r : TokenPair) :
  matches_token_pair a b f (complete_pair a b f r) = matches_token_pair a b f r.
Proof.
  unfold complete_pair. destruct (matches_token_pair a b f r) eqn:E; [| exact E].
  unfold matches_token_pair in *. cbn [token_a token_b fee]. exact E.
Qed.

Lemma find_map_complete (a b : string) (f : Z) (rows : list TokenPair) :
  find (matches_token_pair a b f) (map (complete_pair a b f) rows) =
    option_map (complete_pair a b f) (find (matches_token_pair a b f) rows).
Proof.
  induction rows as [| r rows IH]; cbn [map find]; [reflexivity |].
  rewrite complete_pair_matches. destruct (matches_token_pair a b f r); [reflexivity | exact IH].
Qed.

(** What [mark_token_pair_as_complete] computes, in terms of the rows of
    the window. *)
Lemma mark_token_pair_unfold (autocommit : bool) (slots : nat -> nat)
  (s e : Z) (a b : string) (f : Z) (d : t) :
  mark_token_pair_as_complete autocommit slots s e a b f d =
    let d1 := ensure_token_pairs_table s e d in
    match find (matches_token_pair a b f) (window_rows s e d) with
    | Some _ =>
        (true,
         if autocommit
         then with_token_pairs d1
                (set_table_rows (s, e) (rewritten slots a b f (window_rows s e d))
                   (token_pairs d1))
         else d1)
    | None => (false, d1)
    end.
Proof.
  unfold mark_token_pair_as_complete.
  destruct (ensure_spec s e d) as (E & _ & _). rewrite E. reflexivity.
Qed.

Lemma window_rows_ensure (s e : Z) (d : t) :
  window_rows s e (ensure_token_pairs_table s e d) = window_rows s e d.
Proof.
  unfold window_rows at 1. destruct (ensure_spec s e d) as (E & _ & _). rewrite E. reflexivity.
Qed.

Lemma ensure_ensure (s e : Z) (d : t) :
  ensure_token_pairs_table s e (ensure_token_pairs_table s e d) =
    ensure_token_pairs_table s e d.
Proof.
  apply ensure_idem. destruct (ensure_spec s e d) as (E & _ & _). rewrite E. discriminate.
Qed.

Lemma find_matches_some (s e : Z) (rows : list Timetable) :
  (exists r, In r rows /\ matches_time_range s e r = true) <->
  find (matches_time_range s e) rows <> None.
Proof.
  split.
  - intros (r & Hin & Hm) E. exact (eq_true_false_abs _ Hm (find_none _ _ E r Hin)).
  - destruct (find (matches_time_range s e) rows) as [r |] eqn:E; [| congruence].
    intros _. apply find_some in E. exists r. exact E.
Qed.

(** With distinct starts, the first row of a window is its only row. *)
Lemma remove_first_no_match (s e : Z) (rows : list Timetable) (r : Timetable) :
  NoDup (map start rows) ->
  find (matches_time_range s e) rows = Some r ->
  forall x, In x (remove_first (matches_time_range s e) rows) -> start x <> s.
Proof.
  induction rows as [| y rows IH]; intros Hnd Hf x Hx; [discriminate |].
  cbn [map] in Hnd. inversion Hnd as [| ? ? Hfresh Hnd']; subst.
  cbn [find remove_first] in *. destruct (matches_time_range s e y) eqn:Ey.
  - intros E. apply Hfresh. unfold matches_time_range in Ey.
    apply andb_true_iff in Ey as [Ey _]. apply Z.eqb_eq in Ey.
    rewrite Ey, <- E. apply in_map. exact Hx.
  - destruct Hx as [<- | Hx]; [| apply (IH Hnd' Hf x Hx)].
    intros E. apply Hfresh. apply find_some in Hf as [Hr Hm].
    unfold matches_time_range in Hm. apply andb_true_iff in Hm as [Hm _].
    apply Z.eqb_eq in Hm. rewrite E, <- Hm. apply in_map. exact Hr.
Qed.

(** The outcome of [mark_time_range_as_complete], on a timetable with
    distinct starts. *)
Lemma mark_time_range_spec (slot : nat) (s e : Z) (d : t) :
  pk_unique d ->
  let res := mark_time_range_as_complete slot s e d in
  ((forall r, In r (timetable d) -> matches_time_range s e r = false) -> res = (false, d)) /\
  ((exists r, In r (timetable d) /\ matches_time_range s e r = true) ->
   fst res = true /\
   In (mkTimetable s e true) (timetable (snd res)) /\
   forall r', In r' (timetable (snd res)) -> start r' = s -> r' = mkTimetable s e true) /\
  forall slot', mark_time_range_as_complete slot' s e (snd res) = (fst res, snd res).
Proof.
  intros Hpk. cbv zeta. unfold pk_unique in Hpk.
  assert (Hagain : forall d0 r0,
             find (matches_time_range s e) (timetable d0) = Some r0 ->
             completed r0 = true ->
             forall slot', mark_time_range_as_complete slot' s e d0 = (true, d0)).
  { intros d0 r0 E0 C0 slot'. unfold mark_time_range_as_complete. rewrite E0, C0.
    reflexivity. }
  destruct (find (matches_time_range s e) (timetable d)) as [r0 |] eqn:E.
  - pose proof (find_some _ _ E) as [Hin0 Hm0].
    assert (Er0 : start r0 = s /\ end_ r0 = e).
    { unfold matches_time_range in Hm0. apply andb_true_iff in Hm0.
      rewrite !Z.eqb_eq in Hm0. exact Hm0. }
    destruct Er0 as [Es Ee].
    destruct (completed r0) eqn:C0.
    + rewrite (Hagain d r0 E C0 slot). cbn [fst snd].
      split; [intros Hnone; rewrite (Hnone r0 Hin0) in Hm0; discriminate |].
      split; [| exact (Hagain d r0 E C0)].
      intros _. split; [reflexivity |].
      assert (Er : r0 = mkTimetable s e true) by (destruct r0; cbn in *; congruence).
      split; [rewrite <- Er; exact Hin0 |].
      intros r' Hr' Hs'. rewrite <- Er.
      apply (same_start_same_row (timetable d)); try assumption. congruence.
    + set (rows' := insert_at slot (mkTimetable (start r0) (end_ r0) true)
                      (remove_first (matches_time_range s e) (timetable d))).
      assert (Hv : mark_time_range_as_complete slot s e d = (true, with_timetable d rows')).
      { unfold mark_time_range_as_complete. rewrite E, C0. reflexivity. }
      rewrite Hv. cbn [fst snd].
      assert (Hnew : In (mkTimetable s e true) rows').
      { unfold rows'. apply in_insert_at. left. rewrite Es, Ee. reflexivity. }
      assert (Honly : forall r', In r' rows' -> start r' = s -> r' = mkTimetable s e true).
      { intros r' Hr' Hs'. unfold rows' in Hr'. apply in_insert_at in Hr' as [-> | Hr'].
        - rewrite Es, Ee. reflexivity.
        - exfalso. exact (remove_first_no_match s e _ r0 Hpk E r' Hr' Hs'). }
      split; [intros Hnone; rewrite (Hnone r0 Hin0) in Hm0; discriminate |].
      split; [intros _; split; [reflexivity |]; split; assumption |].
      destruct (find (matches_time_range s e) rows') as [r1 |] eqn:E1.
      * apply (Hagain (with_timetable d rows') r1 E1).
        apply find_some in E1 as [Hr1 Hm1]. unfold matches_time_range in Hm1.
        apply andb_true_iff in Hm1 as [Hm1 _]. apply Z.eqb_eq in Hm1.
        rewrite (Honly r1 Hr1 Hm1). reflexivity.
      * exfalso. pose proof (find_none _ _ E1 _ Hnew) as Hf.
        unfold matches_time_range in Hf. cbn [start end_] in Hf.
        rewrite !Z.eqb_refl in Hf. discriminate.
  - assert (Hv : forall slot', mark_time_range_as_complete slot' s e d = (false, d)).
    { intros slot'. unfold mark_time_range_as_complete. rewrite E. reflexivity. }
    rewrite Hv. cbn [fst snd]. split; [reflexivity |]. split; [| exact Hv].
    intros (r & Hin & Hm). apply (find_none _ _ E) in Hin. congruence.
Qed.

Lemma permutation_store_versions {A} (slots : nat -> nat) (versions : list A) :
  forall k table, Permutation (store_versions slots k versions table) (versions ++ table).
Proof.
  induction versions as [| v versions IH]; intros k table; cbn [store_versions app];
    [reflexivity |].
  rewrite IH, permutation_insert_at. symmetry. apply Permutation_middle.
Qed.

Lemma filter_store_versions_out {A} (f : A -> bool) (slots : nat -> nat)
  (versions : list A) : forall k table,
  (forall v, In v versions -> f v = false) ->
  filter f (store_versions slots k versions table) = filter f table.
Proof.
  induction versions as [| v versions IH]; intros k table H; cbn [store_versions];
    [reflexivity |].
  rewrite IH by (intros x Hx; apply H; right; exact Hx).
  apply filter_insert_at_out. apply H. left. reflexivity.
Qed.

Lemma permutation_filter_split {A} (f : A -> bool) (l : list A) :
  Permutation (filter f l ++ filter (fun x => negb (f x)) l) l.
Proof.
  induction l as [| y l IH]; cbn [filter]; [reflexivity |].
  destruct (f y); cbn [negb app].
  - apply perm_skip. exact IH.
  - rewrite <- Permutation_middle. apply perm_skip. exact IH.
Qed.

(** The rewritten table holds the rows of the table, the rows of the pair
    with their flag set, in some order. *)
Lemma rewritten_perm (slots : nat -> nat) (a b : string) (f : Z) (rows : list TokenPair) :
  Permutation (rewritten slots a b f rows) (map (complete_pair a b f) rows).
Proof.
  unfold rewritten. rewrite permutation_store_versions.
  rewrite <- (Permutation_map (complete_pair a b f)
                (permutation_filter_split (matches_token_pair a b f) rows)).
  rewrite map_app. apply Permutation_app.
  - apply Permutation_refl'. apply map_ext_in. intros r Hr.
    apply filter_In in Hr as [_ Hm]. unfold complete_pair. rewrite Hm. reflexivity.
  - apply Permutation_refl'.
    transitivity (map (fun r => r) (filter (fun r => negb (matches_token_pair a b f r)) rows));
      [symmetry; apply map_id |].
    apply map_ext_in. intros r Hr. apply filter_In in Hr as [_ Hm].
    apply negb_true_iff in Hm. unfold complete_pair. rewrite Hm. reflexivity.
Qed.

Lemma filter_comm {A} (f g : A -> bool) (l : list A) :
  filter f (filter g l) = filter g (filter f l).
Proof.
  induction l as [| y l IH]; cbn [filter]; [reflexivity |].
  destruct (f y) eqn:Fy, (g y) eqn:Gy; cbn [filter]; rewrite ?Fy, ?Gy, IH; reflexivity.
Qed.

(** The rows still open in the rewritten table: the open rows of the
    other pairs, in their order. *)
Lemma rewritten_open (slots : nat -> nat) (a b : string) (f : Z) (rows : list TokenPair) :
  filter (fun r => negb (pair_completed r)) (rewritten slots a b f rows) =
    filter (fun r => negb (matches_token_pair a b f r))
      (filter (fun r => negb (pair_completed r)) rows).
Proof.
  unfold rewritten. rewrite filter_store_versions_out.
  - apply filter_comm.
  - intros v Hv. apply in_map_iff in Hv as (r & <- & _). reflexivity.
Qed.

Lemma filter_all {A} (f : A -> bool) (l : list A) :
  (forall x, In x l -> f x = true) -> filter f l = l.
Proof.
  induction l as [| x l IH]; intros H; cbn [filter]; [reflexivity |].
  rewrite (H x (or_introl eq_refl)), IH; [reflexivity |].
  intros y Hy. apply H. right. exact Hy.
Qed.

(** A table without a row of the pair is rewritten to itself. *)
Lemma rewritten_none (slots : nat -> nat) (a b : string) (f : Z) (rows : list TokenPair) :
  find (matches_token_pair a b f) rows = None -> rewritten slots a b f rows = rows.
Proof.
  intros E. unfold rewritten.
  rewrite (filter_none (matches_token_pair a b f) rows) by exact (find_none _ _ E).
  cbn [map store_versions]. apply filter_all.
  intros x Hx. rewrite (find_none _ _ E x Hx). reflexivity.
Qed.

Lemma window_rows_after_mark (autocommit : bool) (slots : nat -> nat)
  (s e : Z) (a b : string) (f : Z) (d : t) :
  window_rows s e (snd (mark_token_pair_as_complete autocommit slots s e a b f d)) =
    if autocommit then rewritten slots a b f (window_rows s e d)
    else window_rows s e d.
Proof.
  rewrite mark_token_pair_unfold. cbv zeta.
  destruct (find (matches_token_pair a b f) (window_rows s e d)) eqn:E; cbn [snd].
  - destruct autocommit; [| apply window_rows_ensure].
    unfold window_rows at 1. cbn [with_token_pairs token_pairs].
    rewrite table_rows_set. reflexivity.
  - rewrite window_rows_ensure. destruct autocommit; [| reflexivity].
    symmetry. apply rewritten_none. exact E.
Qed.

(** C4.  The claim fails for [mark_token_pair_as_complete], by a slip of
    the code: the method reports [True] for a pair of the table but never
    commits its [UPDATE], unlike [mark_time_range_as_complete] and the
    other writers.  Under an engine that does not commit by itself the
    statement is rolled back when the connection is closed: the rows of
    the table are what they were, and the pair is still returned by
    [fetch_incompleted_token_pairs]. *)
Theorem mark_token_pair_flag_not_stored (slots : nat -> nat)
  (s e : Z) (a b : string) (f : Z) (d : t) :
  (exists r, In r (window_rows s e d) /\
             matches_token_pair a b f r = true /\ pair_completed r = false) ->
  let res := mark_token_pair_as_complete false slots s e a b f d in
  fst res = true /\
  window_rows s e (snd res) = window_rows s e d /\
  exists r, In r (fst (fetch_incompleted_token_pairs s e (snd res))) /\
            matches_token_pair a b f r = true /\ pair_completed r = false.
Proof.
  intros (r & Hr & Hm & Hc). cbv zeta.
  assert (Hrows : window_rows s e
                    (snd (mark_token_pair_as_complete false slots s e a b f d)) =
                  window_rows s e d)
    by (rewrite window_rows_after_mark; reflexivity).
  split; [| split; [exact Hrows |]].
  - rewrite mark_token_pair_unfold. cbv zeta.
    destruct (find (matches_token_pair a b f) (window_rows s e d)) eqn:E; [reflexivity |].
    rewrite (find_none _ _ E r Hr) in Hm. discriminate.
  - exists r. unfold fetch_incompleted_token_pairs. cbn [fst].
    rewrite (proj1 (ensure_spec s e _)), Hrows.
    split; [| split; assumption]. apply filter_In. rewrite Hc. auto.
Qed.

Lemma mark_token_pair_flag_not_stored_witness :
  fst (mark_token_pair_as_complete false (fun _ => 1%nat) 738886 738887 "T0" "T1" 3000
         (mkDB [mkTimetable 738886 738887 false]
            [((738886, 738887), [mkTokenPair "T0" "T1" 3000 false])] [])) = true /\
  fst (fetch_incompleted_token_pairs 738886 738887
         (snd (mark_token_pair_as_complete false (fun _ => 1%nat) 738886 738887 "T0" "T1" 3000
                 (mkDB [mkTimetable 738886 738887 false]
                    [((738886, 738887), [mkTokenPair "T0" "T1" 3000 false])] [])))) =
    [mkTokenPair "T0" "T1" 3000 false].
Proof.
  destruct (mark_token_pair_flag_not_stored (fun _ => 1%nat) 738886 738887
              "T0" "T1" 3000
              (mkDB [mkTimetable 738886 738887 false]
                 [((738886, 738887), [mkTokenPair "T0" "T1" 3000 false])] []))
    as (Ht & _ & _).
  - exists (mkTokenPair "T0" "T1" 3000 false). split; [left; reflexivity |].
    split; reflexivity.
  - split; [exact Ht | reflexivity].
Defined.

(** [mark_time_range_as_complete] is idempotent: on a timetable with
    distinct starts it returns [False] and changes nothing when no row has
    the given start and end; otherwise it returns [True] and the window is
    stored completed, as the only row with that start; and a second call
    with the same key, wherever the engine stored the updated row, returns
    what the first returned and leaves the database exactly as the first
    call left it. *)
Theorem mark_time_range_idempotent (slot : nat) (s e : Z) (d : t) :
  pk_unique d ->
  let res := mark_time_range_as_complete slot s e d in
  ((forall r, In r (timetable d) -> matches_time_range s e r = false) -> res = (false, d)) /\
  ((exists r, In r (timetable d) /\ matches_time_range s e r = true) ->
   fst res = true /\
   In (mkTimetable s e true) (timetable (snd res)) /\
   forall r', In r' (timetable (snd res)) -> start r' = s -> r' = mkTimetable s e true) /\
  forall slot', mark_time_range_as_complete slot' s e (snd res) = (fst res, snd res).
Proof.
  intros Hpk. cbv zeta.
  destruct (mark_time_range_spec slot s e d Hpk) as (H1 & H2 & H3).
  split; [exact H1 |]. split; [exact H2 | exact H3].
Qed.

Lemma mark_time_range_idempotent_witness :
  mark_time_range_as_complete 0 738886 738887
    (snd (mark_time_range_as_complete 5 738886 738887
            (mkDB [mkTimetable 738886 738887 false; mkTimetable 738887 738888 false] [] []))) =
  (true, mkDB [mkTimetable 738887 738888 false; mkTimetable 738886 738887 true] [] []).
Proof.
  refine (proj2 (proj2 (mark_time_range_idempotent 5 738886 738887
                          (mkDB [mkTimetable 738886 738887 false;
                                 mkTimetable 738887 738888 false] [] []) _)) 0%nat).
  unfold pk_unique. cbn [timetable map start].
  repeat constructor; cbn [In]; intros H; repeat destruct H as [H | H]; try discriminate H;
    exact H.
Defined.

End Completion.

(** ** Consensus on the fingerprint *)

Section Consensus.

Import Validator RoundSpec.

Lemma set_iter_reversed_order : set_order set_iter_reversed.
Proof.
  intros xs. unfold set_iter_reversed. split.
  - apply NoDup_rev, NoDup_nodup.
  - intros x. rewrite <- in_rev. apply nodup_In.
Qed.

Lemma max_from_spec (key : string -> nat) (rest : list string) : forall best,
  exists pre post,
    best :: rest = pre ++ max_from key best rest :: post /\
    (forall x, In x pre -> (key x < key (max_from key best rest))%nat) /\
    (forall x, In x (best :: rest) -> (key x <= key (max_from key best rest))%nat).
Proof.
  induction rest as [| y rest IH]; intros best; cbn [max_from].
  - exists [], []. split; [reflexivity |]. split; [intros x [] |].
    intros x [<- | []]. lia.
  - destruct (Nat.ltb_spec (key best) (key y)) as [Hlt | Hge].
    + destruct (IH y) as (pre & post & E & Hpre & Hmax).
      set (m := max_from key y rest) in *.
      exists (best :: pre), post. split; [cbn [app]; rewrite E; reflexivity |].
      assert (Hy : (key y <= key m)%nat) by (apply Hmax; left; reflexivity).
      split.
      * intros x [<- | Hx]; [lia | apply Hpre; exact Hx].
      * intros x [<- | Hx]; [lia | apply Hmax; exact Hx].
    + destruct (IH best) as (pre & post & E & Hpre & Hmax).
      set (m := max_from key best rest) in *.
      assert (Hb : (key best <= key m)%nat) by (apply Hmax; left; reflexivity).
      destruct pre as [| p pre]; cbn [app] in E.
      * injection E as Eb Er. exists [], (y :: post).
        split; [cbn [app]; rewrite <- Eb, Er; reflexivity |].
        split; [intros x [] |].
        intros x [<- | [<- | Hx]]; [lia | lia | apply Hmax; right; exact Hx].
      * injection E as Eb Er. subst p. exists (best :: y :: pre), post.
        split; [cbn [app]; rewrite Er; reflexivity |].
        assert (Hbm : (key best < key m)%nat) by (apply Hpre; left; reflexivity).
        split.
        -- intros x [<- | [<- | Hx]]; [exact Hbm | lia | apply Hpre; right; exact Hx].
        -- intros x [<- | [<- | Hx]]; [lia | lia | apply Hmax; right; exact Hx].
Qed.

Lemma rmapM_fingerprints (answers : list (option miner_answer)) (hashes : list string) :
  Forall2 has_fingerprint answers hashes ->
  rmapM subscript_overall_hash answers = Ok hashes.
Proof.
  induction 1 as [| a h answers hashes (d & -> & Eh) _ IH]; cbn [rmapM]; [reflexivity |].
  unfold subscript_overall_hash at 1. rewrite Eh. cbn [rbind]. rewrite IH. reflexivity.
Qed.

Lemma count_not_in (xs : list string) (h : string) : ~ In h xs -> count xs h = 0%nat.
Proof. unfold count. apply count_occ_not_In. Qed.

(** C1, as amended.  When every collected answer carries a fingerprint and
    there is at least one answer, the consensus step returns a fingerprint
    of the answers that no other value outnumbers; among the fingerprints
    with that highest count it is the one that comes first in the
    iteration order of the set of fingerprints: every fingerprint iterated
    before it has a strictly smaller count. *)
Theorem consensus_most_frequent (iter : list string -> list string)
  (answers : list (option miner_answer)) (hashes : list string) :
  set_order iter -> answers <> [] -> Forall2 has_fingerprint answers hashes ->
  exists h pre post,
    consensus iter answers = Ok h /\
    In h hashes /\
    (forall h', (count hashes h' <= count hashes h)%nat) /\
    iter hashes = pre ++ h :: post /\
    (forall h', In h' pre -> (count hashes h' < count hashes h)%nat).
Proof.
  intros Hord Hne Hfp.
  unfold consensus. rewrite (rmapM_fingerprints _ _ Hfp). cbn [rbind].
  unfold most_common_hash, py_max.
  destruct (Hord hashes) as [Hnd Hin].
  destruct (iter hashes) as [| x rest] eqn:Ei.
  - exfalso. destruct Hfp as [| a h0 answers hashes Ha _]; [congruence |].
    apply (Hin h0). left. reflexivity.
  - destruct (max_from_spec (count hashes) rest x) as (pre & post & E & Hpre & Hmax).
    exists (max_from (count hashes) x rest), pre, post.
    split; [reflexivity |].
    assert (Hm : In (max_from (count hashes) x rest) (x :: rest))
      by (rewrite E; apply in_or_app; right; left; reflexivity).
    split; [apply Hin; exact Hm |]. split; [| split; [exact E | exact Hpre]].
    intros h'. destruct (in_dec string_dec h' hashes) as [Hh | Hh].
    + apply Hmax. apply Hin. exact Hh.
    + rewrite (count_not_in _ _ Hh). lia.
Qed.

Lemma consensus_most_frequent_witness :
  exists h,
    consensus set_iter_reversed
      [Some (mkAnswer (Some "A"%string) None false); Some (mkAnswer (Some "A"%string) None false);
       Some (mkAnswer (Some "B"%string) None false); Some (mkAnswer (Some "A"%string) None false);
       Some (mkAnswer (Some "B"%string) None false)] = Ok h /\
    In h ["A"%string; "A"%string; "B"%string; "A"%string; "B"%string].
Proof.
  destruct (consensus_most_frequent set_iter_reversed
              [Some (mkAnswer (Some "A"%string) None false); Some (mkAnswer (Some "A"%string) None false);
               Some (mkAnswer (Some "B"%string) None false); Some (mkAnswer (Some "A"%string) None false);
               Some (mkAnswer (Some "B"%string) None false)]
              ["A"%string; "A"%string; "B"%string; "A"%string; "B"%string])
    as (h & _ & _ & E & Hin & _).
  - exact set_iter_reversed_order.
  - discriminate.
  - repeat constructor; eexists; split; reflexivity.
  - exists h. split; [exact E | exact Hin].
Defined.

(** C1, as stated, fails: on the fingerprints [A, B], tied with one answer
    each, an admissible set iteration order that starts with [B] makes the
    consensus step accept [B], although [A] was collected first. *)
Lemma consensus_tie_not_first_seen :
  set_order set_iter_reversed /\
  consensus set_iter_reversed
    [Some (mkAnswer (Some "A"%string) None false); Some (mkAnswer (Some "B"%string) None false)] = Ok "B"%string /\
  count ["A"%string; "B"%string] "A"%string = count ["A"%string; "B"%string] "B"%string /\
  nth_error ["A"%string; "B"%string] 0 = Some "A"%string.
Proof.
  split; [exact set_iter_reversed_order |].
  split; [vm_compute; reflexivity |].
  split; reflexivity.
Qed.

(** C2 fails on the code: a [None] among the collected answers makes the
    comprehension that reads [overall_hash] raise, so the round ends with
    an exception before any consensus, verification or vote.  With three
    null answers among eight the exception is [TypeError]. *)
Theorem null_answer_aborts_round :
  (forall iter answers,
      In None answers ->
      consensus iter answers = Raise TypeError \/ consensus iter answers = Raise KeyError) /\
  (forall e modules_info prompt w,
      In None (map (miner_call e prompt) (dict_values modules_info)) ->
      validate_step_with_prompt e modules_info prompt w = (Raise TypeError, w) \/
      validate_step_with_prompt e modules_info prompt w = (Raise KeyError, w)) /\
  (forall iter,
      let a := Some (mkAnswer (Some "A"%string) (Some [mkBlock (Some 5) (Some "h"%string)])
                          false) in
      consensus iter [a; a; None; a; None; a; None; a] = Raise TypeError).
Proof.
  assert (H : forall iter answers, In None answers ->
            consensus iter answers = Raise TypeError \/
            consensus iter answers = Raise KeyError).
  { intros iter answers. unfold consensus.
    induction answers as [| a answers IH]; intros Hin; [contradiction |].
    cbn [rmapM]. destruct Hin as [-> | Hin]; [left; reflexivity |].
    destruct a as [d |]; [| left; reflexivity].
    cbn [subscript_overall_hash]. destruct (overall_hash d); cbn [rbind];
      [| right; reflexivity].
    specialize (IH Hin).
    destruct (rmapM subscript_overall_hash answers) as [hs | ex]; cbn [rbind] in *.
    - destruct IH as [IH | IH]; exfalso; revert IH; unfold most_common_hash, py_max;
        destruct (iter hs); discriminate.
    - exact IH. }
  split; [exact H |]. split.
  - intros e modules_info prompt w Hin. unfold validate_step_with_prompt, bind, lift.
    destruct (H (set_iter e) _ Hin) as [-> | ->]; auto.
  - intros iter a. reflexivity.
Qed.

Lemma null_answer_aborts_round_witness :
  consensus set_iter_reversed [None; Some (mkAnswer (Some "A"%string) None false)] = Raise TypeError \/
  consensus set_iter_reversed [None; Some (mkAnswer (Some "A"%string) None false)] = Raise KeyError.
Proof.
  apply (proj1 null_answer_aborts_round). left. reflexivity.
Defined.

End Consensus.

(** ** Verification of the accepted answer and the end of a round *)

Section Round.

Import Validator RoundSpec.

Lemma after_draws_0 (w : world) : after_draws w 0 = w.
Proof. destruct w. unfold after_draws. cbn [db votes draws]. rewrite Nat.add_0_r. reflexivity. Qed.

Lemma after_draws_S (w : world) (n : nat) :
  after_draws (after_draws w 1) n = after_draws w (S n).
Proof.
  unfold after_draws. cbn [db votes draws]. f_equal. lia.
Qed.

Lemma in_range_test (lo hi bn : Z) :
  lo <= bn <= hi -> (bn <? lo) || (bn >? hi) = false.
Proof.
  intros H. rewrite Z.gtb_ltb. apply orb_false_iff. rewrite !Z.ltb_ge. lia.
Qed.

Lemma out_of_range_test (lo hi bn : Z) :
  bn < lo \/ hi < bn -> (bn <? lo) || (bn >? hi) = true.
Proof.
  intros H. rewrite Z.gtb_ltb. apply orb_true_iff. rewrite !Z.ltb_lt. lia.
Qed.

Lemma check_samples_step_pass (e : env) (n : nat) (lo hi : Z)
  (x : block_data) (l : list block_data) (w : world) :
  record_passes e lo hi (sample e x l (draws w)) ->
  check_samples e (S n) lo hi (Some (x :: l)) w =
    check_samples e n lo hi (Some (x :: l)) (after_draws w 1).
Proof.
  intros (bn & h & Eb & Hr & Eh & Ef). unfold sample in *.
  cbn [check_samples]. unfold bind at 1. cbn [random_choice].
  rewrite Eb.
  rewrite (in_range_test _ _ _ Hr).
  rewrite Eh. replace (String.eqb (fetch_block_hash e bn) h) with true
    by (symmetry; apply String.eqb_eq; exact Ef).
  cbn [negb]. unfold after_draws. replace (draws w + 1)%nat with (S (draws w)) by lia.
  reflexivity.
Qed.

Lemma check_samples_step_fail (e : env) (n : nat) (lo hi : Z)
  (x : block_data) (l : list block_data) (w : world) :
  record_fails e lo hi (sample e x l (draws w)) ->
  check_samples e (S n) lo hi (Some (x :: l)) w = (Ok false, after_draws w 1).
Proof.
  unfold sample. intros H.
  cbn [check_samples]. unfold bind at 1. cbn [random_choice].
  unfold after_draws. replace (draws w + 1)%nat with (S (draws w)) by lia.
  destruct H as [Eb | [(bn & Eb & Hr) | (bn & h & Eb & Hr & Eh & Ef)]]; rewrite Eb.
  - reflexivity.
  - rewrite (out_of_range_test _ _ _ Hr). reflexivity.
  - rewrite (in_range_test _ _ _ Hr).
    rewrite Eh. replace (String.eqb (fetch_block_hash e bn) h) with false
      by (symmetry; apply String.eqb_neq; exact Ef).
    reflexivity.
Qed.

(** Every sampled record either passes, fails, or has no [hash] entry (in
    which case the comparison raises [KeyError]). *)
Lemma record_cases (e : env) (lo hi : Z) (r : block_data) :
  record_passes e lo hi r \/ record_fails e lo hi r \/
  (exists bn, block_number r = Some bn /\ lo <= bn <= hi /\ hash r = None).
Proof.
  unfold record_passes, record_fails.
  destruct (block_number r) as [bn |]; [| right; left; left; reflexivity].
  destruct (Z_lt_dec bn lo); [right; left; right; left; exists bn; split; [reflexivity | lia] |].
  destruct (Z_lt_dec hi bn); [right; left; right; left; exists bn; split; [reflexivity | lia] |].
  destruct (hash r) as [h |]; [| right; right; exists bn; repeat split; lia].
  destruct (string_dec (fetch_block_hash e bn) h) as [E | N].
  - left. exists bn, h. repeat split; auto; lia.
  - right. left. right. right. exists bn, h. repeat split; auto; lia.
Qed.

Lemma check_samples_all_pass (e : env) (lo hi : Z) (x : block_data) (l : list block_data)
  (n : nat) : forall w,
  (forall i, (i < n)%nat -> record_passes e lo hi (sample e x l (draws w + i))) ->
  check_samples e n lo hi (Some (x :: l)) w = (Ok true, after_draws w n).
Proof.
  induction n as [| n IH]; intros w H.
  - cbn [check_samples]. unfold ret. rewrite after_draws_0. reflexivity.
  - rewrite check_samples_step_pass
      by (specialize (H 0%nat ltac:(lia)); rewrite Nat.add_0_r in H; exact H).
    rewrite IH.
    + rewrite after_draws_S. reflexivity.
    + intros i Hi. specialize (H (S i) ltac:(lia)).
      unfold after_draws. cbn [draws].
      replace (draws w + 1 + i)%nat with (draws w + S i)%nat by lia. exact H.
Qed.

Lemma check_samples_first_fail (e : env) (lo hi : Z) (x : block_data) (l : list block_data)
  (n : nat) : forall w k,
  (k < n)%nat ->
  (forall i, (i < k)%nat -> record_passes e lo hi (sample e x l (draws w + i))) ->
  record_fails e lo hi (sample e x l (draws w + k)) ->
  check_samples e n lo hi (Some (x :: l)) w = (Ok false, after_draws w (S k)).
Proof.
  induction n as [| n IH]; intros w k Hk Hpass Hfail; [lia |].
  destruct k as [| k].
  - rewrite Nat.add_0_r in Hfail. apply check_samples_step_fail. exact Hfail.
  - rewrite check_samples_step_pass
      by (specialize (Hpass 0%nat ltac:(lia)); rewrite Nat.add_0_r in Hpass; exact Hpass).
    rewrite (IH _ k).
    + rewrite after_draws_S. reflexivity.
    + lia.
    + intros i Hi. specialize (Hpass (S i) ltac:(lia)).
      unfold after_draws. cbn [draws].
      replace (draws w + 1 + i)%nat with (draws w + S i)%nat by lia. exact Hpass.
    + unfold after_draws. cbn [draws].
      replace (draws w + 1 + k)%nat with (draws w + S k)%nat by lia. exact Hfail.
Qed.

Lemma check_samples_true_inv (e : env) (lo hi : Z) (x : block_data) (l : list block_data)
  (n : nat) : forall w w',
  check_samples e n lo hi (Some (x :: l)) w = (Ok true, w') ->
  (forall i, (i < n)%nat -> record_passes e lo hi (sample e x l (draws w + i))) /\
  w' = after_draws w n.
Proof.
  induction n as [| n IH]; intros w w' H.
  - cbn [check_samples] in H. unfold ret in H. injection H as <-.
    split; [intros i Hi; lia | symmetry; apply after_draws_0].
  - destruct (record_cases e lo hi (sample e x l (draws w)))
      as [Hp | [Hf | (bn & Eb & Hr & Eh)]].
    + rewrite (check_samples_step_pass _ _ _ _ _ _ _ Hp) in H.
      destruct (IH _ _ H) as [Hall ->]. split; [| apply after_draws_S].
      intros [| i] Hi; [rewrite Nat.add_0_r; exact Hp |].
      specialize (Hall i ltac:(lia)). unfold after_draws in Hall. cbn [draws] in Hall.
      replace (draws w + S i)%nat with (draws w + 1 + i)%nat by lia. exact Hall.
    + rewrite (check_samples_step_fail _ _ _ _ _ _ _ Hf) in H. discriminate H.
    + exfalso. revert H. unfold sample in *.
      cbn [check_samples]. unfold bind at 1. cbn [random_choice]. rewrite Eb.
      rewrite (in_range_test _ _ _ Hr).
      rewrite Eh. unfold lift. discriminate.
Qed.

Lemma check_samples_frame (e : env) (lo hi : Z) (data : option (list block_data))
  (n : nat) : forall w r w',
  check_samples e n lo hi data w = (r, w') -> db w' = db w /\ votes w' = votes w.
Proof.
  induction n as [| n IH]; intros w r w'; cbn [check_samples].
  - unfold ret. intros H. injection H as _ <-. auto.
  - unfold bind at 1. unfold random_choice.
    destruct data as [[| x l] |]; try (intros H; injection H as _ <-; auto).
    destruct (block_number _); [| unfold ret; intros H; injection H as _ <-; auto].
    destruct (_ || _); [unfold ret; intros H; injection H as _ <-; auto |].
    destruct (hash _); [| unfold lift; intros H; injection H as _ <-; auto].
    destruct (negb _); [unfold ret; intros H; injection H as _ <-; auto |].
    intros H. apply IH in H. cbn [db votes] in H. exact H.
Qed.

Lemma check_miner_answer_frame (e : env) (prompt : option miner_prompt)
  (a : option miner_answer) (w : world) (r : result bool) (w' : world) :
  check_miner_answer e prompt a w = (r, w') -> db w' = db w /\ votes w' = votes w.
Proof.
  unfold check_miner_answer. destruct prompt as [p |];
    [| unfold lift; intros H; injection H as _ <-; auto].
  destruct (negb (rust_backend_bound e));
    [unfold lift; intros H; injection H as _ <-; auto |].
  destruct (fetch_block_range e _ _ _ _) as [lo hi].
  destruct a as [a |]; [| unfold lift; intros H; injection H as _ <-; auto].
  apply check_samples_frame.
Qed.

(** With the oracle bound, a prompt and an answer, [check_miner_answer] is
    the sampling loop on the answer's data. *)
Lemma check_miner_answer_bound (e : env) (p : miner_prompt) (a : miner_answer) (w : world) :
  rust_backend_bound e = true ->
  check_miner_answer e (Some p) (Some a) w =
    check_samples e 10
      (fst (fetch_block_range e (token_a p) (token_b p) (start_datetime p) (end_datetime p)))
      (snd (fetch_block_range e (token_a p) (token_b p) (start_datetime p) (end_datetime p)))
      (data a) w.
Proof.
  intros Hb. unfold check_miner_answer. rewrite Hb. cbn [negb].
  destruct (fetch_block_range e _ _ _ _) as [lo hi]. reflexivity.
Qed.

(** As written, [get_miner_prompt] yields [None], and [check_miner_answer]
    then fails on its first line: a round never returns normally. *)
Lemma validate_step_always_raises (e : env) (w : world) :
  exists ex w', validate_step e w = (Raise ex, w').
Proof.
  unfold validate_step. destruct (negb _); [unfold lift; eauto |].
  unfold bind at 1. unfold get_miner_prompt.
  destruct (get_time_range (db w)) as [[range | ex] d1]; [| eauto].
  unfold validate_step_with_prompt, bind, lift.
  destruct (consensus _ _); [| eauto].
  destruct (agreeing _ _) as [[| first rest] |]; [eauto | | eauto].
  cbn [check_miner_answer]. unfold lift. eauto.
Qed.

(** C6 fails on the code: [check_miner_answer] draws no record and returns
    neither [True] nor [False].  The name [rust_backend] that it calls for
    the block range is bound nowhere in the file, so with a prompt it
    raises [NameError] before the answer is looked at; with the prompt
    [None], which is what [validate_step] passes, it raises
    [AttributeError] on its first line.  No record is drawn in either
    case, and no round of [validate_step] gets a verdict: it ends with an
    exception. *)
Theorem check_miner_answer_backend_unbound (e : env) (w : world) :
  rust_backend_bound e = false ->
  (forall p a, check_miner_answer e (Some p) a w = (Raise NameError, w)) /\
  (forall a, check_miner_answer e None a w = (Raise AttributeError, w)) /\
  (forall prompt a r w',
      check_miner_answer e prompt a w = (r, w') ->
      (exists ex, r = Raise ex) /\ w' = w) /\
  exists ex w', validate_step e w = (Raise ex, w').
Proof.
  intros Hb.
  assert (H1 : forall p a, check_miner_answer e (Some p) a w = (Raise NameError, w))
    by (intros p a; unfold check_miner_answer; rewrite Hb; reflexivity).
  split; [exact H1 |]. split; [reflexivity |]. split.
  - intros [p |] a r w' H.
    + rewrite H1 in H. injection H as <- <-. eauto.
    + cbn [check_miner_answer] in H. unfold lift in H. injection H as <- <-. eauto.
  - apply validate_step_always_raises.
Qed.

Lemma check_miner_answer_backend_unbound_witness :
  check_miner_answer env_as_written (Some prompt0) (Some answer0) world0 =
    (Raise NameError, world0).
Proof.
  apply (proj1 (check_miner_answer_backend_unbound env_as_written world0 eq_refl)).
Defined.

(** With [rust_backend] bound to an oracle and a prompt given, on an
    answer with a non-empty data list, [check_miner_answer] makes ten
    iterations, each drawing one record from the whole list (so with
    replacement).  It returns [True], after exactly ten draws, when the ten
    sampled records pass, and only then; it returns [False] at the first
    sampled record that has no block number, a block number outside the
    oracle's range or a hash that differs from the oracle's, without
    drawing further.  When it returns [False], the rest of [validate_step]
    ends the round at once and no vote is submitted. *)
Theorem check_miner_answer_samples_ten (e : env) (p : miner_prompt) (a : miner_answer)
  (x : block_data) (l : list block_data) (w : world) :
  rust_backend_bound e = true ->
  data a = Some (x :: l) ->
  let range :=
    fetch_block_range e (token_a p) (token_b p) (start_datetime p) (end_datetime p) in
  let passes i := record_passes e (fst range) (snd range) (sample e x l (draws w + i)) in
  let fails i := record_fails e (fst range) (snd range) (sample e x l (draws w + i)) in
  let check := check_miner_answer e (Some p) (Some a) w in
  ANSWER_CHECK_COUNT = 10%nat /\
  ((forall i, (i < 10)%nat -> passes i) -> check = (Ok true, after_draws w 10)) /\
  (forall k, (k < 10)%nat -> (forall i, (i < k)%nat -> passes i) -> fails k ->
             check = (Ok false, after_draws w (S k))) /\
  (forall w', check = (Ok true, w') ->
              (forall i, (i < 10)%nat -> passes i) /\ w' = after_draws w 10) /\
  (forall modules_info prompt w0 most first rest w1,
      let miner_answers := map (miner_call e prompt) (dict_values modules_info) in
      consensus (set_iter e) miner_answers = Ok most ->
      agreeing most (combine (dict_keys modules_info) miner_answers) = Ok (first :: rest) ->
      check_miner_answer e prompt (snd first) w0 = (Ok false, w1) ->
      validate_step_with_prompt e modules_info prompt w0 = (Ok tt, w1) /\
      votes w1 = votes w0).
Proof.
  intros Hb Hd range passes fails check.
  assert (Echeck : check = check_samples e 10 (fst range) (snd range) (Some (x :: l)) w).
  { unfold check. rewrite (check_miner_answer_bound e p a w Hb), Hd. reflexivity. }
  split; [reflexivity |]. split; [| split; [| split]].
  - intros H. rewrite Echeck. apply check_samples_all_pass. exact H.
  - intros k Hk Hp Hf. rewrite Echeck. apply check_samples_first_fail; assumption.
  - intros w' H. rewrite Echeck in H. apply check_samples_true_inv in H. exact H.
  - intros modules_info prompt w0 most first rest w1 miner_answers Hc Ha Hcheck.
    split.
    + unfold validate_step_with_prompt, bind, lift. fold miner_answers.
      rewrite Hc, Ha, Hcheck. reflexivity.
    + apply check_miner_answer_frame in Hcheck. apply Hcheck.
Qed.

Lemma check_miner_answer_samples_ten_witness :
  check_miner_answer env0 (Some prompt0) (Some answer0) world0 =
    (Ok true, after_draws world0 10).
Proof.
  apply (proj1 (proj2
           (check_miner_answer_samples_ten env0 prompt0 answer0
              (mkBlock (Some 5) (Some "h"%string)) [] world0 eq_refl eq_refl))).
  intros i Hi. exists 5, "h"%string. repeat split; cbn; lia.
Defined.

(** The tail of a round writes nothing to the database. *)
Lemma validate_step_with_prompt_db (e : env) (modules_info : dict (list string * string))
  (prompt : option miner_prompt) (w : world) (r : result unit) (w' : world) :
  validate_step_with_prompt e modules_info prompt w = (r, w') -> db w' = db w.
Proof.
  unfold validate_step_with_prompt, bind, lift.
  destruct (consensus _ _) as [most | ex]; [| intros H; injection H as _ <-; reflexivity].
  destruct (agreeing _ _) as [[| first rest] | ex];
    try (intros H; injection H as _ <-; reflexivity).
  destruct (check_miner_answer e prompt (snd first) w) as [[valid | ex] w1] eqn:Ec;
    apply check_miner_answer_frame in Ec; destruct Ec as [Edb _];
    [| intros H; injection H as _ <-; exact Edb].
  destruct valid; cbn [negb]; [| unfold ret; intros H; injection H as _ <-; exact Edb].
  destruct (score_loop _ _ _) as [[| kv sd] | ex];
    [unfold ret; intros H; injection H as _ <-; exact Edb | |
     intros H; injection H as _ <-; exact Edb].
  destruct (set_weights _ _) as [v | ex]; [| intros H; injection H as _ <-; exact Edb].
  unfold client_vote. intros H. injection H as _ <-. exact Edb.
Qed.

(** No path of [validate_step] marks a window or a token pair complete or
    writes to the archive: the part of the round after the prompt, vote
    included, leaves the database as it is, and the only write of a whole
    round is the window that [get_time_range] may append, which is
    incomplete. *)
Theorem validate_step_leaves_ledger :
  (forall e modules_info prompt w r w',
      validate_step_with_prompt e modules_info prompt w = (r, w') -> db w' = db w) /\
  (forall e w r w',
      validate_step e w = (r, w') ->
      db w' = db w \/ db w' = snd (get_time_range (db w))) /\
  (forall d res d',
      get_time_range d = (res, d') ->
      DBManager.token_pairs d' = DBManager.token_pairs d /\
      DBManager.pool_data d' = DBManager.pool_data d /\
      (DBManager.timetable d' = DBManager.timetable d \/
       exists row,
         DBManager.timetable d' = DBManager.timetable d ++ [row] /\
         DBManager.completed row = false)).
Proof.
  split; [exact validate_step_with_prompt_db |]. split.
  - intros e w r w'. unfold validate_step.
    destruct (negb _); [unfold lift; intros H; injection H as _ <-; left; reflexivity |].
    unfold bind at 1. unfold get_miner_prompt.
    destruct (get_time_range (db w)) as [[range | ex] d1] eqn:Eg.
    + intros H. apply validate_step_with_prompt_db in H. cbn [db] in H.
      right. cbn [snd]. exact H.
    + intros H. injection H as _ <-. right. reflexivity.
  - intros d res d'. unfold get_time_range.
    destruct (DBManager.fetch_incompleted_time_range d);
      [| intros H; injection H as _ <-; auto].
    destruct (DBManager.fetch_last_time_range d) as [last_row |];
      [| intros H; injection H as _ <-; auto].
    destruct (_ <? _); [intros H; injection H as _ <-; auto |].
    unfold DBManager.add_timetable_entry.
    destruct (existsb _ _); intros H; injection H as _ <-; [auto |].
    cbn [DBManager.with_timetable DBManager.token_pairs DBManager.pool_data
           DBManager.timetable].
    split; [reflexivity |]. split; [reflexivity |]. right. eexists. split; reflexivity.
Qed.

Lemma validate_step_leaves_ledger_witness :
  db (snd (validate_step_with_prompt env0 (modules_info_of env0) (Some prompt0) world0)) =
    db world0.
Proof.
  apply (proj1 validate_step_leaves_ledger env0 (modules_info_of env0) (Some prompt0) world0
           (fst (validate_step_with_prompt env0 (modules_info_of env0) (Some prompt0) world0))).
  apply surjective_pairing.
Defined.

(** C8, as amended.  [validate_step] raises [RuntimeError], before any
    worker is polled, when the validator key is not registered;
    [validation_loop] has no handler, so an exception raised by a round
    ends the loop with that exception, and the loop goes on to the next
    round only after a round that returned. *)
Theorem validate_step_exceptions_propagate :
  (forall e w,
      existsb (String.eqb (val_ss58 e)) (dict_values (query_map_key e)) = false ->
      validate_step e w = (Raise RuntimeError, w) /\
      forall rounds, validation_loop (S rounds) e w = (Raise RuntimeError, w)) /\
  (forall e w ex w' rounds,
      validate_step e w = (Raise ex, w') ->
      validation_loop (S rounds) e w = (Raise ex, w')) /\
  (forall e w w' rounds,
      validate_step e w = (Ok tt, w') ->
      validation_loop (S rounds) e w = validation_loop rounds e w').
Proof.
  assert (Hraise : forall e w ex w' rounds,
             validate_step e w = (Raise ex, w') ->
             validation_loop (S rounds) e w = (Raise ex, w')).
  { intros e w ex w' rounds H. cbn [validation_loop]. unfold bind. rewrite H. reflexivity. }
  split; [| split; [exact Hraise |]].
  - intros e w Hreg.
    assert (H : validate_step e w = (Raise RuntimeError, w))
      by (unfold validate_step; rewrite Hreg; reflexivity).
    split; [exact H |]. intros rounds. apply Hraise. exact H.
  - intros e w w' rounds H. cbn [validation_loop]. unfold bind at 1. rewrite H. reflexivity.
Qed.

Lemma validate_step_exceptions_propagate_witness :
  validate_step env_unregistered world0 = (Raise RuntimeError, world0).
Proof.
  apply (proj1 validate_step_exceptions_propagate env_unregistered world0). reflexivity.
Defined.

(** C8, as stated, fails: with an unregistered validator key the round
    raises [RuntimeError] and the loop ends with it, whatever the number
    of rounds it was to run. *)
Lemma unregistered_key_stops_loop :
  validate_step env_unregistered world0 = (Raise RuntimeError, world0) /\
  validation_loop 3 env_unregistered world0 = (Raise RuntimeError, world0).
Proof. split; reflexivity. Qed.

End Round.

(** ** The timetable as a table with a primary key *)

Section TimetableKey.

Import DBManager DBManagerQueries LedgerSpec LedgerFacts.

(** [fetch_last_time_range] returns [None] exactly on an empty
    timetable, and otherwise a row of the timetable whose start no other
    row exceeds. *)
Theorem fetch_last_time_range_is_latest (d : t) :
  (fetch_last_time_range d = None <-> timetable d = []) /\
  (forall r, fetch_last_time_range d = Some r ->
             In r (timetable d) /\
             forall r', In r' (timetable d) -> start r' <= start r).
Proof.
  unfold fetch_last_time_range. destruct (timetable d) as [| b rows]; cbn [fold_left].
  - split; [tauto | discriminate].
  - destruct (fold_last_spec rows b) as (r & E & Hin & Hmax). rewrite E.
    split; [split; discriminate |].
    intros r0 H. injection H as <-. auto.
Qed.

Lemma fetch_last_time_range_is_latest_witness :
  In (mkTimetable 5 6 true)
     (timetable (mkDB [mkTimetable 3 4 false; mkTimetable 5 6 true; mkTimetable 1 2 true] [] [])).
Proof.
  apply (proj2 (fetch_last_time_range_is_latest
                  (mkDB [mkTimetable 3 4 false; mkTimetable 5 6 true; mkTimetable 1 2 true]
                     [] []))).
  reflexivity.
Defined.

Lemma get_time_range_cases (d : t) (res : result (Z * Z)) (d' : t) :
  Validator.get_time_range d = (res, d') ->
  d' = d \/
  exists last_row,
    fetch_last_time_range d = Some last_row /\
    ~ In (end_ last_row) (map start (timetable d)) /\
    res = Ok (end_ last_row, end_ last_row + 1) /\
    d' = with_timetable d
           (timetable d ++ [mkTimetable (end_ last_row) (end_ last_row + 1) false]).
Proof.
  unfold Validator.get_time_range.
  destruct (fetch_incompleted_time_range d); [| intros H; injection H as _ <-; auto].
  destruct (fetch_last_time_range d) as [last_row |]; [| intros H; injection H as _ <-; auto].
  destruct (_ <? _); [intros H; injection H as _ <-; auto |].
  unfold add_timetable_entry.
  destruct (existsb _ _) eqn:Ex; intros H; injection H as <- <-; [auto |].
  right. exists last_row. split; [reflexivity |]. split; [| auto].
  intros Hin. apply existsb_start in Hin. congruence.
Qed.

Lemma remove_first_perm {A} (f : A -> bool) (l : list A) (r : A) :
  find f l = Some r -> Permutation (r :: remove_first f l) l.
Proof.
  induction l as [| y l IH]; cbn [find remove_first]; [discriminate |].
  destruct (f y).
  - intros H. injection H as <-. reflexivity.
  - intros H. rewrite perm_swap. apply perm_skip. apply IH. exact H.
Qed.

(** The windows of the timetable after a mark: those it had. *)
Lemma mark_windows (slot : nat) (s e : Z) (d : t) :
  Permutation (windows (snd (mark_time_range_as_complete slot s e d))) (windows d).
Proof.
  unfold windows, mark_time_range_as_complete.
  destruct (find (matches_time_range s e) (timetable d)) as [r0 |] eqn:E; cbn [snd];
    [| reflexivity].
  destruct (completed r0); cbn [snd]; [reflexivity |].
  cbn [with_timetable timetable].
  rewrite (Permutation_map _ (permutation_insert_at slot _ _)). cbn [map start end_].
  exact (Permutation_map (fun r => (start r, end_ r)) (remove_first_perm _ _ _ E)).
Qed.

(** The rows of the timetable after a mark: rows it had, or the completed
    row of the marked window. *)
Lemma mark_rows (slot : nat) (s e : Z) (d : t) (x : Timetable) :
  In x (timetable (snd (mark_time_range_as_complete slot s e d))) ->
  In x (timetable d) \/ x = mkTimetable s e true.
Proof.
  unfold mark_time_range_as_complete.
  destruct (find (matches_time_range s e) (timetable d)) as [r0 |] eqn:E; cbn [snd];
    [| auto].
  destruct (completed r0); cbn [snd]; [auto |].
  cbn [with_timetable timetable]. intros H. apply in_insert_at in H as [-> | H].
  - right. apply find_some in E as [_ Hm]. unfold matches_time_range in Hm.
    apply andb_true_iff in Hm. rewrite !Z.eqb_eq in Hm. destruct Hm as [-> ->]. reflexivity.
  - left. apply in_remove_first in H. exact H.
Qed.

(** The primary key of the timetable is kept.  On a timetable without
    duplicate starts, a successful [add_timetable_entry] was given a start
    that no row has and appends that one window; neither it,
    [mark_time_range_as_complete] nor [get_time_range] introduces a
    duplicate start; a mark leaves the set of windows as it is, wherever
    the engine stores the updated row, and [get_time_range] only appends
    windows. *)
Theorem timetable_primary_key (d : t) :
  pk_unique d ->
  (forall s e d', add_timetable_entry s e d = Ok d' ->
                  ~ In s (map start (timetable d)) /\
                  pk_unique d' /\ windows d' = windows d ++ [(s, e)]) /\
  (forall slot s e,
      pk_unique (snd (mark_time_range_as_complete slot s e d)) /\
      Permutation (windows (snd (mark_time_range_as_complete slot s e d))) (windows d)) /\
  (forall res d', Validator.get_time_range d = (res, d') ->
                  pk_unique d' /\
                  exists added, windows d' = windows d ++ added).
Proof.
  intros Hpk.
  assert (Hfresh : forall s e, ~ In s (map start (timetable d)) ->
             pk_unique (with_timetable d (timetable d ++ [mkTimetable s e false]))).
  { intros s e Hs. unfold pk_unique in *. cbn [with_timetable timetable].
    rewrite map_app. cbn [map start]. apply NoDup_app; [exact Hpk | | ].
    - constructor; [intros [] | constructor].
    - intros x Hx [<- | []]. exact (Hs Hx). }
  split; [| split].
  - intros s e d'. unfold add_timetable_entry.
    destruct (existsb (fun r => start r =? s) (timetable d)) eqn:Ex; [discriminate |].
    intros H. injection H as <-.
    assert (Hs : ~ In s (map start (timetable d)))
      by (intros Hin; apply existsb_start in Hin; congruence).
    split; [exact Hs |]. split; [apply Hfresh; exact Hs |].
    unfold windows. cbn [with_timetable timetable]. rewrite map_app. reflexivity.
  - intros slot s e. split; [| apply mark_windows].
    unfold pk_unique in *.
    pose proof (Permutation_map fst (mark_windows slot s e d)) as Hp.
    unfold windows in Hp. rewrite !map_map in Hp. cbn [fst] in Hp.
    apply (Permutation_NoDup (Permutation_sym Hp)). exact Hpk.
  - intros res d' H. apply get_time_range_cases in H.
    destruct H as [-> | (last_row & _ & Hnin & _ & ->)].
    + split; [exact Hpk |]. exists []. rewrite app_nil_r. reflexivity.
    + split; [apply Hfresh; assumption |].
      exists [(end_ last_row, end_ last_row + 1)].
      unfold windows. cbn [with_timetable timetable]. rewrite map_app. reflexivity.
Qed.

Lemma timetable_primary_key_witness :
  Permutation
    (windows (snd (mark_time_range_as_complete 9 738886 738887
                     (mkDB [mkTimetable 738886 738887 false; mkTimetable 738887 738888 false]
                        [] []))))
    (windows (mkDB [mkTimetable 738886 738887 false; mkTimetable 738887 738888 false] [] [])).
Proof.
  refine (proj2 (proj1 (proj2 (timetable_primary_key
                                 (mkDB [mkTimetable 738886 738887 false;
                                        mkTimetable 738887 738888 false] [] []) _))
                   9%nat 738886 738887)).
  unfold pk_unique. cbn [timetable map start].
  repeat constructor; cbn [In]; intros H; repeat destruct H as [H | H]; try discriminate H;
    exact H.
Defined.

(** The open rows left when the first row of a window is taken out of a
    timetable with distinct starts. *)
Lemma remove_first_incomplete (s e : Z) (rows : list Timetable) :
  NoDup (map start rows) ->
  (exists r, In r rows /\ matches_time_range s e r = true) ->
  filter (fun r => negb (completed r)) (remove_first (matches_time_range s e) rows) =
    filter (fun r => negb (start r =? s)) (filter (fun r => negb (completed r)) rows).
Proof.
  induction rows as [| r rows IH]; intros Hnd (r0 & Hin & Hm); [destruct Hin |].
  cbn [map] in Hnd. inversion Hnd as [| ? ? Hfresh Hnd']; subst.
  cbn [remove_first].
  destruct (matches_time_range s e r) eqn:Er.
  - unfold matches_time_range in Er. apply andb_true_iff in Er as [Es _].
    cbn [filter].
    assert (Hkeep : filter (fun r => negb (start r =? s))
                      (filter (fun r => negb (completed r)) rows) =
                    filter (fun r => negb (completed r)) rows).
    { apply filter_all. intros x Hx. apply filter_In in Hx as [Hx _].
      apply negb_true_iff, Z.eqb_neq. intros E. apply Hfresh.
      apply Z.eqb_eq in Es. rewrite Es, <- E. apply in_map. exact Hx. }
    destruct (completed r); cbn [negb filter]; [symmetry; exact Hkeep |].
    rewrite Es. cbn [negb]. symmetry. exact Hkeep.
  - destruct Hin as [-> | Hin]; [congruence |].
    assert (Hs : start r <> s).
    { intros E. apply Hfresh. unfold matches_time_range in Hm.
      apply andb_true_iff in Hm as [Hm _]. apply Z.eqb_eq in Hm.
      rewrite E, <- Hm. apply in_map. exact Hin. }
    cbn [filter]. rewrite (IH Hnd' (ex_intro _ r0 (conj Hin Hm))).
    destruct (completed r); cbn [negb filter]; [reflexivity |].
    apply Z.eqb_neq in Hs. rewrite Hs. reflexivity.
Qed.

(** The open rows after a mark that found its window. *)
Lemma mark_incomplete (slot : nat) (s e : Z) (d : t) :
  pk_unique d ->
  (exists r, In r (timetable d) /\ matches_time_range s e r = true) ->
  fetch_incompleted_time_range (snd (mark_time_range_as_complete slot s e d)) =
    filter (fun r => negb (start r =? s)) (fetch_incompleted_time_range d).
Proof.
  unfold pk_unique, fetch_incompleted_time_range, mark_time_range_as_complete.
  intros Hpk Hex.
  destruct (find (matches_time_range s e) (timetable d)) as [r0 |] eqn:E;
    [| exfalso; exact (proj1 (find_matches_some _ _ _) Hex E)].
  destruct (completed r0) eqn:C0; cbn [snd with_timetable timetable].
  - symmetry. apply filter_all. intros x Hx. apply filter_In in Hx as [Hx Hc].
    apply negb_true_iff, Z.eqb_neq. intros Es.
    apply find_some in E as [Hr0 Hm0]. unfold matches_time_range in Hm0.
    apply andb_true_iff in Hm0 as [Hm0 _]. apply Z.eqb_eq in Hm0.
    assert (Ex : x = r0)
      by (apply (same_start_same_row (timetable d)); try assumption; congruence).
    subst x. rewrite C0 in Hc. discriminate.
  - rewrite filter_insert_at_out by reflexivity.
    apply remove_first_incomplete; assumption.
Qed.

(** Insert and look up: after a successful [add_timetable_entry], the
    new window is the last row of [fetch_timetable_data] and of
    [fetch_incompleted_time_range], [mark_time_range_as_complete] finds
    it, a second insertion with the same start raises [IntegrityError], and
    [fetch_last_time_range] returns it when its start is later than every
    other. *)
Theorem add_timetable_entry_then_fetch (s e : Z) (d d' : t) :
  add_timetable_entry s e d = Ok d' ->
  fetch_timetable_data d' = fetch_timetable_data d ++ [mkTimetable s e false] /\
  fetch_incompleted_time_range d' =
    fetch_incompleted_time_range d ++ [mkTimetable s e false] /\
  (forall slot, fst (mark_time_range_as_complete slot s e d') = true) /\
  (forall e', add_timetable_entry s e' d' = Raise IntegrityError) /\
  ((forall r, In r (timetable d) -> start r < s) ->
   fetch_last_time_range d' = Some (mkTimetable s e false)).
Proof.
  unfold add_timetable_entry.
  destruct (existsb (fun r => start r =? s) (timetable d)) eqn:Ex; [discriminate |].
  intros H. injection H as <-.
  unfold fetch_timetable_data, fetch_incompleted_time_range, fetch_last_time_range.
  cbn [with_timetable timetable].
  split; [reflexivity |]. split; [rewrite filter_app; reflexivity |].
  split; [| split].
  - intros slot. unfold mark_time_range_as_complete. cbn [with_timetable timetable].
    destruct (find _ _) as [r0 |] eqn:E; [destruct (completed r0); reflexivity |]. exfalso.
    apply (proj1 (find_matches_some s e (timetable d ++ [mkTimetable s e false])));
      [| exact E].
    exists (mkTimetable s e false). split; [apply in_or_app; right; left; reflexivity |].
    unfold matches_time_range. cbn [start end_]. rewrite !Z.eqb_refl. reflexivity.
  - intros e'. rewrite existsb_app. cbn [existsb start]. rewrite Z.eqb_refl, orb_true_r.
    reflexivity.
  - intros Hlt. destruct (timetable d) as [| b rows]; [reflexivity |].
    cbn [app fold_left].
    destruct (fold_last_spec (rows ++ [mkTimetable s e false]) b) as (r & E & Hin & Hmax).
    rewrite E. f_equal.
    assert (Hnew : In (mkTimetable s e false) (b :: rows ++ [mkTimetable s e false])).
    { right. apply in_or_app. right. left. reflexivity. }
    specialize (Hmax _ Hnew). cbn [start] in Hmax.
    destruct Hin as [<- | Hin].
    + specialize (Hlt b (or_introl eq_refl)). lia.
    + apply in_app_or in Hin as [Hin | [<- | []]]; [| reflexivity].
      specialize (Hlt r (or_intror Hin)). lia.
Qed.

Lemma add_timetable_entry_then_fetch_witness :
  fetch_last_time_range
    (mkDB [mkTimetable 0 1 true; mkTimetable 1 2 true; mkTimetable 2 3 false] [] []) =
    Some (mkTimetable 2 3 false).
Proof.
  apply (add_timetable_entry_then_fetch 2 3
           (mkDB [mkTimetable 0 1 true; mkTimetable 1 2 true] [] [])
           (mkDB [mkTimetable 0 1 true; mkTimetable 1 2 true; mkTimetable 2 3 false] [] [])
           eq_refl).
  cbn [timetable In]. intros r [<- | [<- | []]]; cbn [start]; lia.
Defined.

(** Mark and look up: on a timetable without duplicate starts, wherever
    the engine stores the updated row, a successful
    [mark_time_range_as_complete] removes from
    [fetch_incompleted_time_range] the window with the given start and
    nothing else, and every row of another window stays in the table as it
    was. *)
Theorem mark_time_range_then_fetch (slot : nat) (s e : Z) (d : t) :
  pk_unique d ->
  fst (mark_time_range_as_complete slot s e d) = true ->
  fetch_incompleted_time_range (snd (mark_time_range_as_complete slot s e d)) =
    filter (fun r => negb (start r =? s)) (fetch_incompleted_time_range d) /\
  (forall r, In r (timetable d) -> start r <> s ->
             In r (timetable (snd (mark_time_range_as_complete slot s e d)))).
Proof.
  intros Hpk Hfst.
  assert (Hex : exists r, In r (timetable d) /\ matches_time_range s e r = true).
  { apply find_matches_some. intros E. unfold mark_time_range_as_complete in Hfst.
    rewrite E in Hfst. discriminate. }
  split; [apply mark_incomplete; assumption |].
  intros r Hin Hs. unfold mark_time_range_as_complete.
  destruct (find (matches_time_range s e) (timetable d)) as [r0 |]; [| exact Hin].
  destruct (completed r0); cbn [snd with_timetable timetable]; [exact Hin |].
  apply in_insert_at. right. apply remove_first_keeps; [exact Hin |].
  unfold matches_time_range. apply Z.eqb_neq in Hs. rewrite Hs. reflexivity.
Qed.

Lemma mark_time_range_then_fetch_witness :
  fetch_incompleted_time_range
    (snd (mark_time_range_as_complete 7 738887 738888
            (mkDB [mkTimetable 738886 738887 true; mkTimetable 738887 738888 false;
                   mkTimetable 738888 738889 false] [] []))) =
    filter (fun r => negb (start r =? 738887))
      (fetch_incompleted_time_range
         (mkDB [mkTimetable 738886 738887 true; mkTimetable 738887 738888 false;
                mkTimetable 738888 738889 false] [] [])).
Proof.
  refine (proj1 (mark_time_range_then_fetch 7 738887 738888
                   (mkDB [mkTimetable 738886 738887 true; mkTimetable 738887 738888 false;
                          mkTimetable 738888 738889 false] [] []) _ eq_refl)).
  unfold pk_unique. cbn [timetable map start].
  repeat constructor; cbn [In]; intros H; repeat destruct H as [H | H]; try discriminate H;
    exact H.
Defined.

Lemma incompleted_cases (d : t) :
  (fetch_incompleted_time_range d = [] /\
   forall r, In r (timetable d) -> completed r = true) \/
  exists r0, In r0 (timetable d) /\ completed r0 = false.
Proof.
  unfold fetch_incompleted_time_range.
  destruct (filter (fun r => negb (completed r)) (timetable d)) as [| r0 rest] eqn:E.
  - left. split; [reflexivity |]. intros r Hr.
    destruct (completed r) eqn:C; [reflexivity |]. exfalso.
    assert (Hin : In r (filter (fun r => negb (completed r)) (timetable d)))
      by (apply filter_In; rewrite C; auto).
    rewrite E in Hin. exact Hin.
  - right. exists r0.
    assert (Hin : In r0 (filter (fun r => negb (completed r)) (timetable d)))
      by (rewrite E; left; reflexivity).
    apply filter_In in Hin as [Hin Hc]. apply negb_true_iff in Hc. auto.
Qed.

(** Marking the oldest open window and asking for the next one. *)
Lemma consume_step (slot : nat) (d : t) (r : Timetable) :
  in_continuity (timetable d) ->
  (forall x, In x (timetable d) -> end_ x < date_max) ->
  In r (timetable d) -> completed r = false ->
  (forall r', In r' (timetable d) -> completed r' = false -> start r <= start r') ->
  fst (mark_time_range_as_complete slot (start r) (end_ r) d) = true /\
  exists s' e' d3,
    Validator.get_time_range (snd (mark_time_range_as_complete slot (start r) (end_ r) d)) =
      (Ok (s', e'), d3) /\
    end_ r <= s'.
Proof.
  intros Hc Hdate Hin Hopen Hold.
  destruct (continuity_facts _ Hc) as (Hnd & _ & Hord & _).
  assert (Hex : exists r0, In r0 (timetable d) /\
                           matches_time_range (start r) (end_ r) r0 = true).
  { exists r. split; [exact Hin |]. unfold matches_time_range.
    rewrite !Z.eqb_refl. reflexivity. }
  destruct (proj1 (proj2 (mark_time_range_spec slot (start r) (end_ r) d Hnd)) Hex)
    as (Hfst & Hnew & Honly).
  pose proof (mark_keeps_continuity slot (start r) (end_ r) d Hc) as Hc2.
  pose proof (mark_rows slot (start r) (end_ r) d) as Hrows.
  set (d2 := snd (mark_time_range_as_complete slot (start r) (end_ r) d)) in *.
  split; [exact Hfst |].
  destruct (incompleted_cases d2) as [(_ & Hall) | Hsome].
  - destruct (get_time_range_creates d2 Hc2 Hall) as (latest & Hl & Hmax & Hget & _).
    assert (Hlt : end_ latest < date_max).
    { destruct (Hrows latest Hl) as [Hd | ->]; [apply Hdate; exact Hd |].
      cbn [end_]. apply Hdate. exact Hin. }
    destruct (Hget Hlt) as (Hg & _).
    eexists _, _, _. split; [exact Hg |].
    destruct (Hmax _ Hnew) as (_ & Hle). exact Hle.
  - destruct (get_time_range_oldest d2 Hc2 Hsome) as (r2 & Hr2 & Ho2 & _ & Hg).
    eexists _, _, _. split; [exact Hg |].
    destruct (Hrows r2 Hr2) as [Hd | E]; [| rewrite E in Ho2; discriminate].
    assert (Hne : start r2 <> start r).
    { intros E. rewrite (Honly r2 Hr2 E) in Ho2. discriminate. }
    specialize (Hold r2 Hd Ho2).
    apply (Hord r r2 Hin Hd). lia.
Qed.

(** Windows are handed out chronologically: on a timetable in continuity
    whose windows end more than a day before [date.max], [get_time_range]
    returns a window, marking that window complete succeeds wherever the
    engine stores the updated row, and the [get_time_range] that follows
    returns a window that starts no earlier than the marked one ends. *)
Theorem windows_consumed_in_order (slot : nat) (d : t) :
  in_continuity (timetable d) ->
  (forall r, In r (timetable d) -> end_ r + 1 < date_max) ->
  exists s e d1,
    Validator.get_time_range d = (Ok (s, e), d1) /\
    fst (mark_time_range_as_complete slot s e d1) = true /\
    exists s' e' d3,
      Validator.get_time_range (snd (mark_time_range_as_complete slot s e d1)) =
        (Ok (s', e'), d3) /\
      e <= s'.
Proof.
  intros Hc Hdate. destruct (incompleted_cases d) as [(Einc & Hall) | Hsome].
  - destruct (get_time_range_creates d Hc Hall) as (latest & Hl & Hmax & Hget & _).
    assert (Hlt : end_ latest < date_max) by (specialize (Hdate latest Hl); lia).
    destruct (Hget Hlt) as (Hg & Hc1).
    set (n := mkTimetable (end_ latest) (end_ latest + 1) false) in *.
    exists (start n), (end_ n), (with_timetable d (timetable d ++ [n])).
    split; [exact Hg |].
    apply consume_step; cbn [with_timetable timetable].
    + exact Hc1.
    + intros x Hx. apply in_app_or in Hx as [Hx | [<- | []]].
      * specialize (Hdate x Hx). lia.
      * unfold n. cbn [end_]. specialize (Hdate latest Hl). lia.
    + apply in_or_app. right. left. reflexivity.
    + reflexivity.
    + intros r' Hr' Ho'. apply in_app_or in Hr' as [Hr' | [<- | []]]; [| lia].
      rewrite (Hall r' Hr') in Ho'. discriminate.
  - destruct (get_time_range_oldest d Hc Hsome) as (r & Hr & Ho & Hold & Hg).
    exists (start r), (end_ r), d. split; [exact Hg |].
    apply consume_step; try assumption.
    intros x Hx. specialize (Hdate x Hx). lia.
Qed.

Lemma windows_consumed_in_order_witness :
  exists s e d1,
    Validator.get_time_range (mkDB [mkTimetable 738886 738887 true] [] []) =
      (Ok (s, e), d1) /\
    fst (mark_time_range_as_complete 0 s e d1) = true /\
    exists s' e' d3,
      Validator.get_time_range (snd (mark_time_range_as_complete 0 s e d1)) =
        (Ok (s', e'), d3) /\
      e <= s'.
Proof.
  apply (windows_consumed_in_order 0 (mkDB [mkTimetable 738886 738887 true] [] [])).
  - split.
    + exists [mkTimetable 738886 738887 true]. split; [reflexivity |].
      cbn. split; [lia | exact I].
    + cbn. constructor.
  - cbn [timetable In]. intros r [<- | []]. cbn [end_]. unfold date_max. lia.
Defined.

End TimetableKey.

(** ** The token-pair tables *)

Section TokenPairTables.

Import DBManager DBManagerQueries LedgerSpec LedgerFacts.

Lemma fetch_token_pairs_rows (s e : Z) (d : t) :
  fetch_token_pairs s e d = (window_rows s e d, ensure_token_pairs_table s e d).
Proof.
  unfold fetch_token_pairs. rewrite (proj1 (ensure_spec s e d)). reflexivity.
Qed.

Lemma fetch_incompleted_token_pairs_rows (s e : Z) (d : t) :
  fetch_incompleted_token_pairs s e d =
    (filter (fun r => negb (pair_completed r)) (window_rows s e d),
     ensure_token_pairs_table s e d).
Proof.
  unfold fetch_incompleted_token_pairs. rewrite (proj1 (ensure_spec s e d)). reflexivity.
Qed.

(** Reading a window's token pairs: [fetch_incompleted_token_pairs]
    returns the rows of [fetch_token_pairs] that are not completed, in the
    same order; both leave the same database, in which only the table of
    the window may be new; a window whose table is missing reads as empty;
    and reading again returns the same rows and changes nothing. *)
Theorem fetch_token_pairs_reads (s e : Z) (d : t) :
  let all := fetch_token_pairs s e d in
  let open := fetch_incompleted_token_pairs s e d in
  fst open = filter (fun r => negb (pair_completed r)) (fst all) /\
  snd open = snd all /\
  timetable (snd all) = timetable d /\
  (table_rows (s, e) (token_pairs d) = None -> fst all = []) /\
  (table_rows (s, e) (token_pairs d) <> None -> snd all = d) /\
  fetch_token_pairs s e (snd all) = all /\
  fetch_incompleted_token_pairs s e (snd all) = open.
Proof.
  cbv zeta. rewrite fetch_token_pairs_rows, fetch_incompleted_token_pairs_rows.
  cbn [fst snd]. rewrite fetch_token_pairs_rows, fetch_incompleted_token_pairs_rows.
  rewrite window_rows_ensure, ensure_ensure.
  split; [reflexivity |]. split; [reflexivity |].
  split; [exact (proj1 (proj2 (ensure_spec s e d))) |].
  split; [| split; [apply ensure_idem | split; reflexivity]].
  unfold window_rows. intros ->. reflexivity.
Qed.

Lemma fetch_token_pairs_reads_witness :
  fst (fetch_token_pairs 0 1 (mkDB [] [((2, 3), [mkTokenPair "a" "b" 5 false])] [])) = [].
Proof.
  apply (proj1 (proj2 (proj2 (proj2
           (fetch_token_pairs_reads 0 1
              (mkDB [] [((2, 3), [mkTokenPair "a" "b" 5 false])] [])))))).
  reflexivity.
Defined.

(** Mark and look up a token pair.  When the engine commits the [UPDATE],
    [mark_token_pair_as_complete] removes from
    [fetch_incompleted_token_pairs] exactly the rows of the given pair and
    fee, the others keeping their order, and [fetch_token_pairs] returns
    the rows it returned before, those of the pair now completed, in an
    order that depends on where the engine stored the new row versions;
    when the engine does not commit it, both queries return what they
    returned before. *)
Theorem mark_token_pair_then_fetch (slots : nat -> nat)
  (s e : Z) (a b : string) (f : Z) (d : t) :
  let committed := snd (mark_token_pair_as_complete true slots s e a b f d) in
  let discarded := snd (mark_token_pair_as_complete false slots s e a b f d) in
  fst (fetch_incompleted_token_pairs s e committed) =
    filter (fun r => negb (matches_token_pair a b f r))
      (fst (fetch_incompleted_token_pairs s e d)) /\
  Permutation (fst (fetch_token_pairs s e committed))
    (map (complete_pair a b f) (fst (fetch_token_pairs s e d))) /\
  fst (fetch_incompleted_token_pairs s e discarded) =
    fst (fetch_incompleted_token_pairs s e d) /\
  fst (fetch_token_pairs s e discarded) = fst (fetch_token_pairs s e d).
Proof.
  cbv zeta. rewrite !fetch_token_pairs_rows, !fetch_incompleted_token_pairs_rows.
  cbn [fst]. rewrite !window_rows_after_mark.
  split; [apply rewritten_open |]. split; [apply rewritten_perm |]. split; reflexivity.
Qed.

Lemma table_rows_set_other (k k' : Z * Z) (rows : list TokenPair) tables :
  window_eqb k k' = false ->
  table_rows k (set_table_rows k' rows tables) = table_rows k tables.
Proof.
  intros Hk. induction tables as [| [k0 rows0] tables IH]; cbn [set_table_rows table_rows].
  - rewrite Hk. reflexivity.
  - destruct (window_eqb k' k0) eqn:E0; cbn [table_rows].
    + apply window_eqb_eq in E0. subst k0. rewrite Hk. reflexivity.
    + rewrite IH. reflexivity.
Qed.

Lemma table_rows_app_other (k k' : Z * Z) (rows : list TokenPair) tables :
  window_eqb k k' = false ->
  table_rows k (tables ++ [(k', rows)]) = table_rows k tables.
Proof.
  intros Hk. induction tables as [| [k0 rows0] tables IH]; cbn [app table_rows].
  - rewrite Hk. reflexivity.
  - rewrite IH. reflexivity.
Qed.

Lemma window_rows_ensure_other (s e s' e' : Z) (d : t) :
  (s', e') <> (s, e) ->
  window_rows s' e' (ensure_token_pairs_table s e d) = window_rows s' e' d.
Proof.
  intros Hne. unfold window_rows, ensure_token_pairs_table.
  destruct (table_rows (s, e) (token_pairs d)); [reflexivity |].
  cbn [with_token_pairs token_pairs]. rewrite table_rows_app_other; [reflexivity |].
  destruct (window_eqb (s', e') (s, e)) eqn:E; [| reflexivity].
  apply window_eqb_eq in E. contradiction.
Qed.

(** The token-pair tables of different windows are independent: whatever
    [mark_token_pair_as_complete] does on the table of one window,
    [fetch_token_pairs] and [fetch_incompleted_token_pairs] on another
    window return the same rows as before, and the timetable is
    unchanged. *)
Theorem token_pair_windows_independent (autocommit : bool) (slots : nat -> nat)
  (s e s' e' : Z) (a b : string) (f : Z) (d : t) :
  (s', e') <> (s, e) ->
  let d' := snd (mark_token_pair_as_complete autocommit slots s e a b f d) in
  fst (fetch_token_pairs s' e' d') = fst (fetch_token_pairs s' e' d) /\
  fst (fetch_incompleted_token_pairs s' e' d') =
    fst (fetch_incompleted_token_pairs s' e' d) /\
  timetable d' = timetable d.
Proof.
  intros Hne. cbv zeta.
  rewrite !fetch_token_pairs_rows, !fetch_incompleted_token_pairs_rows. cbn [fst].
  assert (Hk : window_eqb (s', e') (s, e) = false).
  { destruct (window_eqb (s', e') (s, e)) eqn:E; [| reflexivity].
    apply window_eqb_eq in E. contradiction. }
  assert (Hrows : window_rows s' e'
                    (snd (mark_token_pair_as_complete autocommit slots s e a b f d)) =
                  window_rows s' e' d).
  { rewrite mark_token_pair_unfold. cbv zeta.
    destruct (find (matches_token_pair a b f) (window_rows s e d)); cbn [snd];
      [| apply window_rows_ensure_other; exact Hne].
    destruct autocommit; [| apply window_rows_ensure_other; exact Hne].
    unfold window_rows at 1. cbn [with_token_pairs token_pairs].
    rewrite table_rows_set_other by exact Hk.
    apply (window_rows_ensure_other s e s' e' d Hne). }
  rewrite Hrows. split; [reflexivity |]. split; [reflexivity |].
  rewrite mark_token_pair_unfold. cbv zeta.
  destruct (find (matches_token_pair a b f) (window_rows s e d)); cbn [snd];
    [| exact (proj1 (proj2 (ensure_spec s e d)))].
  destruct autocommit; cbn [with_token_pairs timetable];
    exact (proj1 (proj2 (ensure_spec s e d))).
Qed.

Lemma token_pair_windows_independent_witness :
  fst (fetch_token_pairs 2 3
         (snd (mark_token_pair_as_complete true (fun _ => 0%nat) 0 1 "a" "b" 5
                 (mkDB [] [((0, 1), [mkTokenPair "a" "b" 5 false]);
                           ((2, 3), [mkTokenPair "a" "b" 5 false])] [])))) =
  fst (fetch_token_pairs 2 3
         (mkDB [] [((0, 1), [mkTokenPair "a" "b" 5 false]);
                   ((2, 3), [mkTokenPair "a" "b" 5 false])] [])).
Proof.
  refine (proj1 (token_pair_windows_independent true (fun _ => 0%nat) 0 1 2 3 "a" "b" 5
                   (mkDB [] [((0, 1), [mkTokenPair "a" "b" 5 false]);
                             ((2, 3), [mkTokenPair "a" "b" 5 false])] []) _)).
  discriminate.
Defined.

End TokenPairTables.

(** ** The vote of [set_weights] on any input *)

Section Votes.

Import PyFloat Validator WeightSpec.

Lemma dict_set_length {V} (k : Z) (v : V) (d : dict V) :
  (length (dict_set k v d) <= S (length d))%nat.
Proof.
  induction d as [| [k' v'] d IH]; cbn [dict_set length]; [lia |].
  destruct (k =? k'); cbn [length]; lia.
Qed.

Lemma dict_fold_keys {V} (items : list (Z * V)) : forall acc : dict V,
  NoDup (dict_keys acc) ->
  let d := fold_left (fun d kv => dict_set (fst kv) (snd kv) d) items acc in
  NoDup (dict_keys d) /\
  (forall k, In k (dict_keys d) <-> In k (dict_keys acc) \/ In k (dict_keys items)) /\
  (length d <= length acc + length items)%nat.
Proof.
  induction items as [| [k v] items IH]; intros acc Hnd; cbn [fold_left fst snd].
  - cbv zeta. split; [exact Hnd |]. split; [| cbn [length]; lia].
    intros k. cbn. tauto.
  - destruct (IH (dict_set k v acc) (dict_set_nodup k v acc Hnd)) as (H1 & H2 & H3).
    cbv zeta in *. split; [exact H1 |]. split.
    + intros k0. rewrite H2, dict_set_keys. cbn [dict_keys map fst In].
      unfold dict_keys. intuition auto.
    + pose proof (dict_set_length k v acc). cbn [length]. lia.
Qed.

Lemma weighted_scores_loop_keys (scores : float) (items : list (Z * float)) :
  forall (acc ws : dict Z),
  NoDup (dict_keys acc) ->
  weighted_scores_loop items scores acc = Ok ws ->
  NoDup (dict_keys ws) /\
  (forall k, In k (dict_keys ws) <-> In k (dict_keys acc) \/ In k (dict_keys items)) /\
  (length ws <= length acc + length items)%nat.
Proof.
  induction items as [| [uid score] items IH]; intros acc ws Hnd H;
    cbn [weighted_scores_loop] in H.
  - injection H as <-. split; [exact Hnd |]. split; [| cbn [length]; lia].
    intros k. cbn. tauto.
  - destruct (weight score scores) as [w | ex]; cbn [rbind] in H; [| discriminate].
    destruct (IH _ _ (dict_set_nodup uid w acc Hnd) H) as (H1 & H2 & H3).
    split; [exact H1 |]. split.
    + intros k0. rewrite H2, dict_set_keys. cbn [dict_keys map fst In].
      unfold dict_keys. intuition auto.
    + pose proof (dict_set_length uid w acc). cbn [length]. lia.
Qed.

Lemma NoDup_keys_filter {V} (f : Z * V -> bool) (d : dict V) :
  NoDup (dict_keys d) -> NoDup (dict_keys (filter f d)).
Proof.
  unfold dict_keys. induction d as [| kv d IH]; intros H; cbn [filter map]; [constructor |].
  cbn [map] in H. inversion H as [| ? ? Hfresh Hnd]; subst.
  destruct (f kv); cbn [map]; [| apply IH; exact Hnd].
  constructor; [| apply IH; exact Hnd].
  intros Hin. apply Hfresh. apply in_map_iff in Hin as (x & Ex & Hx).
  apply filter_In in Hx as [Hx _]. rewrite <- Ex. apply in_map. exact Hx.
Qed.

Lemma py_slice_to_In {A} (l : list A) (N : Z) (x : A) :
  In x (py_slice_to l N) -> In x l.
Proof.
  unfold py_slice_to. destruct (0 <=? N); apply In_firstn.
Qed.

Lemma py_slice_to_length {A} (l : list A) (N : Z) :
  (length (py_slice_to l N) <= cut_length N (length l))%nat.
Proof.
  unfold py_slice_to, cut_length.
  destruct (0 <=? N); rewrite length_firstn; lia.
Qed.

(** Whenever [set_weights] reaches [client.vote], whatever the scores
    and the limit, the vote is well formed: [uids] and [weights] have the
    same length, no uid occurs twice, every uid is a key of the score
    dictionary, no weight is zero, and there are at most as many entries as
    the slice [[:max_allowed_weights]] keeps. *)
Theorem set_weights_vote_well_formed (N : Z) (score_dict : dict float)
  (uids weights : list Z) :
  set_weights N score_dict = Ok (uids, weights) ->
  length uids = length weights /\
  NoDup uids /\
  (forall uid, In uid uids -> In uid (dict_keys score_dict)) /\
  ~ In 0 weights /\
  (length uids <= cut_length N (length score_dict))%nat.
Proof.
  unfold set_weights, cut_to_max_allowed_weights, dict_of_items.
  set (cut_scores := py_slice_to (sorted_desc score_dict) N).
  pose proof (dict_fold_keys cut_scores [] (NoDup_nil _)) as Hd. cbv zeta in Hd.
  set (retained := fold_left (fun d kv => dict_set (fst kv) (snd kv) d) cut_scores []) in *.
  destruct Hd as (_ & Hkeys & Hlen).
  destruct (weighted_scores_loop retained _ []) as [ws | ex] eqn:E; cbn [rbind];
    [| discriminate].
  intros H. injection H as <- <-.
  destruct (weighted_scores_loop_keys _ _ [] _ (NoDup_nil _) E) as (Hnd & Hws & Hlen').
  unfold dict_keys, dict_values in *.
  split; [rewrite !length_map; reflexivity |].
  split; [apply (NoDup_keys_filter _ ws Hnd) |].
  split; [| split].
  - intros uid Hin. apply in_map_iff in Hin as (kv & Ek & Hkv).
    apply filter_In in Hkv as [Hkv _].
    assert (Hr : In uid (map fst ws)) by (rewrite <- Ek; apply in_map; exact Hkv).
    apply Hws in Hr as [[] | Hr].
    apply Hkeys in Hr as [[] | Hr].
    apply in_map_iff in Hr as (kv' & Ek' & Hkv'). apply py_slice_to_In in Hkv'.
    rewrite <- Ek'. apply in_map.
    apply (Permutation_in _ (sorted_desc_perm score_dict)). exact Hkv'.
  - intros Hin. apply in_map_iff in Hin as (kv & Ek & Hkv).
    apply filter_In in Hkv as [_ Hnz]. rewrite Ek in Hnz. discriminate.
  - rewrite length_map.
    pose proof (filter_length_le (fun kv : Z * Z => negb (snd kv =? 0)) ws).
    pose proof (py_slice_to_length (sorted_desc score_dict) N) as Hs.
    rewrite sorted_desc_length in Hs. fold cut_scores in Hs.
    cbn [length] in *. lia.
Qed.

Lemma set_weights_vote_well_formed_witness :
  length [1; 2] = length [500; 500] /\
  NoDup [1; 2] /\
  (forall uid, In uid [1; 2] -> In uid (dict_keys [(1, f0_9); (2, f0_9); (3, f0_9)])) /\
  ~ In 0 [500; 500] /\
  (length [1; 2] <= cut_length 2 (length [(1, f0_9); (2, f0_9); (3, f0_9)]))%nat.
Proof.
  apply (set_weights_vote_well_formed 2 [(1, f0_9); (2, f0_9); (3, f0_9)]).
  vm_compute. reflexivity.
Defined.

Lemma fsum_zeros (xs : list float) :
  Forall (fun x => x = 0%float) xs -> fold_left PrimFloat.add xs 0%float = 0%float.
Proof.
  induction xs as [| x xs IH]; intros H; cbn [fold_left]; [reflexivity |].
  inversion H as [| ? ? Hx Hxs]; subst.
  replace (0 + 0)%float with 0%float by (vm_compute; reflexivity).
  apply IH. exact Hxs.
Qed.

(** The edge cases of [set_weights].  When the slice keeps nothing
    (an empty score dictionary, a limit of [0], or a negative limit that
    drops every item), an empty vote is sent.  When something is kept and
    every score is [0.0], the sum of the scores is zero and the first
    division raises [ZeroDivisionError], so no vote is sent. *)
Theorem set_weights_edge_cases (N : Z) (score_dict : dict float) :
  NoDup (dict_keys score_dict) ->
  (cut_length N (length score_dict) = 0%nat \/ score_dict = [] ->
   set_weights N score_dict = Ok ([], [])) /\
  (cut_length N (length score_dict) <> 0%nat -> score_dict <> [] ->
   Forall (fun kv => snd kv = 0%float) score_dict ->
   set_weights N score_dict = Raise ZeroDivisionError).
Proof.
  intros Hnd. unfold set_weights. rewrite (cut_is_prefix score_dict N Hnd). split.
  - intros [H0 | H0].
    + rewrite H0. reflexivity.
    + subst score_dict. rewrite firstn_nil. reflexivity.
  - intros Hc Hne Hz.
    assert (Hall : Forall (fun kv : Z * float => snd kv = 0%float)
                     (firstn (cut_length N (length score_dict)) (sorted_desc score_dict))).
    { rewrite Forall_forall in *. intros kv Hkv. apply Hz.
      apply (Permutation_in _ (sorted_desc_perm score_dict)).
      apply (In_firstn _ _ _ Hkv). }
    destruct (firstn _ (sorted_desc score_dict)) as [| [uid score] rest] eqn:E.
    + exfalso. apply (f_equal (@length _)) in E.
      rewrite length_firstn, sorted_desc_length in E. cbn [length] in E.
      destruct score_dict; [congruence | cbn [length] in *; lia].
    + assert (Hsum : PyFloat.sum (dict_values ((uid, score) :: rest)) = 0%float).
      { apply fsum_zeros. unfold dict_values. rewrite Forall_forall in *.
        intros x Hx. apply in_map_iff in Hx as (kv & <- & Hkv). apply Hall. exact Hkv. }
      rewrite Hsum. inversion Hall as [| ? ? Hs _]; subst. cbn [snd] in Hs. subst score.
      reflexivity.
Qed.

Lemma set_weights_edge_cases_witness :
  set_weights 2 [(7, 0%float); (8, 0%float)] = Raise ZeroDivisionError.
Proof.
  refine (proj2 (set_weights_edge_cases 2 [(7, 0%float); (8, 0%float)] _) _ _ _).
  - cbn. repeat constructor; cbn [In]; intros H; repeat destruct H as [H | H];
      try discriminate H; exact H.
  - vm_compute. discriminate.
  - discriminate.
  - repeat constructor.
Defined.

Lemma insert_desc_last (x : Z * float) (l : list (Z * float)) :
  Forall (fun y => (snd y <? snd x)%float = false) l -> insert_desc x l = l ++ [x].
Proof.
  induction l as [| y l IH]; intros H; cbn [insert_desc app]; [reflexivity |].
  inversion H as [| ? ? Hy Hl]; subst. rewrite Hy, (IH Hl). reflexivity.
Qed.

Lemma sorted_desc_acc_id (items : list (Z * float)) : forall acc,
  ForallOrdPairs (fun a b => (snd a <? snd b)%float = false) (acc ++ items) ->
  fold_left (fun acc x => insert_desc x acc) items acc = acc ++ items.
Proof.
  induction items as [| x items IH]; intros acc H; cbn [fold_left].
  - rewrite app_nil_r. reflexivity.
  - assert (Hx : Forall (fun y => (snd y <? snd x)%float = false) acc).
    { clear IH. induction acc as [| a acc IHa]; [constructor |].
      cbn [app] in H. inversion H as [| ? ? Ha Hrest]; subst.
      constructor; [| apply IHa; exact Hrest].
      rewrite Forall_forall in Ha. apply Ha. apply in_or_app. right. left. reflexivity. }
    rewrite (insert_desc_last x acc Hx), IH; rewrite <- app_assoc; [reflexivity | exact H].
Qed.

(** Ties keep the dictionary order: when no score is below the
    score of a later item, in particular when all scores are equal as in
    the dictionary [validate_step] builds, the sort leaves the items in
    place and [cut_to_max_allowed_weights] keeps the first
    [max_allowed_weights] items of the dictionary. *)
Theorem equal_scores_keep_dict_order (score_dict : dict float) (N : Z) :
  NoDup (dict_keys score_dict) ->
  ForallOrdPairs (fun a b => (snd a <? snd b)%float = false) score_dict ->
  sorted_desc score_dict = score_dict /\
  cut_to_max_allowed_weights score_dict N = py_slice_to score_dict N.
Proof.
  intros Hnd Hord.
  assert (Hs : sorted_desc score_dict = score_dict).
  { unfold sorted_desc. apply (sorted_desc_acc_id score_dict []). exact Hord. }
  split; [exact Hs |].
  unfold cut_to_max_allowed_weights. rewrite Hs. apply dict_of_items_nodup.
  unfold py_slice_to, dict_keys.
  destruct (0 <=? N); rewrite <- firstn_map; apply NoDup_firstn; exact Hnd.
Qed.

Lemma equal_scores_keep_dict_order_witness :
  cut_to_max_allowed_weights [(5, f0_9); (3, f0_9); (9, f0_9)] 2 =
    py_slice_to [(5, f0_9); (3, f0_9); (9, f0_9)] 2.
Proof.
  refine (proj2 (equal_scores_keep_dict_order [(5, f0_9); (3, f0_9); (9, f0_9)] 2 _ _)).
  - cbn. repeat constructor; cbn [In]; intros H; repeat destruct H as [H | H];
      try discriminate H; exact H.
  - repeat constructor.
Defined.

End Votes.

(** ** The accepted answers and the vote of a round *)

Section AcceptedAnswers.

Import PyFloat Validator WeightSpec RoundSpec RoundFacts.

Lemma consensus_accepts (iter : list string -> list string)
  (answers : list (option miner_answer)) (hashes : list string) :
  set_order iter -> answers <> [] -> Forall2 has_fingerprint answers hashes ->
  exists h,
    consensus iter answers = Ok h /\ In h hashes /\
    forall h', In h' hashes -> (count hashes h' <= count hashes h)%nat.
Proof.
  intros Hord Hne Hfp.
  unfold consensus. rewrite (rmapM_fingerprints _ _ Hfp). cbn [rbind].
  unfold most_common_hash, py_max.
  destruct (Hord hashes) as [_ Hin].
  destruct (iter hashes) as [| x rest] eqn:Ei.
  - exfalso. destruct Hfp as [| a h0 answers hashes Ha _]; [congruence |].
    apply (Hin h0). left. reflexivity.
  - destruct (max_from_spec (count hashes) rest x) as (pre & post & E & _ & Hmax).
    exists (max_from (count hashes) x rest). split; [reflexivity |].
    split.
    + apply Hin. rewrite E. apply in_or_app. right. left. reflexivity.
    + intros h' Hh'. apply Hmax. apply Hin. exact Hh'.
Qed.

(** With a strict plurality the accepted fingerprint does not depend
    on the interpreter: when one fingerprint is carried by more answers
    than any other, the consensus step returns it under every admissible
    set iteration order. *)
Theorem consensus_strict_plurality (iter : list string -> list string)
  (answers : list (option miner_answer)) (hashes : list string) (h : string) :
  set_order iter -> Forall2 has_fingerprint answers hashes ->
  In h hashes ->
  (forall h', In h' hashes -> h' <> h -> (count hashes h' < count hashes h)%nat) ->
  consensus iter answers = Ok h.
Proof.
  intros Hord Hfp Hin Hstrict.
  assert (Hne : answers <> []).
  { intros ->. inversion Hfp; subst. destruct Hin. }
  destruct (consensus_accepts iter answers hashes Hord Hne Hfp) as (m & E & Hm & Hmax).
  rewrite E. f_equal. destruct (string_dec m h) as [-> | Hneq]; [reflexivity |].
  specialize (Hstrict m Hm Hneq). specialize (Hmax h Hin). lia.
Qed.

Lemma consensus_strict_plurality_witness :
  consensus set_iter_reversed
    [Some (mkAnswer (Some "A"%string) None false); Some (mkAnswer (Some "B"%string) None false);
     Some (mkAnswer (Some "A"%string) None false)] = Ok "A"%string.
Proof.
  apply (consensus_strict_plurality set_iter_reversed _
           ["A"%string; "B"%string; "A"%string]).
  - exact set_iter_reversed_order.
  - repeat constructor; eexists; split; reflexivity.
  - left. reflexivity.
  - intros h' [<- | [<- | [<- | []]]] Hne; try congruence. vm_compute. lia.
Defined.

Lemma agreeing_filter (h : string) (results : list (Z * option miner_answer)) :
  forall hashes,
  Forall2 has_fingerprint (map snd results) hashes ->
  agreeing h results = Ok (filter (fingerprint_is h) results) /\
  length (filter (fingerprint_is h) results) = count hashes h.
Proof.
  induction results as [| [key a] results IH]; intros hashes Hfp; cbn [map snd] in Hfp.
  - inversion Hfp; subst. split; reflexivity.
  - inversion Hfp as [| ? h0 ? hashes' (d & Ea & Eh) Hrest]; subst.
    destruct (IH _ Hrest) as (E & Hlen).
    assert (Ef : fingerprint_is h (key, Some d) = String.eqb h0 h)
      by (unfold fingerprint_is; cbn [snd subscript_overall_hash]; rewrite Eh; reflexivity).
    cbn [agreeing filter subscript_overall_hash]. rewrite Ef, Eh, E. cbn [rbind].
    unfold count in *. cbn [count_occ].
    destruct (String.eqb_spec h0 h) as [-> | Hne].
    + split; [reflexivity |]. destruct (string_dec h h); [| congruence].
      cbn [length]. rewrite Hlen. reflexivity.
    + split; [reflexivity |]. destruct (string_dec h0 h); [congruence | exact Hlen].
Qed.

Lemma combine_snd {A B} (l : list A) : forall l' : list B,
  length l = length l' -> map snd (combine l l') = l'.
Proof.
  induction l as [| x l IH]; intros [| y l'] H; cbn in *; try discriminate; [reflexivity |].
  rewrite IH by lia. reflexivity.
Qed.

(** The accepted answers are not empty when the fingerprints are strings:
    when every polled worker returned a dictionary whose [overall_hash] is
    a string, the comprehension keeps, in order, exactly the results whose
    fingerprint is the accepted one, as many as answers carry it, and at
    least one; so [miner_results[0]] does not raise [IndexError], and
    every kept answer is truthy. *)
Theorem accepted_answers_nonempty (iter : list string -> list string)
  (keys : list Z) (answers : list (option miner_answer)) (hashes : list string) :
  set_order iter -> answers <> [] -> Forall2 has_fingerprint answers hashes ->
  length keys = length answers ->
  exists h first rest,
    consensus iter answers = Ok h /\
    agreeing h (combine keys answers) = Ok (first :: rest) /\
    first :: rest = filter (fingerprint_is h) (combine keys answers) /\
    length (first :: rest) = count hashes h /\
    forall kv, In kv (first :: rest) ->
               has_fingerprint (snd kv) h /\ truthy (snd kv) = true.
Proof.
  intros Hord Hne Hfp Hlen.
  destruct (consensus_accepts iter answers hashes Hord Hne Hfp) as (h & E & Hin & _).
  assert (Hfp' : Forall2 has_fingerprint (map snd (combine keys answers)) hashes)
    by (rewrite combine_snd by exact Hlen; exact Hfp).
  destruct (agreeing_filter h (combine keys answers) hashes Hfp') as (Eag & Hcount).
  assert (Hpos : (0 < count hashes h)%nat) by (apply count_occ_In; exact Hin).
  destruct (filter (fingerprint_is h) (combine keys answers)) as [| first rest] eqn:Ef.
  - cbn [length] in Hcount. lia.
  - exists h, first, rest. split; [exact E |]. split; [exact Eag |].
    split; [symmetry; exact Ef |]. split; [exact Hcount |].
    intros kv Hkv. rewrite <- Ef in Hkv. apply filter_In in Hkv as [_ Hkv].
    unfold fingerprint_is, subscript_overall_hash in Hkv.
    destruct (snd kv) as [d |]; [| discriminate].
    destruct (overall_hash d) as [h' |] eqn:Eh; [| discriminate].
    apply String.eqb_eq in Hkv. subst h'. split.
    + exists d. split; [reflexivity | exact Eh].
    + unfold truthy. rewrite Eh. reflexivity.
Qed.

Lemma accepted_answers_nonempty_witness :
  exists h first rest,
    consensus set_iter_reversed
      [Some (mkAnswer (Some "A"%string) None false); Some (mkAnswer (Some "B"%string) None false);
       Some (mkAnswer (Some "A"%string) None false)] = Ok h /\
    agreeing h
      (combine [4; 5; 6]
         [Some (mkAnswer (Some "A"%string) None false); Some (mkAnswer (Some "B"%string) None false);
          Some (mkAnswer (Some "A"%string) None false)]) = Ok (first :: rest).
Proof.
  destruct (accepted_answers_nonempty set_iter_reversed [4; 5; 6]
              [Some (mkAnswer (Some "A"%string) None false); Some (mkAnswer (Some "B"%string) None false);
               Some (mkAnswer (Some "A"%string) None false)]
              ["A"%string; "B"%string; "A"%string])
    as (h & first & rest & E & Eag & _).
  - exact set_iter_reversed_order.
  - discriminate.
  - repeat constructor; eexists; split; reflexivity.
  - reflexivity.
  - exists h, first, rest. split; [exact E | exact Eag].
Defined.

Lemma agreeing_truthy (h : string) (results : list (Z * option miner_answer)) :
  forall kept,
  agreeing h results = Ok kept ->
  forall kv, In kv kept -> In kv results /\ truthy (snd kv) = true.
Proof.
  induction results as [| [key a] results IH]; intros kept H; cbn [agreeing] in H.
  - injection H as <-. intros kv [].
  - destruct (subscript_overall_hash a) as [h0 | ex] eqn:Eh; cbn [rbind] in H;
      [| discriminate].
    destruct (agreeing h results) as [l | ex]; cbn [rbind] in H; [| discriminate].
    injection H as <-. specialize (IH l eq_refl).
    assert (Ht : truthy a = true).
    { unfold subscript_overall_hash in Eh. destruct a as [d |]; [| discriminate].
      unfold truthy. destruct (overall_hash d); [reflexivity | discriminate]. }
    intros kv Hkv. destruct (String.eqb h0 h).
    + destruct Hkv as [<- | Hkv]; [split; [left; reflexivity | exact Ht] |].
      destruct (IH kv Hkv). split; [right |]; assumption.
    + destruct (IH kv Hkv). split; [right |]; assumption.
Qed.

(** A round whose accepted answer passes verification always sends
    exactly one vote: no accepted answer is skipped as missing, the score
    dictionary holds the uid of every accepted result, so the branch on an
    empty score dictionary is not taken, [set_weights] does not raise, and
    the round returns with its vote added and nothing else changed except
    the random draws made by the verification. *)
Theorem verified_round_votes_once (e : env)
  (modules_info : dict (list string * string)) (prompt : option miner_prompt)
  (w w1 : world) (h : string) (first : Z * option miner_answer)
  (rest : list (Z * option miner_answer)) :
  let miner_answers := map (miner_call e prompt) (dict_values modules_info) in
  consensus (set_iter e) miner_answers = Ok h ->
  agreeing h (combine (dict_keys modules_info) miner_answers) = Ok (first :: rest) ->
  check_miner_answer e prompt (snd first) w = (Ok true, w1) ->
  exists score_dict uids weights,
    score_loop prompt (first :: rest) [] = Ok score_dict /\
    (forall uid, In uid (dict_keys score_dict) <-> In uid (map fst (first :: rest))) /\
    Forall (fun kv => snd kv = f0_9) score_dict /\
    set_weights (max_allowed_weights e) score_dict = Ok (uids, weights) /\
    validate_step_with_prompt e modules_info prompt w =
      (Ok tt, mkWorld (db w) ((uids, weights) :: votes w) (draws w1)).
Proof.
  intros miner_answers Hcons Hag Hcheck.
  pose proof (agreeing_truthy _ _ _ Hag) as Htruthy.
  destruct (score_loop_spec prompt (first :: rest) [] (NoDup_nil _) (Forall_nil _))
    as (score_dict & Hloop & Hnd & Hall & Hkeys).
  assert (Hkeys' : forall uid,
             In uid (dict_keys score_dict) <-> In uid (map fst (first :: rest))).
  { intros uid. rewrite Hkeys. split.
    - intros [[] | (a & Ha & _)]. apply (in_map fst) in Ha. exact Ha.
    - intros Hin. apply in_map_iff in Hin as ([uid' a] & <- & Hkv). right.
      exists a. split; [exact Hkv | apply (Htruthy _ Hkv)]. }
  assert (Hunit : Forall (fun kv : Z * float => unit_score (snd kv)) score_dict).
  { eapply Forall_impl; [| exact Hall]. cbn beta. intros kv ->. exact unit_score_f0_9. }
  destruct (set_weights_returns score_dict (max_allowed_weights e) Hnd Hunit)
    as (ws & _ & Hset). cbv zeta in Hset.
  eexists score_dict, _, _. split; [exact Hloop |]. split; [exact Hkeys' |].
  split; [exact Hall |]. split; [exact Hset |].
  destruct (check_miner_answer_frame _ _ _ _ _ _ Hcheck) as (Hdb & Hvotes).
  unfold validate_step_with_prompt, bind, lift. fold miner_answers.
  rewrite Hcons, Hag, Hcheck. cbn [negb]. rewrite Hloop.
  destruct score_dict as [| kv0 score_dict'].
  - exfalso. apply (proj2 (Hkeys' (fst first))). left. reflexivity.
  - rewrite Hset. unfold client_vote. rewrite Hdb, Hvotes. reflexivity.
Qed.

Lemma verified_round_votes_once_witness :
  exists score_dict uids weights,
    score_loop (Some prompt0) [(1, Some answer0); (2, Some answer0)] [] = Ok score_dict /\
    set_weights (max_allowed_weights env0) score_dict = Ok (uids, weights) /\
    validate_step_with_prompt env0 (modules_info_of env0) (Some prompt0) world0 =
      (Ok tt, mkWorld (db world0) ((uids, weights) :: votes world0) 10).
Proof.
  destruct (verified_round_votes_once env0 (modules_info_of env0) (Some prompt0)
              world0 (after_draws world0 10) "A"%string (1, Some answer0)
              [(2, Some answer0)])
    as (score_dict & uids & weights & H1 & _ & _ & H2 & H3).
  - vm_compute. reflexivity.
  - vm_compute. reflexivity.
  - vm_compute. reflexivity.
  - exists score_dict, uids, weights. split; [exact H1 |]. split; [exact H2 | exact H3].
Defined.

Lemma rmapM_raises (answers : list (option miner_answer)) (ex : exn) :
  rmapM subscript_overall_hash answers = Raise ex -> ex = TypeError \/ ex = KeyError.
Proof.
  induction answers as [| a answers IH]; cbn [rmapM]; [discriminate |].
  unfold subscript_overall_hash at 1. destruct a as [d |]; cbn [rbind].
  - destruct (overall_hash d); cbn [rbind].
    + destruct (rmapM subscript_overall_hash answers); cbn [rbind]; [discriminate |].
      intros H. injection H as <-. apply IH. reflexivity.
    + intros H. injection H as <-. right. reflexivity.
  - intros H. injection H as <-. left. reflexivity.
Qed.

Lemma agreeing_raises (h : string) (results : list (Z * option miner_answer)) (ex : exn) :
  agreeing h results = Raise ex -> ex = TypeError \/ ex = KeyError.
Proof.
  induction results as [| [key a] results IH]; cbn [agreeing]; [discriminate |].
  unfold subscript_overall_hash at 1. destruct a as [d |]; cbn [rbind].
  - destruct (overall_hash d); cbn [rbind].
    + destruct (agreeing h results); cbn [rbind]; [discriminate |].
      intros H. injection H as <-. apply IH. reflexivity.
    + intros H. injection H as <-. right. reflexivity.
  - intros H. injection H as <-. left. reflexivity.
Qed.

Lemma rmapM_fingerprints_inv (answers : list (option miner_answer)) :
  forall hashes,
  rmapM subscript_overall_hash answers = Ok hashes ->
  Forall2 has_fingerprint answers hashes.
Proof.
  induction answers as [| a answers IH]; intros hashes H; cbn [rmapM] in H.
  - injection H as <-. constructor.
  - unfold subscript_overall_hash at 1 in H. destruct a as [d |]; [| discriminate].
    destruct (overall_hash d) as [h0 |] eqn:Eh; [| discriminate]. cbn [rbind] in H.
    destruct (rmapM subscript_overall_hash answers) as [hs |]; [| discriminate].
    cbn [rbind] in H. injection H as <-. constructor; [| apply IH; reflexivity].
    exists d. split; [reflexivity | exact Eh].
Qed.

(** As the file is written, the validator never votes.
    [get_miner_prompt] ends without a [return], so every round whose
    validator key is registered reaches [check_miner_answer] with the
    prompt [None] at the latest and raises there; [validation_loop] has no
    handler.  So the loop ends in its first round with an exception, no
    vote sent and no random draw made, and the database is as
    [get_time_range] left it; the exception is [RuntimeError] when the key
    is not registered, the exception of [get_time_range] when that call
    fails, and otherwise the exception of the consensus step or the
    [AttributeError] of [check_miner_answer]. *)
Theorem validation_loop_never_votes (e : env) (w : world) (rounds : nat) :
  exists ex w',
    validation_loop (S rounds) e w = (Raise ex, w') /\
    votes w' = votes w /\ draws w' = draws w /\
    (db w' = db w \/ db w' = snd (get_time_range (db w))) /\
    (existsb (String.eqb (val_ss58 e)) (dict_values (query_map_key e)) = false ->
     ex = RuntimeError /\ w' = w) /\
    (existsb (String.eqb (val_ss58 e)) (dict_values (query_map_key e)) = true ->
     (forall ex0, fst (get_time_range (db w)) = Raise ex0 -> ex = ex0) /\
     (forall range, fst (get_time_range (db w)) = Ok range ->
        let answers := map (miner_call e None) (dict_values (modules_info_of e)) in
        match consensus (set_iter e) answers with
        | Raise ex0 => ex = ex0
        | Ok h =>
            match agreeing h (combine (dict_keys (modules_info_of e)) answers) with
            | Raise ex0 => ex = ex0
            | Ok [] => ex = IndexError
            | Ok (_ :: _) => ex = AttributeError
            end
        end)).
Proof.
  cbn [validation_loop]. unfold bind at 1. unfold validate_step.
  destruct (existsb _ _) eqn:Ereg; cbn [negb].
  2:{ unfold lift. exists RuntimeError, w.
      split; [reflexivity |]. split; [reflexivity |]. split; [reflexivity |].
      split; [left; reflexivity |]. split; [auto | discriminate]. }
  unfold bind at 1. unfold get_miner_prompt.
  destruct (get_time_range (db w)) as [[range | ex] d1] eqn:Eg; cbn [fst snd].
  2:{ exists ex, (mkWorld d1 (votes w) (draws w)).
      split; [reflexivity |]. split; [reflexivity |]. split; [reflexivity |].
      split; [right; reflexivity |]. split; [discriminate |]. intros _.
      split; [intros ex0 H; injection H as <-; reflexivity | discriminate]. }
  set (w0 := mkWorld d1 (votes w) (draws w)).
  unfold validate_step_with_prompt, bind, lift.
  set (answers := map (miner_call e None) (dict_values (modules_info_of e))).
  destruct (consensus (set_iter e) answers) as [h | ex] eqn:Ec.
  2:{ exists ex, w0. split; [reflexivity |].
      split; [reflexivity |]. split; [reflexivity |]. split; [right; reflexivity |].
      split; [discriminate |]. intros _. split; [discriminate |].
      intros range0 _. cbv zeta. fold answers. rewrite ?Ec. reflexivity. }
  destruct (agreeing h (combine (dict_keys (modules_info_of e)) answers))
    as [[| first rest] | ex] eqn:Ea.
  - exists IndexError, w0. split; [reflexivity |].
    split; [reflexivity |]. split; [reflexivity |]. split; [right; reflexivity |].
    split; [discriminate |]. intros _. split; [discriminate |].
    intros range0 _. cbv zeta. fold answers. rewrite ?Ec, ?Ea. reflexivity.
  - exists AttributeError, w0. cbn [check_miner_answer]. unfold lift.
    split; [reflexivity |].
    split; [reflexivity |]. split; [reflexivity |]. split; [right; reflexivity |].
    split; [discriminate |]. intros _. split; [discriminate |].
    intros range0 _. cbv zeta. fold answers. rewrite ?Ec, ?Ea. reflexivity.
  - exists ex, w0. split; [reflexivity |].
    split; [reflexivity |]. split; [reflexivity |]. split; [right; reflexivity |].
    split; [discriminate |]. intros _. split; [discriminate |].
    intros range0 _. cbv zeta. fold answers. rewrite ?Ec, ?Ea. reflexivity.
Qed.

Lemma nodup_set_order : set_order (nodup string_dec).
Proof.
  intros xs. split; [apply NoDup_nodup | intros x; apply nodup_In].
Qed.

Lemma check_samples_draws (e : env) (lo hi : Z) (data : option (list block_data))
  (n : nat) : forall w,
  let res := check_samples e n lo hi data w in
  (draws w <= draws (snd res) <= draws w + n)%nat /\
  (fst res = Ok true -> draws (snd res) = (draws w + n)%nat) /\
  (forall ex, fst res = Raise ex -> In ex [TypeError; IndexError; KeyError]).
Proof.
  induction n as [| n IH]; intros w; cbv zeta.
  - cbn [check_samples]. unfold ret. cbn [fst snd].
    split; [lia |]. split; [intros _; lia | discriminate].
  - cbn [check_samples]. unfold bind, random_choice.
    destruct data as [[| x l] |].
    + cbn [fst snd]. split; [lia |]. split; [discriminate |].
      intros ex H. injection H as <-. cbn [In]. auto 10.
    + set (w1 := mkWorld (db w) (votes w) (S (draws w))).
      set (block := nth _ (x :: l) x).
      destruct (block_number block) as [bn |].
      * destruct ((bn <? lo) || (bn >? hi)).
        -- unfold ret. cbn [fst snd draws w1]. split; [lia |].
           split; discriminate.
        -- destruct (hash block) as [h0 |].
           ++ destruct (negb _).
              ** unfold ret. cbn [fst snd draws w1]. split; [lia |]. split; discriminate.
              ** specialize (IH w1). cbv zeta in IH. cbn [draws w1] in IH.
                 destruct IH as (H1 & H2 & H3).
                 split; [lia |]. split; [| exact H3].
                 intros H. rewrite (H2 H). lia.
           ++ unfold lift. cbn [fst snd draws w1]. split; [lia |].
              split; [discriminate |]. intros ex H. injection H as <-. cbn [In]. auto 10.
      * unfold ret. cbn [fst snd draws w1]. split; [lia |]. split; discriminate.
    + cbn [fst snd]. split; [lia |]. split; [discriminate |].
      intros ex H. injection H as <-. cbn [In]. auto 10.
Qed.

(** The cost and the failures of [check_miner_answer]: it makes at most
    ten random draws, and exactly ten when it returns [True].  It raises
    [AttributeError], before any draw, when the prompt is [None]; with a
    prompt it raises [NameError] when [rust_backend] is not bound, as in
    the file; with [rust_backend] bound to an oracle it raises
    [AttributeError] when the answer is [None], [TypeError] when the
    answer has no [data] and [IndexError] when [data] is empty, and
    otherwise only [KeyError], on a sampled record without a [hash]. *)
Theorem check_miner_answer_cost_and_failures (e : env) (prompt : option miner_prompt)
  (a : option miner_answer) (w : world) :
  let res := check_miner_answer e prompt a w in
  (draws w <= draws (snd res) <= draws w + 10)%nat /\
  (fst res = Ok true -> draws (snd res) = (draws w + 10)%nat) /\
  (forall ex, fst res = Raise ex ->
              In ex [AttributeError; NameError; TypeError; IndexError; KeyError]) /\
  (prompt = None -> res = (Raise AttributeError, w)) /\
  (prompt <> None -> rust_backend_bound e = false -> res = (Raise NameError, w)) /\
  (prompt <> None -> rust_backend_bound e = true ->
   (a = None -> res = (Raise AttributeError, w)) /\
   (forall d, a = Some d ->
              (data d = None -> res = (Raise TypeError, w)) /\
              (data d = Some [] -> res = (Raise IndexError, w)))).
Proof.
  cbv zeta. unfold check_miner_answer.
  destruct prompt as [p |].
  2:{ unfold lift. cbn [fst snd]. split; [lia |]. split; [discriminate |].
      split; [intros ex H; injection H as <-; cbn [In]; auto 10 |].
      split; [reflexivity |]. split; intros H; contradiction H; reflexivity. }
  destruct (rust_backend_bound e); cbn [negb].
  2:{ unfold lift. cbn [fst snd]. split; [lia |]. split; [discriminate |].
      split; [intros ex H; injection H as <-; cbn [In]; auto 10 |].
      split; [discriminate |]. split; [reflexivity | discriminate]. }
  destruct (fetch_block_range e _ _ _ _) as [lo hi].
  destruct a as [d |].
  2:{ unfold lift. cbn [fst snd]. split; [lia |]. split; [discriminate |].
      split; [intros ex H; injection H as <-; cbn [In]; auto 10 |].
      split; [discriminate |]. split; [discriminate |].
      intros _ _. split; [reflexivity | discriminate]. }
  destruct (check_samples_draws e lo hi (data d) ANSWER_CHECK_COUNT w) as (H1 & H2 & H3).
  change ANSWER_CHECK_COUNT with 10%nat in *.
  split; [exact H1 |]. split; [exact H2 |]. split; [| split; [| split]].
  - intros ex H. specialize (H3 ex H). cbn [In] in *. intuition auto.
  - discriminate.
  - discriminate.
  - intros _ _. split; [discriminate |].
    intros d' H. injection H as <-. split; intros ->; reflexivity.
Qed.

End AcceptedAnswers.

(** ** Addresses: [extract_address], [get_ip_port], [get_subnet_netuid] *)

Section Addresses.

Import Validator ValidatorFunctions AddressFacts.

Local Open Scope string_scope.

Lemma take_drop (n : nat) : forall s, s = take n s ++ drop n s.
Proof.
  induction n as [| n IH]; intros [| c s]; cbn; try reflexivity.
  rewrite <- IH. reflexivity.
Qed.

Lemma take_run (n : nat) : forall s,
  (n <= digit_run s)%nat -> all_digits (take n s) = true /\ String.length (take n s) = n.
Proof.
  induction n as [| n IH]; intros [| c s] H; cbn in *; try (split; reflexivity); try lia.
  destruct (is_digit c); [| lia]. destruct (IH s) as (H1 & H2); [lia |].
  rewrite H1, H2. split; reflexivity.
Qed.

Lemma take_app (m rest : string) : take (String.length m) (m ++ rest) = m.
Proof.
  induction m as [| c m IH]; cbn; [destruct rest; reflexivity |].
  rewrite IH. reflexivity.
Qed.

Lemma drop_app (m rest : string) : drop (String.length m) (m ++ rest) = rest.
Proof.
  induction m as [| c m IH]; cbn; [reflexivity | exact IH].
Qed.

Lemma append_assoc (a b c : string) : (a ++ b) ++ c = a ++ (b ++ c).
Proof.
  induction a as [| x a IH]; cbn; [reflexivity | rewrite IH; reflexivity].
Qed.

Lemma length_append (a b : string) :
  String.length (a ++ b) = (String.length a + String.length b)%nat.
Proof.
  induction a as [| x a IH]; cbn; [reflexivity | rewrite IH; reflexivity].
Qed.

Lemma backtrack_sound (rest : string -> option nat) (s : string) (lo : nat) (k : nat) :
  forall n,
  backtrack rest s lo k = Some n ->
  exists j n', (lo <= j <= k)%nat /\ rest (drop j s) = Some n' /\ n = (j + n')%nat.
Proof.
  induction k as [| k IH]; intros n H; cbn [backtrack] in H.
  - destruct (Nat.ltb_spec 0 lo) as [Hlt | Hge]; [discriminate |].
    destruct (rest (drop 0 s)) as [n' |] eqn:E; [| discriminate].
    injection H as <-. exists 0%nat, n'. split; [lia |]. split; [exact E | reflexivity].
  - destruct (Nat.ltb_spec (S k) lo) as [Hlt | Hge]; [discriminate |].
    destruct (rest (drop (S k) s)) as [n' |] eqn:E.
    + injection H as <-. exists (S k), n'. split; [lia |]. split; [exact E | reflexivity].
    + destruct (IH n H) as (j & n' & Hj & E' & ->).
      exists j, n'. split; [lia |]. split; [exact E' | reflexivity].
Qed.

Lemma match_here_sound (pieces : list piece) : forall s n,
  match_here pieces s = Some n ->
  exists m rest, s = m ++ rest /\ String.length m = n /\ matches pieces m.
Proof.
  induction pieces as [| [lo hi | c] pieces IH]; intros s n H; cbn [match_here] in H.
  - injection H as <-. exists "", s. split; [reflexivity |]. split; reflexivity.
  - apply backtrack_sound in H as (j & n' & Hj & E & ->).
    destruct (IH _ _ E) as (m & rest & Es & Hlen & Hm).
    assert (Hrun : (j <= digit_run s)%nat) by (destruct hi; lia).
    destruct (take_run j s Hrun) as (Hd & Hl).
    exists (take j s ++ m), rest. split; [| split].
    + rewrite append_assoc, <- Es. apply take_drop.
    + rewrite length_append, Hl, Hlen. reflexivity.
    + cbn [matches]. exists (take j s), m. split; [reflexivity |]. split; [| exact Hm].
      unfold digit_field. rewrite Hl. split; [exact Hd |]. split; [lia |].
      destruct hi; [lia | exact I].
  - destruct s as [| c' s]; [discriminate |].
    destruct (Ascii.eqb_spec c' c) as [-> | Hne]; [| discriminate].
    destruct (match_here pieces s) as [n' |] eqn:E; [| discriminate].
    cbn [option_map] in H. injection H as <-.
    destruct (IH _ _ E) as (m & rest & -> & Hlen & Hm).
    exists (String c m), rest. split; [reflexivity |]. split; [cbn; rewrite Hlen; reflexivity |].
    cbn [matches]. exists m. split; [reflexivity | exact Hm].
Qed.

Lemma match_here_take (pieces : list piece) (s : string) (n : nat) :
  match_here pieces s = Some n ->
  exists rest, s = take n s ++ rest /\ matches pieces (take n s).
Proof.
  intros H. destruct (match_here_sound _ _ _ H) as (m & rest & -> & <- & Hm).
  rewrite take_app. exists rest. split; [reflexivity | exact Hm].
Qed.

Lemma search_sound (pieces : list piece) (s : string) : forall m,
  search pieces s = Some m ->
  exists pre post, s = pre ++ m ++ post /\ matches pieces m.
Proof.
  induction s as [| c s IH]; intros m H; cbn [search] in H.
  - destruct (match_here pieces "") as [n |] eqn:E; [| discriminate].
    injection H as <-. destruct (match_here_take _ _ _ E) as (rest & Es & Hm).
    exists "", rest. split; [exact Es | exact Hm].
  - destruct (match_here pieces (String c s)) as [n |] eqn:E.
    + injection H as <-. destruct (match_here_take _ _ _ E) as (rest & Es & Hm).
      exists "", rest. split; [exact Es | exact Hm].
    + destruct (IH m H) as (pre & post & -> & Hm).
      exists (String c pre), post. split; [reflexivity | exact Hm].
Qed.

Lemma has_char_app (x : ascii) (a b : string) :
  has_char x (a ++ b) = has_char x a || has_char x b.
Proof.
  induction a as [| c a IH]; cbn; [reflexivity |]. rewrite IH, orb_assoc. reflexivity.
Qed.

Lemma digits_no_char (x : ascii) (s : string) :
  is_digit x = false -> all_digits s = true -> has_char x s = false.
Proof.
  intros Hx. induction s as [| c s IH]; cbn; [reflexivity |].
  intros H. apply andb_true_iff in H as [Hc Hs]. rewrite (IH Hs), orb_false_r.
  destruct (Ascii.eqb_spec c x) as [-> | _]; [congruence | reflexivity].
Qed.

Lemma str_split_no_sep (sep : ascii) (s : string) :
  has_char sep s = false -> str_split sep s = [s].
Proof.
  induction s as [| c s IH]; cbn; [reflexivity |].
  intros H. apply orb_false_iff in H as [Hc Hs]. rewrite Hc, (IH Hs). reflexivity.
Qed.

Lemma str_split_at_sep (sep : ascii) (a b : string) :
  has_char sep a = false -> str_split sep (a ++ String sep b) = a :: str_split sep b.
Proof.
  induction a as [| c a IH]; cbn [append has_char str_split].
  - rewrite Ascii.eqb_refl. reflexivity.
  - intros H. apply orb_false_iff in H as [Hc Ha]. rewrite Hc, (IH Ha). reflexivity.
Qed.

Lemma append_nil_r (p : string) : p ++ "" = p.
Proof.
  induction p as [| x p IH]; cbn; [| rewrite IH]; reflexivity.
Qed.

Lemma ip_port_split (a b c d p : string) :
  digit_field 1 (Some 3%nat) a -> digit_field 1 (Some 3%nat) b ->
  digit_field 1 (Some 3%nat) c -> digit_field 1 (Some 3%nat) d ->
  digit_field 1 None p ->
  str_split ":" (ip_port a b c d p) = [dotted a b c d; p].
Proof.
  intros Ha Hb Hc Hd Hp.
  assert (Hcol : is_digit ":" = false) by reflexivity.
  unfold ip_port. cbn [append]. rewrite str_split_at_sep.
  - rewrite str_split_no_sep; [reflexivity |]. apply digits_no_char; [exact Hcol | apply Hp].
  - unfold dotted. repeat (rewrite has_char_app; cbn [has_char append]).
    rewrite (digits_no_char ":" a Hcol (proj1 Ha)), (digits_no_char ":" b Hcol (proj1 Hb)),
      (digits_no_char ":" c Hcol (proj1 Hc)), (digits_no_char ":" d Hcol (proj1 Hd)).
    reflexivity.
Qed.

Lemma search_ip_port (s m : string) :
  extract_address s = Some m ->
  exists pre post a b c d p,
    s = pre ++ m ++ post /\ m = ip_port a b c d p /\
    digit_field 1 (Some 3%nat) a /\ digit_field 1 (Some 3%nat) b /\
    digit_field 1 (Some 3%nat) c /\ digit_field 1 (Some 3%nat) d /\
    digit_field 1 None p.
Proof.
  intros H. apply search_sound in H as (pre & post & Es & Hm).
  unfold IP_REGEX in Hm. cbn [matches] in Hm.
  destruct Hm as (a & m1 & -> & Ha & m2 & -> & b & m3 & -> & Hb & m4 & -> &
                  c & m5 & -> & Hc & m6 & -> & d & m7 & -> & Hd & m8 & -> &
                  p & m9 & -> & Hp & ->).
  exists pre, post, a, b, c, d, p. rewrite append_nil_r in *.
  split; [exact Es |]. split; [| repeat (split; [assumption |]); assumption].
  unfold ip_port, dotted. repeat (rewrite append_assoc; cbn [append]). reflexivity.
Qed.

(** What [extract_address] returns: a match is a piece of the input
    of the form [a.b.c.d:p], four groups of one to three digits and a
    non-empty port of digits, which [split(":")] cuts into exactly the two
    strings [a.b.c.d] and [p]; an input without a colon has no match. *)
Theorem extract_address_shape (s : string) :
  (forall m, extract_address s = Some m ->
     exists pre post a b c d p,
       s = pre ++ m ++ post /\ m = ip_port a b c d p /\
       digit_field 1 (Some 3%nat) a /\ digit_field 1 (Some 3%nat) b /\
       digit_field 1 (Some 3%nat) c /\ digit_field 1 (Some 3%nat) d /\
       digit_field 1 None p /\
       str_split ":" m = [dotted a b c d; p]) /\
  (has_char ":" s = false -> extract_address s = None).
Proof.
  split.
  - intros m H.
    destruct (search_ip_port s m H) as (pre & post & a & b & c & d & p & Es & Em & Hf).
    exists pre, post, a, b, c, d, p. split; [exact Es |]. split; [exact Em |].
    destruct Hf as (Ha & Hb & Hc & Hd & Hp). repeat (split; [assumption |]).
    rewrite Em. apply ip_port_split; assumption.
  - intros Hno. destruct (extract_address s) as [m |] eqn:E; [| reflexivity].
    destruct (search_ip_port s m E) as (pre & post & a & b & c & d & p & Es & Em & _).
    rewrite Es, Em in Hno. unfold ip_port in Hno.
    repeat (rewrite has_char_app in Hno; cbn [has_char append] in Hno).
    rewrite Ascii.eqb_refl in Hno. cbn [orb] in Hno.
    rewrite !orb_true_r in Hno. discriminate.
Qed.

Lemma extract_address_shape_witness :
  extract_address "localhost" = None.
Proof.
  apply (proj2 (extract_address_shape "localhost")). reflexivity.
Defined.

Lemma digit_run_app (run rest : string) :
  all_digits run = true ->
  digit_run (run ++ rest) = (String.length run + digit_run rest)%nat.
Proof.
  induction run as [| c run IH]; cbn; [reflexivity |].
  intros H. apply andb_true_iff in H as [Hc Hr]. rewrite Hc, (IH Hr). reflexivity.
Qed.

Lemma backtrack_first (rest : string -> option nat) (s : string) (lo k n : nat) :
  (lo <= k)%nat -> rest (drop k s) = Some n -> backtrack rest s lo k = Some (k + n)%nat.
Proof.
  intros Hk E. destruct k as [| k]; cbn [backtrack].
  - destruct (Nat.ltb_spec 0 lo); [lia |]. rewrite E. reflexivity.
  - destruct (Nat.ltb_spec (S k) lo); [lia |]. rewrite E. reflexivity.
Qed.

Lemma match_field (lo : nat) (hi : option nat) (pieces : list piece)
  (run rest : string) (n : nat) :
  digit_field lo hi run -> digit_run rest = 0%nat ->
  match_here pieces rest = Some n ->
  match_here (Digits lo hi :: pieces) (run ++ rest) = Some (String.length run + n)%nat.
Proof.
  intros (Hd & Hlo & Hhi) Hrest E. cbn [match_here].
  rewrite (digit_run_app run rest Hd), Hrest, Nat.add_0_r.
  assert (Hmost : match hi with
                  | Some h => Nat.min h (String.length run)
                  | None => String.length run
                  end = String.length run) by (destruct hi; lia).
  rewrite Hmost. apply backtrack_first; [exact Hlo |]. rewrite drop_app. exact E.
Qed.

Lemma match_field_lit (lo : nat) (hi : option nat) (c : ascii) (pieces : list piece)
  (run rest : string) (n : nat) :
  digit_field lo hi run -> is_digit c = false ->
  match_here pieces rest = Some n ->
  match_here (Digits lo hi :: Lit c :: pieces) (run ++ String c rest) =
    Some (String.length run + S n)%nat.
Proof.
  intros Hf Hc E. apply match_field; [exact Hf | cbn; rewrite Hc; reflexivity |].
  cbn [match_here]. rewrite Ascii.eqb_refl, E. reflexivity.
Qed.

Lemma search_here (pieces : list piece) (s : string) (n : nat) :
  match_here pieces s = Some n -> search pieces s = Some (take n s).
Proof.
  intros E. destruct s; cbn [search]; rewrite E; reflexivity.
Qed.

Lemma search_skip (lo : nat) (hi : option nat) (pieces : list piece) (pre s : string) :
  no_digit pre = true ->
  search (Digits (S lo) hi :: pieces) (pre ++ s) = search (Digits (S lo) hi :: pieces) s.
Proof.
  induction pre as [| c pre IH]; cbn [append no_digit]; [reflexivity |].
  intros H. apply andb_true_iff in H as [Hc Hp]. apply negb_true_iff in Hc.
  cbn [search match_here digit_run]. rewrite Hc.
  assert (Hmost : match hi with
                  | Some h => Nat.min h 0
                  | None => 0%nat
                  end = 0%nat) by (destruct hi; lia).
  rewrite Hmost. cbn [backtrack Nat.ltb Nat.leb]. apply IH. exact Hp.
Qed.

(** What [extract_address] finds: in an input made of a prefix
    without digits, an address [a.b.c.d:p] and a rest that does not start
    with a digit, the match is the whole address, with its complete port,
    and [get_ip_port] maps the module to the connection [[a.b.c.d, p]]. *)
Theorem extract_address_finds (uid : Z) (pre a b c d p post : string) :
  no_digit pre = true ->
  digit_field 1 (Some 3%nat) a -> digit_field 1 (Some 3%nat) b ->
  digit_field 1 (Some 3%nat) c -> digit_field 1 (Some 3%nat) d ->
  digit_field 1 None p -> digit_run post = 0%nat ->
  extract_address (pre ++ ip_port a b c d p ++ post) = Some (ip_port a b c d p) /\
  get_ip_port [(uid, pre ++ ip_port a b c d p ++ post)] =
    [(uid, [dotted a b c d; p])].
Proof.
  intros Hpre Ha Hb Hc Hd Hp Hpost.
  assert (Hfind : extract_address (pre ++ ip_port a b c d p ++ post) =
                  Some (ip_port a b c d p)).
  { unfold extract_address, IP_REGEX.
    rewrite (search_skip 0 (Some 3%nat) _ pre _ Hpre).
    set (m := ip_port a b c d p).
    assert (E : match_here
                  [Digits 1 (Some 3%nat); Lit "."; Digits 1 (Some 3%nat); Lit ".";
                   Digits 1 (Some 3%nat); Lit "."; Digits 1 (Some 3%nat); Lit ":";
                   Digits 1 None]
                  (m ++ post) = Some (String.length m)).
    { assert (Em : m ++ post =
                   a ++ String "." (b ++ String "." (c ++ String "."
                     (d ++ String ":" (p ++ post))))).
      { unfold m, ip_port, dotted. repeat (rewrite append_assoc; cbn [append]).
        reflexivity. }
      rewrite Em.
      rewrite (match_field_lit 1 (Some 3%nat) "." _ a _ _ Ha eq_refl
                 (match_field_lit 1 (Some 3%nat) "." _ b _ _ Hb eq_refl
                    (match_field_lit 1 (Some 3%nat) "." _ c _ _ Hc eq_refl
                       (match_field_lit 1 (Some 3%nat) ":" _ d _ _ Hd eq_refl
                          (match_field 1 None [] p post 0 Hp Hpost eq_refl))))).
      f_equal. unfold m, ip_port, dotted.
      repeat (rewrite length_append; cbn [String.length append]). lia. }
    rewrite (search_here _ _ _ E). rewrite take_app. reflexivity. }
  split; [exact Hfind |].
  unfold get_ip_port. cbn [map flat_map fst snd]. rewrite Hfind. cbn [app].
  rewrite ip_port_split by assumption. reflexivity.
Qed.

Lemma extract_address_finds_witness :
  extract_address ("http://" ++ ip_port "10" "0" "0" "1" "8000" ++ "/path") =
    Some (ip_port "10" "0" "0" "1" "8000") /\
  get_ip_port [(7, "http://" ++ ip_port "10" "0" "0" "1" "8000" ++ "/path")] =
    [(7, [dotted "10" "0" "0" "1"; "8000"])].
Proof.
  apply (extract_address_finds 7 "http://" "10" "0" "0" "1" "8000" "/path");
    try reflexivity; unfold digit_field; cbn; repeat split; lia.
Defined.

Lemma get_ip_port_In (modules_adresses : dict string) (uid : Z) (conn : list string) :
  In (uid, conn) (get_ip_port modules_adresses) <->
  exists addr m,
    In (uid, addr) modules_adresses /\ extract_address addr = Some m /\
    conn = str_split ":" m.
Proof.
  unfold get_ip_port. rewrite in_flat_map. split.
  - intros ([k x] & Hin & Hx). apply in_map_iff in Hin as ([k' addr] & E & Hin).
    cbn [fst snd] in *. injection E as -> <-.
    destruct (extract_address addr) as [m |] eqn:Em; [| destruct Hx].
    destruct Hx as [Hx | []]. injection Hx as -> <-. exists addr, m. auto.
  - intros (addr & m & Hin & Em & ->). exists (uid, extract_address addr). split.
    + apply in_map_iff. exists (uid, addr). split; [reflexivity | exact Hin].
    + cbn [fst snd]. rewrite Em. left. reflexivity.
Qed.

Lemma get_ip_port_resolver (e : env) (modules_adresses : dict string) :
  (forall addr, ip_port_of e addr = ip_port_of_address addr) ->
  Validator.get_ip_port e modules_adresses = get_ip_port modules_adresses.
Proof.
  intros He. unfold Validator.get_ip_port, get_ip_port.
  induction modules_adresses as [| [k addr] l IH]; [reflexivity |].
  cbn [map flat_map fst snd]. rewrite IH, He. unfold ip_port_of_address.
  destruct (extract_address addr); reflexivity.
Qed.

(** The connections [get_ip_port] returns: every value is a list of
    exactly two strings, the dotted address and a non-empty port made of
    digits, cut from the address string of the same module; the modules are
    kept in the order of the input and those whose address has no match
    are dropped; and the round's resolver, when it is the one
    [get_ip_port] defines, gives the same dictionary. *)
Theorem get_ip_port_connections (modules_adresses : dict string) :
  (forall uid conn,
      In (uid, conn) (get_ip_port modules_adresses) ->
      exists addr a b c d p,
        In (uid, addr) modules_adresses /\
        extract_address addr = Some (ip_port a b c d p) /\
        conn = [dotted a b c d; p] /\ digit_field 1 None p) /\
  dict_keys (get_ip_port modules_adresses) =
    dict_keys (filter (fun kv => match extract_address (snd kv) with
                                 | Some _ => true
                                 | None => false
                                 end) modules_adresses) /\
  (forall e,
      (forall addr, ip_port_of e addr = ip_port_of_address addr) ->
      Validator.get_ip_port e modules_adresses = get_ip_port modules_adresses).
Proof.
  split; [| split].
  - intros uid conn H. apply get_ip_port_In in H as (addr & m & Hin & Em & ->).
    destruct (search_ip_port addr m Em)
      as (_ & _ & a & b & c & d & p & _ & -> & Ha & Hb & Hc & Hd & Hp).
    exists addr, a, b, c, d, p. split; [exact Hin |]. split; [exact Em |].
    split; [apply ip_port_split; assumption | exact Hp].
  - unfold get_ip_port, dict_keys.
    induction modules_adresses as [| [k addr] l IH]; [reflexivity |].
    cbn [map flat_map filter fst snd]. destruct (extract_address addr); cbn [app map fst].
    + f_equal. exact IH.
    + exact IH.
  - intros e He. apply get_ip_port_resolver. exact He.
Qed.

Lemma get_ip_port_connections_witness :
  exists addr a b c d p,
    In (1, addr) [(1, "10.0.0.1:8000"); (2, "nowhere")] /\
    extract_address addr = Some (ip_port a b c d p) /\
    ["10.0.0.1"; "8000"] = [dotted a b c d; p] /\ digit_field 1 None p.
Proof.
  apply (proj1 (get_ip_port_connections [(1, "10.0.0.1:8000"); (2, "nowhere")])).
  left. reflexivity.
Defined.

End Addresses.

(** ** The modules of a round and the subnet of the validator *)

Section Modules.

Import Validator ValidatorFunctions AddressFacts.

Lemma dict_get_In {V} (k : Z) (v : V) (d : dict V) :
  dict_get k d = Some v -> In (k, v) d.
Proof.
  induction d as [| [k' v'] d IH]; cbn [dict_get]; [discriminate |].
  destruct (Z.eqb_spec k k') as [-> | Hne].
  - intros H. injection H as ->. left. reflexivity.
  - intros H. right. apply IH. exact H.
Qed.

Lemma dict_get_nodup {V} (k : Z) (v : V) (d : dict V) :
  NoDup (dict_keys d) -> In (k, v) d -> dict_get k d = Some v.
Proof.
  unfold dict_keys. induction d as [| [k' v'] d IH]; intros Hnd Hin; [destruct Hin |].
  cbn [map fst] in Hnd. inversion Hnd as [| ? ? Hfresh Hnd']; subst.
  cbn [dict_get]. destruct (Z.eqb_spec k k') as [-> | Hne].
  - destruct Hin as [E | Hin]; [congruence |].
    exfalso. apply Hfresh. apply (in_map fst) in Hin. exact Hin.
  - destruct Hin as [E | Hin]; [congruence |]. apply IH; assumption.
Qed.

Lemma modules_info_fold (filtered : dict (list string)) (keys : dict string) :
  forall acc : dict (list string * string),
  NoDup (dict_keys acc ++ dict_keys keys) ->
  fold_left
    (fun info kv =>
       match dict_get (fst kv) filtered with
       | Some (x :: l) => dict_set (fst kv) (x :: l, snd kv) info
       | _ => info
       end) keys acc =
  acc ++ flat_map
           (fun kv => match dict_get (fst kv) filtered with
                      | Some (x :: l) => [(fst kv, (x :: l, snd kv))]
                      | _ => []
                      end) keys.
Proof.
  induction keys as [| [k key] keys IH]; intros acc Hnd; cbn [fold_left flat_map fst snd].
  - rewrite app_nil_r. reflexivity.
  - cbn [dict_keys map fst] in Hnd. fold (dict_keys keys) in Hnd.
    pose proof (NoDup_remove_1 _ _ _ Hnd) as Hnd1.
    pose proof (NoDup_remove_2 _ _ _ Hnd) as Hfresh.
    destruct (dict_get k filtered) as [[| x l] |]; cbn [app]; try (apply IH; exact Hnd1).
    assert (Hk : ~ In k (dict_keys acc)).
    { intros Hin. apply Hfresh. apply in_or_app. left. exact Hin. }
    rewrite (dict_set_fresh k (x :: l, key) acc Hk), IH.
    + rewrite <- app_assoc. reflexivity.
    + unfold dict_keys in *. rewrite map_app, <- app_assoc. exact Hnd.
Qed.

(** The modules a round polls: for a key dictionary without
    duplicate uids, [modules_info] holds, in the order of the key
    dictionary, exactly the modules whose uid [get_ip_port] resolved to a
    non-empty connection, each with that connection and its key; no uid
    occurs twice, and with the resolver that [get_ip_port] defines every
    connection is a pair of an address and a port of digits. *)
Theorem modules_info_of_spec (e : env) :
  NoDup (dict_keys (query_map_key e)) ->
  let filtered := Validator.get_ip_port e (query_map_address e) in
  modules_info_of e =
    flat_map (fun kv => match dict_get (fst kv) filtered with
                        | Some (x :: l) => [(fst kv, (x :: l, snd kv))]
                        | _ => []
                        end) (query_map_key e) /\
  NoDup (dict_keys (modules_info_of e)) /\
  (forall uid conn key,
      In (uid, (conn, key)) (modules_info_of e) <->
      In (uid, key) (query_map_key e) /\ dict_get uid filtered = Some conn /\ conn <> []) /\
  ((forall addr, ip_port_of e addr = ip_port_of_address addr) ->
   forall uid conn key,
     In (uid, (conn, key)) (modules_info_of e) ->
     exists ip port, conn = [ip; port] /\ digit_field 1 None port).
Proof.
  intros Hnd filtered.
  assert (E : modules_info_of e =
              flat_map (fun kv => match dict_get (fst kv) filtered with
                                  | Some (x :: l) => [(fst kv, (x :: l, snd kv))]
                                  | _ => []
                                  end) (query_map_key e)).
  { unfold modules_info_of. fold filtered.
    rewrite (modules_info_fold filtered (query_map_key e) [] Hnd). reflexivity. }
  assert (Hin : forall uid conn key,
             In (uid, (conn, key)) (modules_info_of e) <->
             In (uid, key) (query_map_key e) /\ dict_get uid filtered = Some conn /\
             conn <> []).
  { intros uid conn key. rewrite E, in_flat_map. split.
    - intros ([k key'] & Hk & Hx). cbn [fst snd] in Hx.
      destruct (dict_get k filtered) as [[| x l] |] eqn:Eg; try destruct Hx.
      + injection H as -> <- ->. split; [exact Hk |]. split; [exact Eg | discriminate].
      + destruct H.
    - intros (Hk & Eg & Hne). exists (uid, key). split; [exact Hk |].
      cbn [fst snd]. rewrite Eg. destruct conn as [| x l]; [congruence |].
      left. reflexivity. }
  split; [exact E |]. split; [| split; [exact Hin |]].
  - rewrite E. clear E Hin. unfold dict_keys in *.
    induction (query_map_key e) as [| [k key] keys IH]; [constructor |].
    cbn [map fst] in Hnd. inversion Hnd as [| ? ? Hfresh Hnd']; subst.
    cbn [flat_map fst snd].
    destruct (dict_get k filtered) as [[| x l] |]; cbn [app map fst];
      try (apply IH; exact Hnd').
    constructor; [| apply IH; exact Hnd'].
    intros Hk. apply Hfresh. apply in_map_iff in Hk as ([k' v] & Ek & Hk).
    apply in_flat_map in Hk as ([k0 key0] & Hk0 & Hx). cbn [fst snd] in *. subst k'.
    destruct (dict_get k0 filtered) as [[| x0 l0] |]; try destruct Hx.
    + injection H as -> _. apply (in_map fst) in Hk0. exact Hk0.
    + destruct H.
  - intros He uid conn key H. apply Hin in H as (_ & Eg & _).
    apply dict_get_In in Eg. unfold filtered in Eg.
    rewrite (get_ip_port_resolver e (query_map_address e) He) in Eg.
    apply get_ip_port_In in Eg as (addr & m & _ & Em & ->).
    destruct (search_ip_port addr m Em)
      as (_ & _ & a & b & c & d & p & _ & -> & Ha & Hb & Hc & Hd & Hp).
    exists (dotted a b c d), p. split; [apply ip_port_split; assumption | exact Hp].
Qed.

Lemma modules_info_of_spec_witness :
  dict_keys (modules_info_of RoundSpec.env0) = [1; 2] /\
  NoDup (dict_keys (modules_info_of RoundSpec.env0)).
Proof.
  split; [reflexivity |].
  refine (proj1 (proj2 (modules_info_of_spec RoundSpec.env0 _))).
  cbn. repeat constructor; cbn [In]; intros H; repeat destruct H as [H | H];
    try discriminate H; exact H.
Defined.

Lemma get_subnet_netuid_first (subnets : dict string) (subnet_name : string) (n : Z) :
  get_subnet_netuid subnets subnet_name = Ok n ->
  exists pre post,
    subnets = pre ++ (n, subnet_name) :: post /\ ~ In subnet_name (dict_values pre).
Proof.
  induction subnets as [| [k name] subnets IH]; cbn [get_subnet_netuid]; [discriminate |].
  destruct (String.eqb_spec name subnet_name) as [-> | Hne].
  - intros H. injection H as ->. exists [], subnets. split; [reflexivity | intros []].
  - intros H. destruct (IH H) as (pre & post & -> & Hpre).
    exists ((k, name) :: pre), post. split; [reflexivity |].
    cbn. intros [E | Hin]; [congruence | exact (Hpre Hin)].
Qed.

(** [get_subnet_netuid] raises [ValueError], and nothing else,
    exactly when no subnet carries the name; otherwise it returns the
    netuid of the first subnet of the dictionary with that name, and
    looking that netuid up in the dictionary gives the name back. *)
Theorem get_subnet_netuid_spec (subnets : dict string) (subnet_name : string) :
  (get_subnet_netuid subnets subnet_name = Raise ValueError <->
   ~ In subnet_name (dict_values subnets)) /\
  (forall ex, get_subnet_netuid subnets subnet_name = Raise ex -> ex = ValueError) /\
  (forall n,
      get_subnet_netuid subnets subnet_name = Ok n ->
      (exists pre post,
          subnets = pre ++ (n, subnet_name) :: post /\
          ~ In subnet_name (dict_values pre)) /\
      (NoDup (dict_keys subnets) -> dict_get n subnets = Some subnet_name)).
Proof.
  split; [| split].
  - induction subnets as [| [k name] subnets IH]; cbn [get_subnet_netuid].
    + split; [intros _ [] | reflexivity].
    + cbn [dict_values map snd]. fold (dict_values subnets).
      destruct (String.eqb_spec name subnet_name) as [-> | Hne].
      * split; [discriminate |]. intros H. exfalso. apply H. left. reflexivity.
      * rewrite IH. cbn [In]. tauto.
  - intros ex. induction subnets as [| [k name] subnets IH]; cbn [get_subnet_netuid].
    + intros H. injection H as <-. reflexivity.
    + destruct (String.eqb name subnet_name); [discriminate | exact IH].
  - intros n H. split; [apply get_subnet_netuid_first; exact H |].
    intros Hnd. apply dict_get_nodup; [exact Hnd |].
    destruct (get_subnet_netuid_first _ _ _ H) as (pre & post & -> & _).
    apply in_or_app. right. left. reflexivity.
Qed.

Lemma get_subnet_netuid_spec_witness :
  get_subnet_netuid [(0, "linear"%string); (3, "velora"%string)] "zangief" =
    Raise ValueError.
Proof.
  apply (proj1 (get_subnet_netuid_spec [(0, "linear"%string); (3, "velora"%string)]
                  "zangief")).
  cbn. intros [H | [H | []]]; discriminate H.
Defined.

End Modules.

(** ** Failures of the window query and of the consensus step *)

Section Failures.

Import DBManager Validator RoundSpec.

(** [get_time_range] repeats itself until a window is marked: a call
    that follows directly gives the same outcome and changes nothing more.
    A returned window is an incomplete row of the timetable.  A failure
    leaves the database as it was, and is therefore met again by every
    retry; it is a [TypeError], on an empty timetable, an [OverflowError],
    when every window is complete and the latest one ends on [date.max],
    or an [IntegrityError], when every window is complete and the end of
    the latest one is already the start of a row. *)
Theorem get_time_range_repeats (d d' : DBManager.t) (res : result (Z * Z)) :
  get_time_range d = (res, d') ->
  get_time_range d' = (res, d') /\
  (forall s e, res = Ok (s, e) -> In (mkTimetable s e false) (timetable d')) /\
  (forall ex, res = Raise ex ->
     d' = d /\ fetch_incompleted_time_range d = [] /\
     (ex = TypeError /\ timetable d = [] \/
      exists last_row,
        fetch_last_time_range d = Some last_row /\
        (ex = OverflowError /\ date_max <= end_ last_row \/
         ex = IntegrityError /\ end_ last_row < date_max /\
         In (end_ last_row) (map start (timetable d))))).
Proof.
  unfold get_time_range at 1.
  destruct (fetch_incompleted_time_range d) as [| r rest] eqn:Einc.
  - destruct (fetch_last_time_range d) as [last_row |] eqn:Elast.
    + destruct (Z.ltb_spec date_max (end_ last_row + 1)) as [Hmax | Hmax].
      { intros H. injection H as <- <-. split; [| split; [discriminate |]].
        - unfold get_time_range. rewrite Einc, Elast.
          destruct (Z.ltb_spec date_max (end_ last_row + 1)); [reflexivity | lia].
        - intros ex H. injection H as <-. split; [reflexivity |].
          split; [reflexivity |]. right. exists last_row. split; [reflexivity |].
          left. split; [reflexivity | lia]. }
      unfold add_timetable_entry.
      destruct (existsb _ (timetable d)) eqn:Ex; intros H; injection H as <- <-.
      * split; [| split; [discriminate |]].
        -- unfold get_time_range. rewrite Einc, Elast.
           destruct (Z.ltb_spec date_max (end_ last_row + 1)); [lia |].
           unfold add_timetable_entry. rewrite Ex. reflexivity.
        -- intros ex H. injection H as <-. split; [reflexivity |].
           split; [reflexivity |]. right. exists last_row. split; [reflexivity |].
           right. split; [reflexivity |]. split; [lia |]. apply existsb_start. exact Ex.
      * split; [| split; [| discriminate]].
        -- unfold get_time_range, fetch_incompleted_time_range in *.
           cbn [with_timetable timetable]. rewrite filter_app, Einc. reflexivity.
        -- intros s e H. injection H as <- <-. cbn [with_timetable timetable].
           apply in_or_app. right. left. reflexivity.
    + intros H. injection H as <- <-. split; [| split; [discriminate |]].
      * unfold get_time_range. rewrite Einc, Elast. reflexivity.
      * intros ex H. injection H as <-. split; [reflexivity |].
        split; [reflexivity |]. left. split; [reflexivity |].
        unfold fetch_last_time_range in Elast.
        destruct (timetable d) as [| b rows]; [reflexivity |].
        cbn [fold_left] in Elast.
        destruct (fold_last_spec rows b) as (r & E & _). congruence.
  - intros H. injection H as <- <-. split; [| split; [| discriminate]].
    + unfold get_time_range. rewrite Einc. reflexivity.
    + intros s e H. injection H as <- <-.
      assert (Hr : In r (fetch_incompleted_time_range d)) by (rewrite Einc; left; reflexivity).
      apply filter_In in Hr as (Hr & Hc). apply negb_true_iff in Hc.
      destruct r as [s e c]. cbn [completed start end_] in *. subst c. exact Hr.
Qed.

Lemma get_time_range_repeats_witness :
  get_time_range (mkDB [mkTimetable 738886 738886 true] [] []) =
    (Raise IntegrityError, mkDB [mkTimetable 738886 738886 true] [] []).
Proof.
  apply (proj1 (get_time_range_repeats (mkDB [mkTimetable 738886 738886 true] [] [])
                  (mkDB [mkTimetable 738886 738886 true] [] []) (Raise IntegrityError)
                  eq_refl)).
Defined.

Lemma rmapM_first_missing (good : list (option miner_answer)) (hashes : list string)
  (a : option miner_answer) (rest : list (option miner_answer)) (ex : exn) :
  Forall2 has_fingerprint good hashes ->
  subscript_overall_hash a = Raise ex ->
  rmapM subscript_overall_hash (good ++ a :: rest) = Raise ex.
Proof.
  intros Hfp Ha. induction Hfp as [| x h good hashes (d & -> & Eh) _ IH]; cbn [app rmapM].
  - rewrite Ha. reflexivity.
  - cbn [subscript_overall_hash]. rewrite Eh. cbn [rbind]. rewrite IH. reflexivity.
Qed.

(** How the consensus step fails.  With no module to poll the list
    of fingerprints is empty and [max] raises [ValueError], which ends the
    round before any vote; otherwise the first answer, in polling order,
    that has no fingerprint decides: [TypeError] when it is [None],
    [KeyError] when it is a dictionary without [overall_hash]. *)
Theorem consensus_failures (e : env) :
  set_order (set_iter e) ->
  (forall prompt w, validate_step_with_prompt e [] prompt w = (Raise ValueError, w)) /\
  (forall good hashes rest,
      Forall2 has_fingerprint good hashes ->
      consensus (set_iter e) (good ++ None :: rest) = Raise TypeError) /\
  (forall good hashes d rest,
      Forall2 has_fingerprint good hashes -> overall_hash d = None ->
      consensus (set_iter e) (good ++ Some d :: rest) = Raise KeyError).
Proof.
  intros Hord. split; [| split].
  - intros prompt w. unfold validate_step_with_prompt, bind, lift.
    cbn [dict_values dict_keys map combine consensus rmapM rbind].
    unfold most_common_hash, py_max.
    destruct (set_iter e []) as [| x l] eqn:Ei; [reflexivity |].
    exfalso. apply (proj2 (Hord []) x). rewrite Ei. left. reflexivity.
  - intros good hashes rest Hfp. unfold consensus.
    rewrite (rmapM_first_missing good hashes None rest TypeError Hfp eq_refl). reflexivity.
  - intros good hashes d rest Hfp Hd. unfold consensus.
    rewrite (rmapM_first_missing good hashes (Some d) rest KeyError Hfp); [reflexivity |].
    cbn [subscript_overall_hash]. rewrite Hd. reflexivity.
Qed.

Lemma consensus_failures_witness :
  validate_step_with_prompt env0 [] (Some prompt0) world0 = (Raise ValueError, world0).
Proof.
  apply (proj1 (consensus_failures env0 (fun xs => conj (NoDup_nodup string_dec xs)
                                                     (fun x => nodup_In string_dec xs x)))).
Defined.

End Failures.

(** ** Answers whose records all pass, or all fail *)

Section UniformAnswers.

Import Validator RoundSpec.

Lemma sample_In (e : env) (x : block_data) (l : list block_data) (k : nat) :
  In (sample e x l k) (x :: l).
Proof.
  unfold sample. apply nth_In. apply Nat.mod_upper_bound. cbn [length]. lia.
Qed.

(** With [rust_backend] bound to an oracle and a prompt given, the verdict
    of [check_miner_answer] is random only for mixed answers: whatever
    records [random.choice] draws, an answer with a non-empty [data] all
    of whose records pass is accepted, after ten draws, and one all of
    whose records fail is refused at the first draw; a single valid record
    is enough for the first. *)
Theorem uniform_answers_verdict (e : env) (p : miner_prompt) (a : miner_answer)
  (x : block_data) (l : list block_data) (w : world) :
  rust_backend_bound e = true ->
  data a = Some (x :: l) ->
  let range :=
    fetch_block_range e (token_a p) (token_b p) (start_datetime p) (end_datetime p) in
  let check := check_miner_answer e (Some p) (Some a) w in
  (Forall (record_passes e (fst range) (snd range)) (x :: l) ->
   check = (Ok true, after_draws w 10)) /\
  (Forall (record_fails e (fst range) (snd range)) (x :: l) ->
   check = (Ok false, after_draws w 1)).
Proof.
  intros Hb Hdata. cbv zeta. rewrite (check_miner_answer_bound e p a w Hb), Hdata.
  destruct (fetch_block_range e _ _ _ _) as [lo hi]. cbn [fst snd].
  split; intros Hall; rewrite Forall_forall in Hall.
  - apply check_samples_all_pass. intros i _. apply Hall. apply sample_In.
  - apply (check_samples_first_fail e lo hi x l 10 w 0); [lia | intros i Hi; lia |].
    apply Hall. apply sample_In.
Qed.

Lemma uniform_answers_verdict_witness :
  check_miner_answer env0 (Some prompt0) (Some answer0) world0 =
    (Ok true, after_draws world0 10).
Proof.
  refine (proj1 (uniform_answers_verdict env0 prompt0 answer0
                   (mkBlock (Some 5) (Some "h"%string)) [] world0 eq_refl eq_refl) _).
  repeat constructor. exists 5, "h"%string. cbn. repeat split; try reflexivity; lia.
Defined.

End UniformAnswers.
